(** * DataPack and DataIndex: a shallow embedding of
      [nlp/pipeline/data/data_pack.py]

    The development follows the Python module top-down: Python values and
    exceptions, the entry kinds of the ontology, [DataIndex] (span algebra
    and the index updates), [DataPack] (the entry store), and the request
    engine ([_parse_request_args], [get_entries], [get_data]).

    Conventions.
    - A Python [int] is a [Z]; a [str] is a [string]; a [set] of strings is
      a [gset string]; a [dict]/[defaultdict] is a [gmap], and reading a
      [defaultdict] at a missing key is [default ∅ (m !! k)] (the empty
      value that the read leaves behind in Python cannot be observed by any
      later read and is not recorded).
    - A method that mutates the pack takes the pack and returns the pack
      after the call together with an outcome of type [result]: the state
      reached when an exception propagates is kept, as in Python.
    - A generator is the list of the values it yields followed by the
      exception that ends it, if any ([gen]).
    - [logging] calls are not modelled, except the warning of [set_text]. *)

From Stdlib Require Import ZArith Ascii String List Sorted.
From stdpp Require Import base gmap strings list fin_maps pretty.

Open Scope string_scope.
Open Scope Z_scope.

(** ** Python exceptions and outcomes *)

Inductive exn : Type :=
| KeyError | ValueError | TypeError | IndexError | AttributeError.

Inductive result (A : Type) : Type :=
| OK (a : A)
| Raise (e : exn).
Arguments OK {A} a.
Arguments Raise {A} e.

Global Instance result_ret : MRet result := fun A a => OK a.

Global Instance result_bind : MBind result := fun A B k r =>
  match r with
  | OK a => k a
  | Raise e => Raise e
  end.

(** A generator run to its end: the values yielded, in order, and the
    exception that stopped it ([None] when it returned normally). *)
Definition gen (A : Type) : Type := (list A * option exn)%type.

(** ** Python built-ins used by the module *)

(** [str(n)] for a non-negative counter. *)
Definition py_str (n : nat) : string := pretty n.

(** Normalisation of one slice bound against a length, as [slice.indices]
    does for a step of one: negative bounds count from the end, and the
    outcome is clamped to [0 .. len]. *)
Definition slice_bound (len i : Z) : Z :=
  if i <? 0 then Z.max (i + len) 0 else Z.min i len.

(** A Python [str] is a sequence of characters (code points).  It is held
    here as the string of the bytes of its UTF-8 encoding, in which a
    character is a byte that is no continuation byte, followed by the
    continuation bytes ([10xxxxxx]) that belong to it. *)
Definition is_continuation (c : ascii) : bool :=
  let n := nat_of_ascii c in ((128 <=? n) && (n <? 192))%nat.

(** The characters of a [str], in order. *)
Fixpoint chars_of (s : string) : list string :=
  match s with
  | EmptyString => []
  | String c s' =>
      match s' with
      | String c' _ =>
          if is_continuation c' then
            match chars_of s' with
            | ch :: rest => String c ch :: rest
            | [] => [String c EmptyString]
            end
          else String c EmptyString :: chars_of s'
      | EmptyString => [String c EmptyString]
      end
  end.

(** [len(s)]: the number of characters. *)
Definition str_len (s : string) : nat := length (chars_of s).

(** [s[b:e]] on a [str]: the characters from position [b] up to position
    [e]. *)
Definition str_slice (s : string) (b e : Z) : string :=
  let len := Z.of_nat (str_len s) in
  let b' := slice_bound len b in
  let e' := slice_bound len e in
  String.concat "" (take (Z.to_nat (e' - b')) (drop (Z.to_nat b') (chars_of s))).

(** [l[b:e]] on a list, for bounds that are already list positions. *)
Definition list_slice {A : Type} (l : list A) (b e : nat) : list A :=
  take (e - b)%nat (drop b l).

(** [l[-1]]. *)
Definition list_last {A : Type} (l : list A) : result A :=
  match last l with
  | Some a => OK a
  | None => Raise IndexError
  end.

(** [d[k]] on a plain [dict]. *)
Definition dict_get `{Countable K} {V : Type} (d : gmap K V) (k : K) : result V :=
  match d !! k with
  | Some v => OK v
  | None => Raise KeyError
  end.

(** [d[k]] on a [defaultdict(set)]. *)
Definition dd_get `{Countable K} (d : gmap K (gset string)) (k : K) : gset string :=
  default ∅ (d !! k).

(** [d[k].add(x)] on a [defaultdict(set)]. *)
Definition dd_add `{Countable K} (d : gmap K (gset string)) (k : K) (x : string)
  : gmap K (gset string) :=
  <[k := {[x]} ∪ dd_get d k]> d.

(** ** Entry kinds

    The ontology module ([Entry], [Annotation], [Link], [Group], [Span],
    [Sentence]) is imported by [data_pack.py] but is not part of the
    sources at hand.  The three variants and the fields the pack reads are
    the ones the pack's code accesses. *)

Inductive variant : Type := VAnnotation | VLink | VGroup | VOther.

Global Instance variant_eq_dec : EqDecision variant.
Proof. solve_decision. Defined.

Definition variant_to_nat (v : variant) : nat :=
  match v with VAnnotation => 0 | VLink => 1 | VGroup => 2 | VOther => 3 end%nat.

Definition variant_of_nat (n : nat) : variant :=
  match n with
  | O => VAnnotation | S O => VLink | S (S O) => VGroup | _ => VOther
  end.

Global Instance variant_countable : Countable variant.
Proof.
  apply (inj_countable' variant_to_nat variant_of_nat).
  intros []; reflexivity.
Defined.

(** A class is the variant it derives from and the chain of class names
    below that variant, outermost first: [Annotation] itself is
    [(VAnnotation, [])], [Sentence] is [(VAnnotation, ["Sentence"])] and a
    class derived from [Sentence] extends that chain.  [VOther] stands for
    classes deriving from [Entry] outside the three variants. *)
Definition class : Type := (variant * list string)%type.

Definition Annotation_class : class := (VAnnotation, []).
Definition Link_class : class := (VLink, []).
Definition Group_class : class := (VGroup, []).
Definition Sentence : class := (VAnnotation, ["Sentence"]).

Fixpoint is_prefix (l1 l2 : list string) : bool :=
  match l1, l2 with
  | [], _ => true
  | x :: l1', y :: l2' => bool_decide (x = y) && is_prefix l1' l2'
  | _ :: _, [] => false
  end.

(** The class [Entry] itself, the base of every entry class. *)
Definition Entry_class : class := (VOther, []).

(** [issubclass(k, t)]: every class derives from [Entry]; below that, a
    class derives from the classes of its own variant that its chain
    extends. *)
Definition issubclass (k t : class) : bool :=
  bool_decide (t = Entry_class) || (bool_decide (k.1 = t.1) && is_prefix t.2 k.2).

(** [k.__name__]. *)
Definition class_name (k : class) : string :=
  match last k.2 with
  | Some n => n
  | None =>
      match k.1 with
      | VAnnotation => "Annotation"
      | VLink => "Link"
      | VGroup => "Group"
      | VOther => "Entry"
      end
  end.

Record Span : Type := mkSpan { span_begin : Z; span_end : Z }.

(** Values of the fields that components set on entries. *)
Inductive value : Type :=
| VNone
| VInt (z : Z)
| VStr (s : string)
| VPair (a b : Z)
| VSpan (s : Span).

Inductive payload : Type :=
| Annotation (span : Span)
| Link (parent child : string) (parent_type child_type : class)
| Group (members : list string)
| Other.

Record Entry : Type := mkEntry {
  class_chain : list string;
  tid : string;
  component : string;
  body : payload;
  attrs : gmap string value
}.

Definition variant_of (e : Entry) : variant :=
  match body e with
  | Annotation _ => VAnnotation
  | Link _ _ _ _ => VLink
  | Group _ => VGroup
  | Other => VOther
  end.

(** [type(e)] / [e.__class__]. *)
Definition type_of (e : Entry) : class := (variant_of e, class_chain e).

(** [isinstance(e, t)]. *)
Definition isinstance (e : Entry) (t : class) : bool := issubclass (type_of e) t.

(** Modelled from the spec: [Entry.set_tid] is defined in the ontology
    module, which is missing.  The spec says that insertion "assigns [tid]
    from the per-kind counter" and that "two entries of different kinds may
    receive the same identifier string": the identifier is the string that
    the pack passes in. *)
Definition set_tid (e : Entry) (s : string) : Entry :=
  {| class_chain := class_chain e; tid := s; component := component e;
     body := body e; attrs := attrs e |}.

(** [e.span] reads an attribute that only annotations have. *)
Definition span_of (e : Entry) : result Span :=
  match body e with
  | Annotation s => OK s
  | _ => Raise AttributeError
  end.

(** [getattr(e, field)] for the fields the request engine copies; [txt] is
    the text of the pack that the entry belongs to.  [span] and [text] are
    attributes of annotations only.  Modelled from the spec: the [text]
    property of an annotation belongs to the missing ontology module; the
    spec calls it the "substring" of the pack's text that the span covers. *)
Definition getattr (txt : string) (e : Entry) (field : string) : result value :=
  if bool_decide (field = "tid") then OK (VStr (tid e))
  else if bool_decide (field = "component") then OK (VStr (component e))
  else if bool_decide (field = "span") then s ← span_of e; OK (VSpan s)
  else if bool_decide (field = "text") then
    s ← span_of e; OK (VStr (str_slice txt (span_begin s) (span_end s)))
  else match attrs e !! field with
       | Some v => OK v
       | None => Raise AttributeError
       end.

(** Modelled from the spec: the ordering of annotations ([__lt__] of the
    missing ontology module).  The spec says annotations are ordered by
    [span.begin], "tie-broken by [span.end]". *)
Definition span_lt (a b : Span) : bool :=
  (span_begin a <? span_begin b)
  || ((span_begin a =? span_begin b) && (span_end a <? span_end b)).

Definition span_le (a b : Span) : Prop :=
  span_begin a < span_begin b
  \/ (span_begin a = span_begin b /\ span_end a <= span_end b).

(** The span an entry is sorted by; entries that are not annotations never
    enter the sorted container. *)
Definition key_span (e : Entry) : Span :=
  match body e with
  | Annotation s => s
  | _ => mkSpan 0 0
  end.

Definition entry_lt (a b : Entry) : bool := span_lt (key_span a) (key_span b).

(** ** Stateful code: the state survives an exception *)

Definition exec (S A : Type) : Type := S -> S * result A.

Definition exec_ret {S A : Type} (a : A) : exec S A := fun s => (s, OK a).

Definition exec_bind {S A B : Type} (m : exec S A) (k : A -> exec S B) : exec S B :=
  fun s =>
    match m s with
    | (s', OK a) => k a s'
    | (s', Raise e) => (s', Raise e)
    end.

Definition exec_get {S : Type} : exec S S := fun s => (s, OK s).

Definition exec_modify {S : Type} (f : S -> S) : exec S unit := fun s => (f s, OK tt).

(** An outcome computed without touching the state. *)
Definition exec_lift {S A : Type} (r : result A) : exec S A := fun s => (s, r).

Notation "'do' x <- m ; k" := (exec_bind m (fun x => k))
  (at level 10, x name, m at level 100, k at level 200).
Notation "'do_' m ; k" := (exec_bind m (fun _ => k))
  (at level 10, m at level 100, k at level 200).

(** [for x in l: body(x)], stopping at the first exception. *)
Fixpoint exec_for {S A : Type} (l : list A) (body : A -> exec S unit) : exec S unit :=
  match l with
  | [] => exec_ret tt
  | x :: l' => do_ body x; exec_for l' body
  end.

(** [if b: m]. *)
Definition exec_when {S : Type} (b : bool) (m : exec S unit) : exec S unit :=
  if b then m else exec_ret tt.

(** ** Meta and InternalMeta *)

Record Meta : Type := mkMeta {
  doc_id : option string;
  language : string;
  span_unit : string;
  process_state : string;
  cache_state : string
}.

(** [Meta.__init__]. *)
Definition Meta_init (doc_id : option string) : Meta :=
  mkMeta doc_id "english" "character" "" "".

Record InternalMeta : Type := mkInternalMeta {
  id_counter : nat;
  fields_created : gmap string (gset string);
  default_component : option string
}.

(** [InternalMeta.__init__]. *)
Definition InternalMeta_init : InternalMeta := mkInternalMeta 0 ∅ None.

(** ** DataIndex *)

Record DataIndex : Type := mkDataIndex {
  entry_index : gmap string Entry;
  type_index : gmap class (gset string);
  component_index : gmap string (gset string);
  _group_index : gmap string (gset string);
  _link_index : gmap string (gmap string (gset string));
  _group_index_switch : bool;
  _link_index_switch : bool
}.

(** [DataIndex.__init__]. *)
Definition DataIndex_init : DataIndex := mkDataIndex ∅ ∅ ∅ ∅ ∅ false false.

Definition with_basic (idx : DataIndex) (ei : gmap string Entry)
    (ti : gmap class (gset string)) (ci : gmap string (gset string)) : DataIndex :=
  mkDataIndex ei ti ci (_group_index idx) (_link_index idx)
    (_group_index_switch idx) (_link_index_switch idx).

Definition with_group_index (idx : DataIndex) (g : gmap string (gset string)) : DataIndex :=
  mkDataIndex (entry_index idx) (type_index idx) (component_index idx) g
    (_link_index idx) (_group_index_switch idx) (_link_index_switch idx).

Definition with_link_index (idx : DataIndex)
    (l : gmap string (gmap string (gset string))) : DataIndex :=
  mkDataIndex (entry_index idx) (type_index idx) (component_index idx)
    (_group_index idx) l (_group_index_switch idx) (_link_index_switch idx).

Definition link_index_switch (idx : DataIndex) : bool := _link_index_switch idx.

Definition turn_link_index_switch (on : bool) (idx : DataIndex) : DataIndex :=
  mkDataIndex (entry_index idx) (type_index idx) (component_index idx)
    (_group_index idx) (_link_index idx) (_group_index_switch idx) on.

Definition group_index_switch (idx : DataIndex) : bool := _group_index_switch idx.

Definition turn_group_index_switch (on : bool) (idx : DataIndex) : DataIndex :=
  mkDataIndex (entry_index idx) (type_index idx) (component_index idx)
    (_group_index idx) (_link_index idx) on (_link_index_switch idx).

(** [entry.span.begin], [entry.span.end] of the entry a tid refers to.
    Modelled from the spec: [Link.get_child], [Link.get_parent] and
    [Group.get_members] belong to the missing ontology module; the spec says
    a link's parent and child and a group's members are references "by
    identifier" to entries of the store, so they are resolved through
    [entry_index]. *)
Definition resolve (idx : DataIndex) (t : string) : result Entry :=
  dict_get (entry_index idx) t.

(** The loop of [in_span] over the members of a group. *)
Fixpoint group_extent (mems : list Entry) (inner_begin inner_end : Z)
  : result (Z * Z) :=
  match mems with
  | [] => OK (inner_begin, inner_end)
  | mem :: rest =>
      s ← span_of mem;
      let b := if inner_begin =? -1 then span_begin s else inner_begin in
      group_extent rest (Z.min b (span_begin s)) (Z.max inner_end (span_end s))
  end.

(** [for t in ts: resolve t], stopping at the first failure. *)
Fixpoint resolve_all (idx : DataIndex) (ts : list string) : result (list Entry) :=
  match ts with
  | [] => OK []
  | t :: rest =>
      e ← resolve idx t;
      es ← resolve_all idx rest;
      OK (e :: es)
  end.

(** [DataIndex.in_span]. *)
Definition in_span (idx : DataIndex) (inner_entry : string + Entry) (span : Span)
  : result bool :=
  inner ← match inner_entry with
           | inl t => dict_get (entry_index idx) t
           | inr e => OK e
           end;
  ext ← match body inner with
         | Annotation s => OK (span_begin s, span_end s)
         | Link p c _ _ =>
             child ← resolve idx c;
             parent ← resolve idx p;
             cs ← span_of child;
             ps ← span_of parent;
             OK (Z.min (span_begin cs) (span_begin ps),
                 Z.max (span_end cs) (span_end ps))
         | Group ms =>
             mems ← resolve_all idx ms;
             group_extent mems (-1) (-1)
         | Other => Raise ValueError
         end;
  OK ((span_begin span <=? ext.1) && (ext.2 <=? span_end span)).

(** The operand check of [have_overlap]: a tid is looked up, and the entry
    must be an annotation. *)
Definition overlap_operand (idx : DataIndex) (entry : string + Entry) : result Span :=
  match entry with
  | inl t =>
      e ← dict_get (entry_index idx) t;
      match body e with
      | Annotation s => OK s
      | _ => Raise TypeError
      end
  | inr e =>
      match body e with
      | Annotation s => OK s
      | _ => Raise TypeError
      end
  end.

(** [DataIndex.have_overlap]. *)
Definition have_overlap (idx : DataIndex) (entry1 entry2 : string + Entry)
  : result bool :=
  s1 ← overlap_operand idx entry1;
  s2 ← overlap_operand idx entry2;
  OK (negb ((span_end s2 <=? span_begin s1) || (span_end s1 <=? span_begin s2))).

(** One turn of the loop of [update_basic_index]. *)
Definition basic_index_step (idx : DataIndex) (entry : Entry) : DataIndex :=
  with_basic idx
    (<[tid entry := entry]> (entry_index idx))
    (dd_add (type_index idx) (type_of entry) (tid entry))
    (dd_add (component_index idx) (component entry) (tid entry)).

(** [DataIndex.update_basic_index]. *)
Definition update_basic_index (idx : DataIndex) (entries : list Entry) : DataIndex :=
  fold_left basic_index_step entries idx.

(** [link.child] and [link.parent]: attributes that only links have. *)
Definition link_child (e : Entry) : result string :=
  match body e with
  | Link _ c _ _ => OK c
  | _ => Raise AttributeError
  end.

Definition link_parent (e : Entry) : result string :=
  match body e with
  | Link p _ _ _ => OK p
  | _ => Raise AttributeError
  end.

(** [group.members]. *)
Definition group_members (e : Entry) : result (list string) :=
  match body e with
  | Group ms => OK ms
  | _ => Raise AttributeError
  end.

(** [self._link_index[which][key].add(t)]. *)
Definition link_index_add (which : string) (key : result string) (t : string)
  : exec DataIndex unit :=
  do idx <- exec_get;
  do sub <- exec_lift (dict_get (_link_index idx) which);
  do k <- exec_lift key;
  exec_modify (fun idx => with_link_index idx (<[which := dd_add sub k t]> (_link_index idx))).

(** One turn of the loop of [update_link_index]. *)
Definition link_index_step (link : Entry) : exec DataIndex unit :=
  do_ link_index_add "child_index" (link_child link) (tid link);
  link_index_add "parent_index" (link_parent link) (tid link).

(** [DataIndex.update_link_index]; [pack_links] is [self.data_pack.links]. *)
Definition update_link_index (pack_links : list Entry) (links : list Entry)
  : exec DataIndex unit :=
  do idx <- exec_get;
  if negb (link_index_switch idx) then
    do_ exec_modify (turn_link_index_switch true);
    do_ exec_modify (fun idx =>
          with_link_index idx (<["child_index" := ∅]> (_link_index idx)));
    do_ exec_modify (fun idx =>
          with_link_index idx (<["parent_index" := ∅]> (_link_index idx)));
    exec_for pack_links link_index_step
  else
    exec_for links link_index_step.

(** One turn of the outer loop of [update_group_index]. *)
Definition group_index_step (group : Entry) : exec DataIndex unit :=
  do ms <- exec_lift (group_members group);
  exec_for ms (fun member =>
    exec_modify (fun idx =>
      with_group_index idx (dd_add (_group_index idx) member (tid group)))).

(** [DataIndex.update_group_index]; [pack_groups] is [self.data_pack.groups]. *)
Definition update_group_index (pack_groups : list Entry) (groups : list Entry)
  : exec DataIndex unit :=
  do idx <- exec_get;
  if negb (group_index_switch idx) then
    do_ exec_modify (turn_group_index_switch true);
    do_ exec_modify (fun idx => with_group_index idx ∅);
    exec_for pack_groups group_index_step
  else
    exec_for groups group_index_step.

(** ** DataPack *)

Record DataPack : Type := mkDataPack {
  _text : string;
  annotations : list Entry;
  links : list Entry;
  groups : list Entry;
  index : DataIndex;
  meta : Meta;
  internal_metas : gmap class InternalMeta
}.

(** [DataPack.__init__]. *)
Definition DataPack_init (doc_id : option string) : DataPack :=
  mkDataPack "" [] [] [] DataIndex_init (Meta_init doc_id) ∅.

Definition with_index (p : DataPack) (idx : DataIndex) : DataPack :=
  mkDataPack (_text p) (annotations p) (links p) (groups p) idx (meta p)
    (internal_metas p).

Definition with_internal_metas (p : DataPack) (im : gmap class InternalMeta) : DataPack :=
  mkDataPack (_text p) (annotations p) (links p) (groups p) (index p) (meta p) im.

(** Runs code of the index on the index owned by the pack. *)
Definition on_index {A : Type} (m : exec DataIndex A) : exec DataPack A :=
  fun p => let '(idx, r) := m (index p) in (with_index p idx, r).

(** [DataIndex.link_index], with the pack that owns the index as state. *)
Definition link_index (t : string) (as_parent : bool) : exec DataPack (gset string) :=
  do p <- exec_get;
  do_ exec_when (negb (_link_index_switch (index p)))
        (on_index (update_link_index (links p) (links p)));
  do p <- exec_get;
  if as_parent then
    do sub <- exec_lift (dict_get (_link_index (index p)) "parent_index");
    exec_ret (dd_get sub t)
  else
    do sub <- exec_lift (dict_get (_link_index (index p)) "child_index");
    exec_ret (dd_get sub t).

(** [DataIndex.group_index]. *)
Definition group_index (t : string) : exec DataPack (gset string) :=
  do p <- exec_get;
  do_ exec_when (negb (_group_index_switch (index p)))
        (on_index (update_group_index (groups p) (groups p)));
  do p <- exec_get;
  exec_ret (dd_get (_group_index (index p)) t).

(** The [text] property. *)
Definition text (p : DataPack) : string := _text p.

Definition overwrite_warning : string :=
  "The new text is overwriting the original one, which might cause unexpected behavior.".

(** [DataPack.set_text]: the pack after the call and the warnings logged. *)
Definition set_text (p : DataPack) (new_text : string) : DataPack * list string :=
  let logged :=
    if negb (String.prefix (_text p) new_text) then [overwrite_warning] else [] in
  (mkDataPack new_text (annotations p) (links p) (groups p) (index p) (meta p)
     (internal_metas p), logged).

(** The three containers of a pack.  [annotations] is a [SortedList] of the
    sortedcontainers package, [links] and [groups] are Python lists. *)
Inductive container : Type := CAnnotations | CLinks | CGroups.

Global Instance container_eq_dec : EqDecision container.
Proof. solve_decision. Defined.

(** The [isinstance] dispatch at the head of [add_entry] and
    [add_or_get_entry]. *)
Definition target_of (entry : Entry) : result container :=
  match body entry with
  | Annotation _ => OK CAnnotations
  | Link _ _ _ _ => OK CLinks
  | Group _ => OK CGroups
  | Other => Raise ValueError
  end.

Definition get_target (p : DataPack) (c : container) : list Entry :=
  match c with
  | CAnnotations => annotations p
  | CLinks => links p
  | CGroups => groups p
  end.

(** [SortedList.add]: the value goes after every stored value that is not
    greater than it. *)
Fixpoint sl_add (x : Entry) (l : list Entry) : list Entry :=
  match l with
  | [] => [x]
  | y :: l' => if entry_lt x y then x :: y :: l' else y :: sl_add x l'
  end.

(** [SortedList.bisect] (that is [bisect_right]): the position after every
    stored value that is not greater than [x]. *)
Fixpoint sl_bisect (x : Entry) (l : list Entry) : nat :=
  match l with
  | [] => O
  | y :: l' => if entry_lt x y then O else S (sl_bisect x l')
  end.

(** [bisect_left] on the sorted list: the position of the first stored
    value that is not less than [x]. *)
Fixpoint sl_bisect_left (x : Entry) (l : list Entry) : nat :=
  match l with
  | [] => O
  | y :: l' => if entry_lt y x then S (sl_bisect_left x l') else O
  end.

(** [target.append(entry)] for a list, [target.add(entry)] for the sorted
    list. *)
Definition store (c : container) (entry : Entry) (p : DataPack) : DataPack :=
  match c with
  | CAnnotations =>
      mkDataPack (_text p) (sl_add entry (annotations p)) (links p) (groups p)
        (index p) (meta p) (internal_metas p)
  | CLinks =>
      mkDataPack (_text p) (annotations p) (links p ++ [entry])%list (groups p)
        (index p) (meta p) (internal_metas p)
  | CGroups =>
      mkDataPack (_text p) (annotations p) (links p) (groups p ++ [entry])%list
        (index p) (meta p) (internal_metas p)
  end.

(** [self.internal_metas[name]] on the [defaultdict(InternalMeta)]. *)
Definition meta_of (p : DataPack) (name : class) : InternalMeta :=
  default InternalMeta_init (internal_metas p !! name).

(** [self.internal_metas[name].id_counter += 1]. *)
Definition bump_counter (name : class) (p : DataPack) : DataPack :=
  let m := meta_of p name in
  with_internal_metas p
    (<[name := mkInternalMeta (S (id_counter m)) (fields_created m)
                 (default_component m)]> (internal_metas p)).

(** The insertion block that [add_entry] and [add_or_get_entry] share word
    for word: mint the tid from the counter of the entry's class, store the
    entry, advance the counter, update the indexes.  [entry.attach(self)]
    sets a back-reference to the pack and has no counterpart here. *)
Definition insert_entry (c : container) (entry : Entry) : exec DataPack Entry :=
  do p <- exec_get;
  let name := type_of entry in
  let entry := set_tid entry (py_str (id_counter (meta_of p name))) in
  do_ exec_modify (store c entry);
  do_ exec_modify (bump_counter name);
  do_ exec_modify (fun p => with_index p (update_basic_index (index p) [entry]));
  do p <- exec_get;
  do_ exec_when (link_index_switch (index p) && isinstance entry Link_class)
        (on_index (update_link_index (links p) [entry]));
  do p <- exec_get;
  do_ exec_when (group_index_switch (index p) && isinstance entry Group_class)
        (on_index (update_group_index (groups p) [entry]));
  exec_ret entry.

(** [DataPack.add_entry]. *)
Definition add_entry (entry : Entry) : exec DataPack Entry :=
  do c <- exec_lift (target_of entry);
  insert_entry c entry.

(** [DataPack.record_fields]: the pack after the call, and the caller's
    [fields] list, to which the method appends ["tid"]. *)
Definition record_fields (p : DataPack) (fields : list string) (entry_type : class)
    (comp : string) : DataPack * list string :=
  let m0 := meta_of p entry_type in
  let dc :=
    if bool_decide (internal_metas p !! entry_type = None)
       || bool_decide (default_component m0 = None)
    then Some comp else default_component m0 in
  let fields := (fields ++ ["tid"])%list in
  let fc := fold_left (fun fc field => dd_add fc comp field) fields (fields_created m0) in
  (with_internal_metas p
     (<[entry_type := mkInternalMeta (id_counter m0) fc dc]> (internal_metas p)),
   fields).

(** [DataPack.get_entry_by_id]. *)
Definition get_entry_by_id (p : DataPack) (t : string) : result Entry :=
  match entry_index (index p) !! t with
  | Some entry => OK entry
  | None => Raise KeyError
  end.

(** [DataPack.get_ids_by_compoent]. *)
Definition get_ids_by_compoent (p : DataPack) (comp : string) : gset string :=
  dd_get (component_index (index p)) comp.

(** [DataPack.get_ids_by_type]: the union of the sets of every indexed class
    that is a subclass of [tp]. *)
Definition get_ids_by_type (p : DataPack) (tp : class) : gset string :=
  ⋃ (map (fun kv : class * gset string =>
            if issubclass kv.1 tp then kv.2 else ∅)
       (map_to_list (type_index (index p)))).

Section Equality.

(** The equality of entries ([__eq__]) is defined by the ontology classes
    and may be overridden by users; the pack only calls it. *)
Variable entry_eq : Entry -> Entry -> bool.

(** [entry in target] for a Python list ([links], [groups]) and for a
    Python set: some stored value equals the entry. *)
Definition contains (target : list Entry) (entry : Entry) : bool :=
  existsb (fun x => entry_eq x entry) target.

(** [target.index(entry)] for a Python list: the first position holding an
    equal value. *)
Fixpoint index_of (target : list Entry) (entry : Entry) : result nat :=
  match target with
  | [] => Raise ValueError
  | x :: rest =>
      if entry_eq x entry then OK O
      else i ← index_of rest entry; OK (S i)
  end.

(** [entry in target] for the sorted list: [SortedList.__contains__] goes
    to the position that [bisect_left] gives and compares the value it
    finds there, and no other, with the entry. *)
Definition sl_contains (target : list Entry) (entry : Entry) : bool :=
  match target !! sl_bisect_left entry target with
  | Some y => entry_eq y entry
  | None => false
  end.

(** [target.index(entry)] for the sorted list: [SortedList.index] returns
    the position that [bisect_left] gives when the value there equals the
    entry, and raises [ValueError] otherwise. *)
Definition sl_index (target : list Entry) (entry : Entry) : result nat :=
  match target !! sl_bisect_left entry target with
  | Some y =>
      if entry_eq y entry then OK (sl_bisect_left entry target)
      else Raise ValueError
  | None => Raise ValueError
  end.

(** Membership and position in the container [c]. *)
Definition contains_in (c : container) (target : list Entry) (entry : Entry) : bool :=
  match c with
  | CAnnotations => sl_contains target entry
  | _ => contains target entry
  end.

Definition index_in (c : container) (target : list Entry) (entry : Entry)
  : result nat :=
  match c with
  | CAnnotations => sl_index target entry
  | _ => index_of target entry
  end.

(** [target[i]] for a position [i]. *)
Definition item (target : list Entry) (i : nat) : result Entry :=
  match target !! i with
  | Some x => OK x
  | None => Raise IndexError
  end.

(** [DataPack.add_or_get_entry]. *)
Definition add_or_get_entry (entry : Entry) : exec DataPack Entry :=
  do c <- exec_lift (target_of entry);
  do p <- exec_get;
  let target := get_target p c in
  if negb (contains_in c target entry) then
    insert_entry c entry
  else
    do i <- exec_lift (index_in c target entry);
    exec_lift (item target i).

End Equality.

(** ** The request engine *)

(** The value a request maps a class to: [None], an iterable of field
    names, a dict with the optional items ["component"], ["unit"] and
    ["fields"], or anything else.  The items of the dict are taken to be of
    the documented types (a list of component names, a string). *)
Inductive request_args : Type :=
| ArgNone
| ArgFields (fields : list string)
| ArgDict (comps : option (list string)) (unit : option string)
          (fields : option (list string))
| ArgBad.

(** The three variables that the head of [_parse_request_args] computes,
    before the check: [components], [unit] and [fields]. *)
Definition request_parts (a_args : request_args)
  : result (option (list string) * option string * gset string) :=
  match a_args with
  | ArgNone => OK (None, None, ∅)
  | ArgFields fs => OK (None, None, list_to_set fs)
  | ArgDict comps unit fs => OK (comps, unit, list_to_set (default [] fs))
  | ArgBad => Raise TypeError
  end.

(** [components is None or meta_c in components]. *)
Definition component_selected (comps : option (list string)) (meta_c : string) : bool :=
  match comps with
  | None => true
  | Some cs => bool_decide (meta_c ∈ cs)
  end.

(** The nested loops of [_parse_request_args] that "check the existence of
    fields": [false] when the [KeyError] is raised. *)
Definition fields_exist (p : DataPack) (a_type : class)
    (comps : option (list string)) (fields : gset string) : bool :=
  forallb (fun km : class * InternalMeta =>
    if issubclass km.1 a_type then
      forallb (fun cf : string * gset string =>
        if component_selected comps cf.1 then bool_decide (fields ⊆ cf.2)
        else true)
        (map_to_list (fields_created km.2))
    else true)
    (map_to_list (internal_metas p)).

(** [DataPack._parse_request_args]. *)
Definition _parse_request_args (p : DataPack) (a_type : class) (a_args : request_args)
  : result (option (list string) * option string * gset string) :=
  '(comps, unit, fields) ← request_parts a_args;
  if fields_exist p a_type comps fields
  then OK (comps, unit, {["tid"]} ∪ fields)
  else Raise KeyError.

(** The [components] argument of [get_entries]: one name or a list. *)
Inductive components_arg : Type :=
| CompStr (s : string)
| CompList (l : list string).

(** [Annotation(begin, end)], as [get_entries] builds it for the bisection. *)
Definition Annotation_new (b e : Z) : Entry :=
  mkEntry [] "" "" (Annotation (mkSpan b e)) ∅.

(** The ids of the entries made by one of [components]. *)
Definition ids_of_components (p : DataPack) (comps : list string) : gset string :=
  fold_left (fun acc c => acc ∪ get_ids_by_compoent p c) comps ∅.

(** A generator that walks [l], yields what [keep] accepts, and is ended by
    the first exception of [keep]. *)
Fixpoint gen_filter {A B : Type} (keep : A -> result (option B)) (l : list A) : gen B :=
  match l with
  | [] => ([], None)
  | x :: l' =>
      match keep x with
      | Raise e => ([], Some e)
      | OK None => gen_filter keep l'
      | OK (Some y) => let '(ys, r) := gen_filter keep l' in (y :: ys, r)
      end
  end.

Definition keep_if {A : Type} (b : bool) (x : A) : option A :=
  if b then Some x else None.

(** [range_annotation is None or self.index.in_span(entry, range.span)]. *)
Definition in_range (p : DataPack) (range_annotation : option Entry) (entry : Entry)
  : result bool :=
  match range_annotation with
  | None => OK true
  | Some r => s ← span_of r; in_span (index p) (inr entry) s
  end.

(** [DataPack.get_entries], run to the end of the generator. *)
Definition get_entries (p : DataPack) (entry_type : class)
    (range_annotation : option Entry) (components : option components_arg)
  : gen Entry :=
  let bounds :=
    range_begin ← match range_annotation with
                   | Some r => s ← span_of r; OK (span_begin s)
                   | None => OK 0
                   end;
    range_end ← match range_annotation with
                 | Some r => s ← span_of r; OK (span_end s)
                 | None => l ← list_last (annotations p); s ← span_of l; OK (span_end s)
                 end;
    OK (range_begin, range_end) in
  match bounds with
  | Raise e => ([], Some e)
  | OK (range_begin, range_end) =>
      let valid_id := get_ids_by_type p entry_type in
      let valid_id :=
        match components with
        | None => valid_id
        | Some (CompStr c) => valid_id ∩ ids_of_components p [c]
        | Some (CompList cs) => valid_id ∩ ids_of_components p cs
        end in
      if issubclass entry_type Annotation_class then
        let begin_index := sl_bisect (Annotation_new range_begin (-1)) (annotations p) in
        let end_index := sl_bisect (Annotation_new range_end (-1)) (annotations p) in
        gen_filter (fun annotation : Entry =>
            if negb (bool_decide (tid annotation ∈ valid_id)) then OK None
            else b ← in_range p range_annotation annotation;
                 OK (keep_if b annotation))
          (list_slice (annotations p) begin_index end_index)
      else if issubclass entry_type Link_class || issubclass entry_type Group_class then
        gen_filter (fun entry_id : string =>
            entry ← get_entry_by_id p entry_id;
            b ← in_range p range_annotation entry;
            OK (keep_if b entry))
          (elements valid_id)
      else ([], None)
  end.

(** [DataPack.get]. *)
Definition get (p : DataPack) (entry_type : class) (range_annotation : option Entry)
    (comp : option components_arg) : gen Entry :=
  get_entries p entry_type range_annotation comp.

(** What a record of [get_data] maps a key to: a plain value, or the
    sub-record of a requested class, a dict of arrays; an array is held as
    the list of its elements. *)
Inductive datum : Type :=
| DVal (v : value)
| DSub (a_dict : gmap string (list value)).

(** [a_dict[key].append(v)] on a dict of lists. *)
Definition arr_append (a_dict : gmap string (list value)) (key : string) (v : value)
  : result (gmap string (list value)) :=
  arr ← dict_get a_dict key;
  OK (<[key := (arr ++ [v])%list]> a_dict).

(** A fold whose body can raise. *)
Fixpoint rfold {A B : Type} (f : B -> A -> result B) (l : list A) (b : B) : result B :=
  match l with
  | [] => OK b
  | x :: l' => b' ← f b x; rfold f l' b'
  end.

(** A [for] loop over a generator: the body runs on every value yielded,
    then the exception that ended the generator propagates. *)
Definition rfold_gen {A B : Type} (f : B -> A -> result B) (g : gen A) (b : B) : result B :=
  b' ← rfold f g.1 b;
  match g.2 with
  | Some e => Raise e
  | None => OK b'
  end.

(** Modelled from the spec: the [text] property of an annotation belongs to
    the missing ontology module; the spec calls it the "substring" of the
    pack's text that the span covers. *)
Definition annotation_text (p : DataPack) (s : Span) : string :=
  str_slice (text p) (span_begin s) (span_end s).

(** [data[unit]["tid"]]. *)
Definition unit_tids (data : gmap string datum) (unit : string) : result (list value) :=
  d ← dict_get data unit;
  match d with
  | DSub sub => dict_get sub "tid"
  | DVal _ => Raise TypeError
  end.

(** [self.index.in_span(v, span)] for an element [v] of an array of tids. *)
Definition in_span_value (p : DataPack) (v : value) (span : Span) : result bool :=
  match v with
  | VStr t => in_span (index p) (inl t) span
  | _ => Raise ValueError
  end.

(** [while not in_span(tids[unit_begin], span): unit_begin += 1], with
    [tids] the array from position [unit_begin] on; running off the array
    is the [IndexError] of the subscript. *)
Fixpoint skip_outside (p : DataPack) (span : Span) (tids : list value) (unit_begin : nat)
  : result nat :=
  match tids with
  | [] => Raise IndexError
  | v :: rest =>
      b ← in_span_value p v span;
      if (b : bool) then OK unit_begin else skip_outside p span rest (S unit_begin)
  end.

(** [while in_span(tids[unit_span_end], span): unit_span_end += 1]. *)
Fixpoint skip_inside (p : DataPack) (span : Span) (tids : list value) (unit_span_end : nat)
  : result nat :=
  match tids with
  | [] => Raise IndexError
  | v :: rest =>
      b ← in_span_value p v span;
      if (b : bool) then skip_inside p span rest (S unit_span_end) else OK unit_span_end
  end.

(** The body of the inner loop of [_generate_annotation_entry_data] over
    the requested fields. *)
Definition annotation_field_step (txt : string) (annotation : Entry) (s : Span)
    (sent_begin : Z) (a_dict : gmap string (list value)) (field : string)
  : result (gmap string (list value)) :=
  if bool_decide (field = "span") || bool_decide (field = "text") then OK a_dict
  else if bool_decide (field = "context_span") then
    arr_append a_dict field (VPair (span_begin s - sent_begin) (span_end s - sent_begin))
  else
    v ← getattr txt annotation field;
    arr_append a_dict field v.

(** The body of the loop of [_generate_annotation_entry_data] over the
    annotations; the state is [a_dict] and the cursor [unit_begin]. *)
Definition annotation_step (p : DataPack) (data : gmap string datum)
    (unit : option string) (fields : gset string) (sent_begin : Z)
    (st : gmap string (list value) * nat) (annotation : Entry)
  : result (gmap string (list value) * nat) :=
  let '(a_dict, unit_begin) := st in
  s ← span_of annotation;
  a_dict ← arr_append a_dict "span" (VPair (span_begin s) (span_end s));
  a_dict ← arr_append a_dict "text" (VStr (annotation_text p s));
  a_dict ← rfold (annotation_field_step (text p) annotation s sent_begin)
             (elements fields) a_dict;
  match unit with
  | None => OK (a_dict, unit_begin)
  | Some u =>
      tids ← unit_tids data u;
      unit_begin ← skip_outside p s (drop unit_begin tids) unit_begin;
      let unit_span_begin := unit_begin in
      let unit_span_end := S unit_span_begin in
      unit_span_end ← skip_inside p s (drop unit_span_end tids) unit_span_end;
      a_dict ← arr_append a_dict "unit_span"
                 (VPair (Z.of_nat unit_span_begin) (Z.of_nat unit_span_end));
      OK (a_dict, unit_begin)
  end.

(** [for field in fields: a_dict[field] = []]. *)
Definition empty_arrays (fields : gset string) (a_dict : gmap string (list value))
  : gmap string (list value) :=
  fold_left (fun d field => <[field := []]> d) (elements fields) a_dict.

(** [DataPack._generate_annotation_entry_data], up to the conversion of
    the lists into arrays: the lists that the method has built when its loop
    over the annotations ends. *)
Definition annotation_columns (p : DataPack) (a_type : class)
    (a_args : request_args) (data : gmap string datum) (sent : option Entry)
  : result (gmap string (list value)) :=
  '(components, unit, fields) ← _parse_request_args p a_type a_args;
  let a_dict := empty_arrays fields (<["text" := []]> (<["span" := []]> ∅)) in
  a_dict ← match unit with
            | None => OK a_dict
            | Some u =>
                if bool_decide (u ∈ dom data) then OK (<["unit_span" := []]> a_dict)
                else Raise KeyError
            end;
  sent_begin ← match sent with
                | Some s => sp ← span_of s; OK (span_begin sp)
                | None => OK 0
                end;
  let annotations := get_entries p a_type sent (CompList <$> components) in
  st ← rfold_gen (annotation_step p data unit fields sent_begin) annotations (a_dict, O);
  OK st.1.

(** [link.parent_type] and [link.child_type]. *)
Definition link_parent_type (e : Entry) : result class :=
  match body e with
  | Link _ _ pt _ => OK pt
  | _ => Raise AttributeError
  end.

Definition link_child_type (e : Entry) : result class :=
  match body e with
  | Link _ _ _ ct => OK ct
  | _ => Raise AttributeError
  end.

(** [np.where(tids == t)[0][0]]: the first position of [t] in the array. *)
Fixpoint first_position (tids : list value) (t : string) (i : nat) : result nat :=
  match tids with
  | [] => Raise IndexError
  | v :: rest =>
      match v with
      | VStr t' => if bool_decide (t' = t) then OK i else first_position rest t (S i)
      | _ => first_position rest t (S i)
      end
  end.

(** The body of the loop of [_generate_link_entry_data] over the fields. *)
Definition link_field_step (txt : string) (link : Entry)
    (a_dict : gmap string (list value)) (field : string)
  : result (gmap string (list value)) :=
  if bool_decide (field = "parent") || bool_decide (field = "child") then OK a_dict
  else
    v ← getattr txt link field;
    arr_append a_dict field v.

(** The body of the loop of [_generate_link_entry_data] over the links. *)
Definition link_step (txt : string) (data : gmap string datum) (fields : gset string)
    (a_dict : gmap string (list value)) (link : Entry)
  : result (gmap string (list value)) :=
  pt ← link_parent_type link;
  ct ← link_child_type link;
  let parent_type := class_name pt in
  let child_type := class_name ct in
  if negb (bool_decide (parent_type ∈ dom data)) then Raise KeyError
  else if negb (bool_decide (child_type ∈ dom data)) then Raise KeyError
  else
    ptids ← unit_tids data parent_type;
    lp ← link_parent link;
    i ← first_position ptids lp O;
    a_dict ← arr_append a_dict "parent" (VInt (Z.of_nat i));
    ctids ← unit_tids data child_type;
    lc ← link_child link;
    j ← first_position ctids lc O;
    a_dict ← arr_append a_dict "child" (VInt (Z.of_nat j));
    rfold (link_field_step txt link) (elements fields) a_dict.

(** [DataPack._generate_link_entry_data], up to the conversion of the
    lists into arrays. *)
Definition link_columns (p : DataPack) (a_type : class)
    (a_args : request_args) (data : gmap string datum) (sent : option Entry)
  : result (gmap string (list value)) :=
  '(components, unit, fields) ← _parse_request_args p a_type a_args;
  match unit with
  | Some _ => Raise ValueError
  | None =>
      let a_dict := <["child" := []]> (<["parent" := []]> (empty_arrays fields ∅)) in
      let links := get p a_type sent (CompList <$> components) in
      rfold_gen (link_step (text p) data fields) links a_dict
  end.

Section Arrays.

(** [for key, value in a_dict.items(): a_dict[key] = np.array(value)], the
    loop that ends [_generate_annotation_entry_data] and
    [_generate_link_entry_data].  numpy is no part of the sources, and what
    [np.array] makes of a list (a common element type for the column, a
    second axis for a list of pairs, an error for a list it cannot shape)
    is not modelled: the conversion of the record is a parameter.  An array
    is held as the list of its elements along the first axis. *)
Variable np_arrays : gmap string (list value) -> result (gmap string (list value)).

(** [DataPack._generate_annotation_entry_data]. *)
Definition _generate_annotation_entry_data (p : DataPack) (a_type : class)
    (a_args : request_args) (data : gmap string datum) (sent : option Entry)
  : result (gmap string (list value)) :=
  a_dict ← annotation_columns p a_type a_args data sent;
  np_arrays a_dict.

(** [DataPack._generate_link_entry_data]. *)
Definition _generate_link_entry_data (p : DataPack) (a_type : class)
    (a_args : request_args) (data : gmap string datum) (sent : option Entry)
  : result (gmap string (list value)) :=
  a_dict ← link_columns p a_type a_args data sent;
  np_arrays a_dict.

(** [str.lower], on ASCII letters. *)
Definition ascii_lower (c : ascii) : ascii :=
  let n := nat_of_ascii c in
  if ((65 <=? n) && (n <=? 90))%nat then ascii_of_nat (n + 32) else c.

Fixpoint str_lower (s : string) : string :=
  match s with
  | EmptyString => EmptyString
  | String c s' => String (ascii_lower c) (str_lower s')
  end.

(** The [requests] dict, as the list of its items in insertion order; a
    dict has one item per class. *)
Definition requests_t : Type := list (class * request_args).

(** The three dicts that the head of [get_data] fills from [requests]. *)
Definition annotation_types (requests : option requests_t) : requests_t :=
  List.filter (fun kv => issubclass kv.1 Annotation_class) (default [] requests).

Definition link_types (requests : option requests_t) : requests_t :=
  List.filter (fun kv => negb (issubclass kv.1 Annotation_class)
                         && issubclass kv.1 Link_class) (default [] requests).

Definition group_types (requests : option requests_t) : requests_t :=
  List.filter (fun kv => negb (issubclass kv.1 Annotation_class)
                         && negb (issubclass kv.1 Link_class)
                         && issubclass kv.1 Group_class) (default [] requests).

(** One turn of a loop over [annotation_types.items()]: the sub-record of
    [a_type] is stored under the class name, which must be a new key. *)
Definition add_annotation_data (p : DataPack) (sent : option Entry)
    (data : gmap string datum) (req : class * request_args)
  : result (gmap string datum) :=
  let '(a_type, a_args) := req in
  if bool_decide (class_name a_type ∈ dom data) then Raise KeyError
  else
    sub ← _generate_annotation_entry_data p a_type a_args data sent;
    OK (<[class_name a_type := DSub sub]> data).

(** One turn of a loop over [link_types.items()]. *)
Definition add_link_data (p : DataPack) (sent : option Entry)
    (data : gmap string datum) (req : class * request_args)
  : result (gmap string datum) :=
  let '(l_type, l_args) := req in
  if bool_decide (class_name l_type ∈ dom data) then Raise KeyError
  else
    sub ← _generate_link_entry_data p l_type l_args data sent;
    OK (<[class_name l_type := DSub sub]> data).

(** The record of the ["document"] context. *)
Definition document_record (p : DataPack) (requests : option requests_t)
  : result (gmap string datum) :=
  let data := <["offset" := DVal (VInt 0)]> (<["context" := DVal (VStr (text p))]> ∅) in
  data ← rfold (add_annotation_data p None) (annotation_types requests) data;
  rfold (add_link_data p None) (link_types requests) data.

(** The loop of the ["sentence"] context that picks the sentence request. *)
Definition pick_sentence_step (st : bool * class * request_args)
    (req : class * request_args) : result (bool * class * request_args) :=
  let '(has_sentence_args, sent_type, sent_args) := st in
  let '(a_type, a_args) := req in
  if issubclass a_type Sentence then
    if (has_sentence_args : bool) then Raise KeyError
    else OK (true, a_type, a_args)
  else OK st.

(** [for field in sent_fields: data[field] = getattr(sent, field)]. *)
Definition sentence_field_step (txt : string) (sent : Entry)
    (data : gmap string datum) (field : string) : result (gmap string datum) :=
  v ← getattr txt sent field;
  OK (<[field := DVal v]> data).

(** The record built for one sentence, from [data = dict()] to [yield]. *)
Definition sentence_record (p : DataPack) (requests : option requests_t)
    (sent_fields : gset string) (sent : Entry) : result (gmap string datum) :=
  s ← span_of sent;
  let data := <["offset" := DVal (VInt (span_begin s))]>
                (<["context" := DVal (VStr (str_slice (text p) (span_begin s) (span_end s)))]> ∅) in
  data ← rfold (sentence_field_step (text p) sent) (elements sent_fields) data;
  data ← rfold (add_annotation_data p (Some sent))
           (List.filter (fun kv => negb (issubclass kv.1 Sentence))
              (annotation_types requests)) data;
  rfold (add_link_data p (Some sent)) (link_types requests) data.

(** The test at the head of the loop over the sentences: [false] when the
    loop goes on to the next annotation. *)
Definition sentence_matches (valid_sent_ids : gset string) (sent_type : class)
    (sent : Entry) : bool :=
  negb (negb (bool_decide (tid sent ∈ valid_sent_ids))
        || negb (isinstance sent sent_type)).

(** The loop of the ["sentence"] context over [list(self.annotations)]. *)
Fixpoint sentence_loop (p : DataPack) (requests : option requests_t)
    (valid_sent_ids : gset string) (sent_type : class) (sent_fields : gset string)
    (offset : Z) (sents : list Entry) (skipped : Z) : gen (gmap string datum) :=
  match sents with
  | [] => ([], None)
  | sent :: rest =>
      if negb (sentence_matches valid_sent_ids sent_type sent) then
        sentence_loop p requests valid_sent_ids sent_type sent_fields offset rest skipped
      else if skipped <? offset then
        sentence_loop p requests valid_sent_ids sent_type sent_fields offset rest
          (skipped + 1)
      else
        match sentence_record p requests sent_fields sent with
        | Raise e => ([], Some e)
        | OK data =>
            let '(ds, r) :=
              sentence_loop p requests valid_sent_ids sent_type sent_fields offset
                rest skipped in
            (data :: ds, r)
        end
  end.

(** [valid_sent_ids] of the ["sentence"] context: the ids of the sentences,
    cut down to the ids of the given components when [sent_components] is
    neither [None] nor empty. *)
Definition valid_sentence_ids (p : DataPack) (sent_components : option (list string))
  : gset string :=
  let valid_sent_ids := get_ids_by_type p Sentence in
  match sent_components with
  | None | Some [] => valid_sent_ids
  | Some cs => valid_sent_ids ∩ ids_of_components p cs
  end.

(** [DataPack.get_data], run to the end of the generator. *)
Definition get_data (p : DataPack) (context_type : string)
    (requests : option requests_t) (offset : Z) : gen (gmap string datum) :=
  if bool_decide (str_lower context_type = "document") then
    match document_record p requests with
    | OK data => ([data], None)
    | Raise e => ([], Some e)
    end
  else if bool_decide (str_lower context_type = "sentence") then
    let setup :=
      '(_, sent_type, sent_args) ←
         rfold pick_sentence_step (annotation_types requests) (false, Sentence, ArgNone);
      '(sent_components, _, sent_fields) ← _parse_request_args p sent_type sent_args;
      OK (sent_type, sent_components, sent_fields) in
    match setup with
    | Raise e => ([], Some e)
    | OK (sent_type, sent_components, sent_fields) =>
        sentence_loop p requests (valid_sentence_ids p sent_components) sent_type
          sent_fields offset (annotations p) 0
    end
  else ([], None).

End Arrays.

(** A conversion that keeps the lists as they are, for the examples. *)
Definition arrays_as_lists (a_dict : gmap string (list value))
  : result (gmap string (list value)) := OK a_dict.

(** ** Sequences of calls *)

(** The two ways of inserting an entry. *)
Inductive insert_op : Type :=
| AddEntry (entry : Entry)
| AddOrGetEntry (entry : Entry).

Definition run_insert (entry_eq : Entry -> Entry -> bool) (op : insert_op)
  : exec DataPack Entry :=
  match op with
  | AddEntry entry => add_entry entry
  | AddOrGetEntry entry => add_or_get_entry entry_eq entry
  end.

(** The pack after a sequence of inserts.  A call that raises leaves the
    pack as it is at that point, and the caller goes on. *)
Fixpoint run_inserts (entry_eq : Entry -> Entry -> bool) (ops : list insert_op)
    (p : DataPack) : DataPack :=
  match ops with
  | [] => p
  | op :: rest => run_inserts entry_eq rest (run_insert entry_eq op p).1
  end.

(** A sequence of [add_entry] calls: the pack at the end and the outcome of
    every call. *)
Fixpoint add_entries (entries : list Entry) (p : DataPack)
  : DataPack * list (result Entry) :=
  match entries with
  | [] => (p, [])
  | entry :: rest =>
      let '(p1, r) := add_entry entry p in
      let '(p2, rs) := add_entries rest p1 in
      (p2, r :: rs)
  end.

(** ** Predicates used in the statements *)

(** The order of the spans of two entries of the sorted container. *)
Definition entry_le (a b : Entry) : Prop := span_le (key_span a) (key_span b).

Definition is_annotation (e : Entry) : Prop := variant_of e = VAnnotation.

Definition is_link (e : Entry) : Prop := variant_of e = VLink.

(** The part of a pack that the index does not hold. *)
Definition same_store (p q : DataPack) : Prop :=
  _text p = _text q /\ annotations p = annotations q /\ links p = links q
  /\ groups p = groups q /\ meta p = meta q /\ internal_metas p = internal_metas q.

(** The entry that [insert_entry] stores for [entry]: the entry with the
    tid minted from the counter of its class. *)
Definition minted (p : DataPack) (entry : Entry) : Entry :=
  set_tid entry (py_str (id_counter (meta_of p (type_of entry)))).

(** The pack between the update of the basic indexes and the updates of
    the relation indexes. *)
Definition stored_pack (c : container) (entry : Entry) (p : DataPack) : DataPack :=
  let q := bump_counter (type_of (minted p entry)) (store c (minted p entry) p) in
  with_index q (update_basic_index (index q) [minted p entry]).

(** The updates of the relation indexes that end the insertion block. *)
Definition relation_updates (entry : Entry) : exec DataPack Entry :=
  do p <- exec_get;
  do_ exec_when (link_index_switch (index p) && isinstance entry Link_class)
        (on_index (update_link_index (links p) [entry]));
  do p <- exec_get;
  do_ exec_when (group_index_switch (index p) && isinstance entry Group_class)
        (on_index (update_group_index (groups p) [entry]));
  exec_ret entry.

(** The link index is usable: when its switch is on, both sub-indexes have
    been created.  A new pack is in this state and the methods of the pack
    keep it; only a direct call of [turn_link_index_switch] can leave it. *)
Definition link_index_ready (idx : DataIndex) : Prop :=
  _link_index_switch idx = true ->
  is_Some (_link_index idx !! "child_index")
  /\ is_Some (_link_index idx !! "parent_index").

(** The three indexes that are always on. *)
Definition same_basic (idx idx' : DataIndex) : Prop :=
  entry_index idx = entry_index idx'
  /\ type_index idx = type_index idx'
  /\ component_index idx = component_index idx'.

(** Code of the index that leaves a part of the index alone, the part
    being given by the relation [R] between the state after and before. *)
Definition keeps (R : DataIndex -> DataIndex -> Prop) {A : Type}
    (m : exec DataIndex A) : Prop :=
  forall idx, R (m idx).1 idx.

(** What one link adds to the child index and to the parent index. *)
Definition child_step (m : gmap string (gset string)) (link : Entry)
  : gmap string (gset string) :=
  match body link with
  | Link _ c _ _ => dd_add m c (tid link)
  | _ => m
  end.

Definition parent_step (m : gmap string (gset string)) (link : Entry)
  : gmap string (gset string) :=
  match body link with
  | Link p _ _ _ => dd_add m p (tid link)
  | _ => m
  end.

(** [_link_index] with its two sub-indexes set. *)
Definition set_maps (li : gmap string (gmap string (gset string)))
    (C P : gmap string (gset string)) : gmap string (gmap string (gset string)) :=
  <["parent_index" := P]> (<["child_index" := C]> li).

(** The link index is built and holds the sub-indexes [C] and [P]. *)
Definition link_index_holds (idx : DataIndex) (C P : gmap string (gset string)) : Prop :=
  _link_index_switch idx = true
  /\ _link_index idx !! "child_index" = Some C
  /\ _link_index idx !! "parent_index" = Some P.

(** The part of the index that the link lookups read. *)
Definition same_link (idx idx' : DataIndex) : Prop :=
  _link_index idx = _link_index idx'
  /\ _link_index_switch idx = _link_index_switch idx'.

(** ** Sample entries and packs *)

Definition token_0_5 : Entry :=
  mkEntry ["Token"] "" "tokenizer" (Annotation (mkSpan 0 5)) ∅.

Definition token_6_11 : Entry :=
  mkEntry ["Token"] "" "tokenizer" (Annotation (mkSpan 6 11)) ∅.

Definition sentence_0_12 : Entry :=
  mkEntry ["Sentence"] "" "splitter" (Annotation (mkSpan 0 12)) ∅.

Definition sentence_13_21 : Entry :=
  mkEntry ["Sentence"] "" "splitter" (Annotation (mkSpan 13 21)) ∅.

(** ** The provenance conditions of a request *)

(** The condition in the words of the spec: the field was recorded by at
    least one component that the filter selects, for the requested class or
    a subclass of it. *)
Definition recorded_by_some (p : DataPack) (a_type : class)
    (comps : option (list string)) (field : string) : Prop :=
  exists k m c F,
    internal_metas p !! k = Some m
    /\ issubclass k a_type = true
    /\ fields_created m !! c = Some F
    /\ component_selected comps c = true
    /\ field ∈ F.

(** The condition that the code checks: every component that the filter
    selects and that has recorded fields for the requested class or a
    subclass of it has recorded all the requested fields. *)
Definition recorded_by_all (p : DataPack) (a_type : class)
    (comps : option (list string)) (fields : gset string) : Prop :=
  forall k m c F,
    internal_metas p !! k = Some m ->
    issubclass k a_type = true ->
    fields_created m !! c = Some F ->
    component_selected comps c = true ->
    fields ⊆ F.

Definition Token : class := (VAnnotation, ["Token"]).

(** A pack in which the tagger has recorded [pos_tag] for tokens and the
    tokenizer has recorded no field of its own for them. *)
Definition pack_two_components : DataPack :=
  (record_fields (record_fields (DataPack_init None) ["pos_tag"] Token "tagger").1
     [] Token "tokenizer").1.

Definition CoreferenceGroup : class := (VGroup, ["CoreferenceGroup"]).

(** A sample equality of entries: same class and same content (span,
    parent and child, members), whatever the tid. *)
Definition same_content (a b : Entry) : bool :=
  bool_decide (type_of a = type_of b)
  && match body a, body b with
     | Annotation s, Annotation s' =>
         (span_begin s =? span_begin s') && (span_end s =? span_end s')
     | Link pa ca _ _, Link pb cb _ _ => bool_decide (pa = pb) && bool_decide (ca = cb)
     | Group ms, Group ms' => bool_decide (ms = ms')
     | _, _ => false
     end.


(** ** Lazy and eager link index *)

(** Building the link index eagerly: a call of
    [pack.index.update_link_index(pack.links)]. *)
Definition eager_build (p : DataPack) : DataPack :=
  (on_index (update_link_index (links p) (links p)) p).1.

(** A pack whose link index has not been built ([p]) next to the same pack
    with the index built and kept up to date ([q]). *)
Definition lazy_eager (p q : DataPack) : Prop :=
  same_store p q
  /\ _link_index_switch (index p) = false
  /\ link_index_holds (index q)
       (fold_left child_step (links q) ∅) (fold_left parent_step (links q) ∅)
  /\ Forall is_link (links p).

(** [link.parent] or [link.child], as the lookup asks. *)
Definition link_end (as_parent : bool) (link : Entry) : result string :=
  if as_parent then link_parent link else link_child link.

Definition dependency_0_1 : Entry :=
  mkEntry ["Dependency"] "" "parser" (Link "0" "1" Token Token) ∅.

(** ** Sentence context: the statement side *)

(** Every entry that the pack stores. *)
Definition stored (p : DataPack) : list Entry :=
  (annotations p ++ links p ++ groups p)%list.

(** The state that the methods of the pack keep: the type index and the
    component index list the tids of the stored entries, by class and by
    component, and the annotation container holds annotations in span
    order. *)
Definition pack_consistent (p : DataPack) : Prop :=
  (forall t k, t ∈ dd_get (type_index (index p)) k
               <-> exists e, In e (stored p) /\ tid e = t /\ type_of e = k)
  /\ (forall t c, t ∈ dd_get (component_index (index p)) c
                  <-> exists e, In e (stored p) /\ tid e = t /\ component e = c)
  /\ Forall is_annotation (annotations p)
  /\ StronglySorted entry_le (annotations p).

(** No two stored entries have the same tid. *)
Definition unique_tids (p : DataPack) : Prop := NoDup (map tid (stored p)).




(** A pack with a text, two sentences and a token. *)
Definition pack_two_sentences : DataPack :=
  run_inserts same_content
    [AddEntry sentence_0_12; AddEntry token_0_5; AddOrGetEntry sentence_13_21]
    (set_text (DataPack_init None) "Hello world. Bye now.").1.









(** ** Statement side of the span algebra *)

(** The containment test of [in_span] on one span. *)
Definition span_within (s span : Span) : bool :=
  (span_begin span <=? span_begin s) && (span_end s <=? span_end span).

(** The overlap test of [have_overlap] on two spans. *)
Definition spans_overlap (s1 s2 : Span) : bool :=
  negb ((span_end s2 <=? span_begin s1) || (span_end s1 <=? span_begin s2)).

(** An annotation whose offsets are not negative. *)
Definition nonneg_annotation (e : Entry) : Prop :=
  exists s, body e = Annotation s /\ 0 <= span_begin s /\ 0 <= span_end s.

Definition token_tid (t : string) (b e : Z) : Entry :=
  mkEntry ["Token"] t "tokenizer" (Annotation (mkSpan b e)) ∅.

(** An index that knows two tokens, ["0"] over [0,5) and ["1"] over [6,11). *)
Definition index_two_tokens : DataIndex :=
  update_basic_index DataIndex_init [token_tid "0" 0 5; token_tid "1" 6 11].

(** A link from the token ["0"] to the token ["1"], and a group of both. *)
Definition link_0_1 : Entry :=
  mkEntry ["Dependency"] "0" "parser" (Link "0" "1" Token Token) ∅.

Definition group_0_1 : Entry :=
  mkEntry ["CoreferenceGroup"] "0" "coref" (Group ["0"; "1"]) ∅.

(** ** Statement side of [get_entries] *)

(** The set [valid_id] that [get_entries] computes before it walks the
    entries: the ids of the type, cut down to the ids of the components. *)
Definition valid_ids (p : DataPack) (entry_type : class)
    (components : option components_arg) : gset string :=
  match components with
  | None => get_ids_by_type p entry_type
  | Some (CompStr c) => get_ids_by_type p entry_type ∩ ids_of_components p [c]
  | Some (CompList cs) => get_ids_by_type p entry_type ∩ ids_of_components p cs
  end.

(** A pack with a text, two tokens and a token of no width at the end of
    the first one. *)
Definition pack_tokens : DataPack :=
  run_inserts same_content
    [AddEntry token_0_5; AddEntry token_6_11;
     AddEntry (mkEntry ["Token"] "" "tokenizer" (Annotation (mkSpan 5 5)) ∅)]
    (set_text (DataPack_init None) "Hello world").1.

Definition token_5_5 : Entry :=
  mkEntry ["Token"] "" "tokenizer" (Annotation (mkSpan 5 5)) ∅.

(** A pack whose last annotation has no width. *)
Definition pack_ends_empty : DataPack :=
  run_inserts same_content [AddEntry token_0_5; AddEntry token_5_5]
    (set_text (DataPack_init None) "Hello").1.

(** ** The remaining methods of the pack *)

(** The argument of the three relation getters: a tid, or an entry, of
    which the getter reads the [tid] attribute only ([None] for an entry
    that was never added to a pack). *)
Inductive entry_ref : Type :=
| RefTid (t : string)
| RefEntry (t : option string).

Definition ref_tid (r : entry_ref) : result string :=
  match r with
  | RefTid t => OK t
  | RefEntry (Some t) => OK t
  | RefEntry None => Raise ValueError
  end.

Section SetsOfEntries.

(** The getters below build a Python [set] of entries.  A set takes a
    value for present when it holds a value with the same [__hash__] that
    is [__eq__] to it; both methods belong to the ontology classes. *)
Variable entry_eq : Entry -> Entry -> bool.
Variable entry_hash : Entry -> Z.

(** [entry in entries] on a set. *)
Definition set_has (entries : list Entry) (entry : Entry) : bool :=
  existsb (fun x => (entry_hash x =? entry_hash entry) && entry_eq x entry) entries.

(** [entries.add(entry)]: the values of the set, in the order in which
    they were added. *)
Definition set_add (entries : list Entry) (entry : Entry) : list Entry :=
  if set_has entries entry then entries else (entries ++ [entry])%list.

(** [DataPack.get_entries_by_compoent]. *)
Definition get_entries_by_compoent (p : DataPack) (comp : string) : result (list Entry) :=
  rfold (fun acc t => entry ← get_entry_by_id p t; OK (set_add acc entry))
    (elements (get_ids_by_compoent p comp)) [].

(** The loop shared by [get_entries_by_type], [get_links_by_parent],
    [get_links_by_child] and [get_groups_by_member]: look every tid up and
    put the entry into the set when it is an instance of [tp]. *)
Definition collect_instances (p : DataPack) (tp : class) (tids : list string)
  : result (list Entry) :=
  rfold (fun acc t =>
           entry ← get_entry_by_id p t;
           OK (if isinstance entry tp then set_add acc entry else acc))
    tids [].

(** [DataPack.get_entries_by_type]. *)
Definition get_entries_by_type (p : DataPack) (tp : class) : result (list Entry) :=
  collect_instances p tp (elements (get_ids_by_type p tp)).

(** [DataPack.get_links_by_parent]. *)
Definition get_links_by_parent (parent : entry_ref) : exec DataPack (list Entry) :=
  do t <- exec_lift (ref_tid parent);
  do s <- link_index t true;
  do p <- exec_get;
  exec_lift (collect_instances p Link_class (elements s)).

(** [DataPack.get_links_by_child]. *)
Definition get_links_by_child (child : entry_ref) : exec DataPack (list Entry) :=
  do t <- exec_lift (ref_tid child);
  do s <- link_index t false;
  do p <- exec_get;
  exec_lift (collect_instances p Link_class (elements s)).

(** [DataPack.get_groups_by_member]. *)
Definition get_groups_by_member (member : entry_ref) : exec DataPack (list Entry) :=
  do t <- exec_lift (ref_tid member);
  do s <- group_index t;
  do p <- exec_get;
  exec_lift (collect_instances p Group_class (elements s)).

End SetsOfEntries.

(** ** Serialization *)

(** The state that [__getstate__] returns: the attributes of the pack
    without the index, the annotations as a plain list. *)
Record PackState : Type := mkPackState {
  state_text : string;
  state_annotations : list Entry;
  state_links : list Entry;
  state_groups : list Entry;
  state_meta : Meta;
  state_internal_metas : gmap class InternalMeta
}.

(** [DataPack.__getstate__]. *)
Definition getstate (p : DataPack) : PackState :=
  mkPackState (_text p) (annotations p) (links p) (groups p) (meta p)
    (internal_metas p).

(** [SortedList(iterable)]: the values, sorted; values that compare equal
    keep their order. *)
Definition SortedList_new (l : list Entry) : list Entry :=
  fold_left (fun acc x => sl_add x acc) l [].

(** [DataPack.__setstate__]. *)
Definition setstate (st : PackState) : DataPack :=
  let annotations := SortedList_new (state_annotations st) in
  let idx := update_basic_index DataIndex_init annotations in
  let idx := update_basic_index idx (state_links st) in
  let idx := update_basic_index idx (state_groups st) in
  mkDataPack (state_text st) annotations (state_links st) (state_groups st) idx
    (state_meta st) (state_internal_metas st).

(** ** Sequences of calls on a pack *)

Inductive call : Type :=
| CallInsert (op : insert_op)
| CallSetText (new_text : string)
| CallRecordFields (fields : list string) (entry_type : class) (comp : string)
| CallLinkIndex (t : string) (as_parent : bool)
| CallGroupIndex (t : string)
| CallPickle.

(** The pack after one call; [CallPickle] saves the pack and loads it
    again. *)
Definition run_call (entry_eq : Entry -> Entry -> bool) (c : call) (p : DataPack)
  : DataPack :=
  match c with
  | CallInsert op => (run_insert entry_eq op p).1
  | CallSetText new_text => (set_text p new_text).1
  | CallRecordFields fields entry_type comp =>
      (record_fields p fields entry_type comp).1
  | CallLinkIndex t as_parent => (link_index t as_parent p).1
  | CallGroupIndex t => (group_index t p).1
  | CallPickle => setstate (getstate p)
  end.

Fixpoint run_calls (entry_eq : Entry -> Entry -> bool) (calls : list call)
    (p : DataPack) : DataPack :=
  match calls with
  | [] => p
  | c :: rest => run_calls entry_eq rest (run_call entry_eq c p)
  end.

(** ** Invariants of a pack *)

Definition is_group (e : Entry) : Prop := variant_of e = VGroup.

(** What one group adds to the group index. *)
Definition group_step (G : gmap string (gset string)) (group : Entry)
  : gmap string (gset string) :=
  match body group with
  | Group ms => fold_left (fun G member => dd_add G member (tid group)) ms G
  | _ => G
  end.

Definition same_group (idx idx' : DataIndex) : Prop :=
  _group_index idx = _group_index idx'
  /\ _group_index_switch idx = _group_index_switch idx'.

(** The identifier index holds stored entries under their tids, and has an
    entry for the tid of every stored entry. *)
Definition entry_index_consistent (p : DataPack) : Prop :=
  (forall t e, entry_index (index p) !! t = Some e -> In e (stored p) /\ tid e = t)
  /\ (forall e, In e (stored p) -> is_Some (entry_index (index p) !! tid e)).

(** The relation indexes, when they are built, index the links and the
    groups of the containers; the containers hold links and groups. *)
Definition relations_in_sync (p : DataPack) : Prop :=
  Forall is_link (links p)
  /\ Forall is_group (groups p)
  /\ (_link_index_switch (index p) = true ->
      link_index_holds (index p)
        (fold_left child_step (links p) ∅) (fold_left parent_step (links p) ∅))
  /\ (_group_index_switch (index p) = true ->
      _group_index (index p) = fold_left group_step (groups p) ∅).

(** The tids of the stored entries of one class. *)
Definition class_tids (p : DataPack) (k : class) : list string :=
  map tid (List.filter (fun e => bool_decide (type_of e = k)) (stored p)).

(** The tids of a class are the strings of the numbers below the counter
    of the class, each carried by one entry. *)
Definition tids_numbered (p : DataPack) : Prop :=
  forall k, class_tids p k ≡ₚ map py_str (seq 0 (id_counter (meta_of p k))).

Definition pack_invariant (p : DataPack) : Prop :=
  pack_consistent p /\ entry_index_consistent p /\ relations_in_sync p
  /\ tids_numbered p.

(** A relation index that is switched off holds nothing. *)
Definition relation_indexes_unbuilt (p : DataPack) : Prop :=
  (_link_index_switch (index p) = false -> _link_index (index p) = ∅)
  /\ (_group_index_switch (index p) = false -> _group_index (index p) = ∅).

(** [pack.index.turn_link_index_switch(on)] and
    [pack.index.turn_group_index_switch(on)], called on the index of a
    pack. *)
Definition link_switch_turned (on : bool) (p : DataPack) : DataPack :=
  with_index p (turn_link_index_switch on (index p)).

Definition group_switch_turned (on : bool) (p : DataPack) : DataPack :=
  with_index p (turn_group_index_switch on (index p)).

Definition group_0_1_in_pack : list call :=
  [CallInsert (AddEntry (mkEntry ["CoreferenceGroup"] "" "coref" (Group ["0"; "1"]) ∅))].

(** Two tokens and a link between them are added to a pack. *)
Definition tokens_and_link : list call :=
  [CallInsert (AddEntry token_0_5); CallInsert (AddEntry token_6_11);
   CallInsert (AddEntry dependency_0_1)].

Definition Paragraph : class := (VAnnotation, ["Sentence"; "Paragraph"]).

(** A request for two kinds of sentences. *)
Definition two_sentence_kinds : option requests_t :=
  Some [(Sentence, ArgNone); (Paragraph, ArgNone)].

(** A request for tokens counted in units of sentences. *)
Definition token_by_sentence : request_args := ArgDict None (Some "Sentence") None.

(** ** The columns of an annotation record: the statement side *)

(** The value that [_generate_annotation_entry_data] appends for one
    annotation to the array of one key. *)
Definition column_value (p : DataPack) (sent_begin : Z) (annotation : Entry)
    (key : string) : result value :=
  s ← span_of annotation;
  if bool_decide (key = "span") then OK (VPair (span_begin s) (span_end s))
  else if bool_decide (key = "text") then OK (VStr (annotation_text p s))
  else if bool_decide (key = "context_span") then
    OK (VPair (span_begin s - sent_begin) (span_end s - sent_begin))
  else getattr (text p) annotation key.

(** The keys of an annotation record without a unit. *)
Definition column_key (fields : gset string) (key : string) : Prop :=
  key = "span" \/ key = "text" \/ key ∈ fields.

(** [sent.span.begin if sent else 0]. *)
Definition sent_begin_of (sent : option Entry) : result Z :=
  match sent with
  | Some s => sp ← span_of s; OK (span_begin sp)
  | None => OK 0
  end.


(** * Properties *)

(** ** Span algebra *)

Lemma have_overlap_annotations idx a b sa sb :
  body a = Annotation sa -> body b = Annotation sb ->
  have_overlap idx (inr a) (inr b)
  = OK (negb ((span_end sb <=? span_begin sa) || (span_end sa <=? span_begin sb))).
Proof.
  intros Ha Hb. unfold have_overlap, overlap_operand. rewrite Ha, Hb. reflexivity.
Qed.

(** C5. For every two annotations, whatever their class, tid, component and
    fields, [have_overlap] returns a boolean, and it is [true] exactly when
    the half-open spans intersect, that is when
    [not (a.end <= b.begin or a.begin >= b.end)].  The spans [0,5) and
    [5,10) do not overlap, [0,5) and [4,10) do, and [0,5) overlaps itself. *)
Theorem have_overlap_iff_intersect :
  (forall idx ch1 t1 c1 at1 sa ch2 t2 c2 at2 sb,
      exists r : bool,
        have_overlap idx (inr (mkEntry ch1 t1 c1 (Annotation sa) at1))
                         (inr (mkEntry ch2 t2 c2 (Annotation sb) at2)) = OK r
        /\ (r = true <->
            ~ (span_end sa <= span_begin sb \/ span_begin sa >= span_end sb)))
  /\ have_overlap DataIndex_init (inr (Annotation_new 0 5)) (inr (Annotation_new 5 10))
     = OK false
  /\ have_overlap DataIndex_init (inr (Annotation_new 0 5)) (inr (Annotation_new 4 10))
     = OK true
  /\ have_overlap DataIndex_init (inr (Annotation_new 0 5)) (inr (Annotation_new 0 5))
     = OK true.
Proof.
  split; [| repeat split; reflexivity].
  intros. eexists. split.
  - apply have_overlap_annotations; reflexivity.
  - rewrite negb_true_iff, orb_false_iff, !Z.leb_gt. lia.
Qed.

Lemma in_span_annotation idx a s span :
  body a = Annotation s ->
  in_span idx (inr a) span
  = OK ((span_begin span <=? span_begin s) && (span_end s <=? span_end span)).
Proof. intros Ha. unfold in_span. simpl. rewrite Ha. reflexivity. Qed.

(** C6. For every annotation and every span, [in_span] returns a boolean,
    and it is [true] exactly when [entry.span.begin >= span.begin] and
    [entry.span.end <= span.end].  An annotation with span [2,8) is in the
    span [0,10) and is not in the span [0,5). *)
Theorem in_span_annotation_iff :
  (forall idx ch t c at_ s span,
      exists r : bool,
        in_span idx (inr (mkEntry ch t c (Annotation s) at_)) span = OK r
        /\ (r = true <->
            span_begin s >= span_begin span /\ span_end s <= span_end span))
  /\ in_span DataIndex_init (inr (Annotation_new 2 8)) (mkSpan 0 10) = OK true
  /\ in_span DataIndex_init (inr (Annotation_new 2 8)) (mkSpan 0 5) = OK false.
Proof.
  split; [| split; reflexivity].
  intros. eexists. split.
  - apply in_span_annotation; reflexivity.
  - rewrite andb_true_iff, !Z.leb_le. lia.
Qed.

(** ** The text buffer *)

(** C9. [set_text] is total: for every pack and every new text it returns
    a pack whose text is the new text and whose other components are
    untouched; it logs the overwrite warning, and nothing else, exactly when
    the old text is not a prefix of the new one. *)
Theorem set_text_overwrites :
  forall p new_text,
    text (set_text p new_text).1 = new_text
    /\ annotations (set_text p new_text).1 = annotations p
    /\ links (set_text p new_text).1 = links p
    /\ groups (set_text p new_text).1 = groups p
    /\ index (set_text p new_text).1 = index p
    /\ meta (set_text p new_text).1 = meta p
    /\ internal_metas (set_text p new_text).1 = internal_metas p
    /\ (set_text p new_text).2
       = (if String.prefix (text p) new_text then [] else [overwrite_warning]).
Proof.
  intros p new_text. unfold set_text, text. simpl.
  repeat split. destruct (String.prefix (_text p) new_text); reflexivity.
Qed.

(** ** The insertion block *)

Lemma same_store_refl p : same_store p p.
Proof. repeat split. Qed.

Lemma same_store_trans p q r : same_store p q -> same_store q r -> same_store p r.
Proof.
  unfold same_store. intros (?&?&?&?&?&?) (?&?&?&?&?&?).
  repeat split; congruence.
Qed.

Lemma on_index_same_store {A : Type} (m : exec DataIndex A) p :
  same_store (on_index m p).1 p.
Proof. unfold on_index. destruct (m (index p)). repeat split. Qed.

Lemma on_index_index {A : Type} (m : exec DataIndex A) p :
  index (on_index m p).1 = (m (index p)).1 /\ (on_index m p).2 = (m (index p)).2.
Proof. unfold on_index. destruct (m (index p)). split; reflexivity. Qed.

Lemma insert_entry_unfold c entry p :
  insert_entry c entry p = relation_updates (minted p entry) (stored_pack c entry p).
Proof. reflexivity. Qed.

Lemma exec_when_same_store (b : bool) (m : exec DataIndex unit) p :
  same_store (exec_when b (on_index m) p).1 p.
Proof. destruct b; [apply on_index_same_store | apply same_store_refl]. Qed.

Lemma relation_updates_same_store entry p :
  same_store (relation_updates entry p).1 p.
Proof.
  unfold relation_updates, exec_bind, exec_get.
  pose proof (exec_when_same_store
                (link_index_switch (index p) && isinstance entry Link_class)
                (update_link_index (links p) [entry]) p) as H1.
  destruct (exec_when _ _ p) as [p1 [[]|e1]]; simpl in H1 |- *; [| exact H1].
  pose proof (exec_when_same_store
                (group_index_switch (index p1) && isinstance entry Group_class)
                (update_group_index (groups p1) [entry]) p1) as H2.
  destruct (exec_when _ _ p1) as [p2 [[]|e2]]; simpl in H2 |- *;
    eapply same_store_trans; eauto.
Qed.

Lemma insert_entry_same_store c entry p :
  same_store (insert_entry c entry p).1
    (bump_counter (type_of entry) (store c (minted p entry) p)).
Proof.
  rewrite insert_entry_unfold.
  eapply same_store_trans; [apply relation_updates_same_store |].
  unfold stored_pack. destruct c; repeat split.
Qed.

(** ** The sorted container *)

Lemma span_lt_le a b : span_lt a b = true -> span_le a b.
Proof.
  unfold span_lt, span_le.
  rewrite orb_true_iff, andb_true_iff, !Z.ltb_lt, Z.eqb_eq. lia.
Qed.

Lemma span_lt_false_le a b : span_lt a b = false -> span_le b a.
Proof.
  unfold span_lt, span_le.
  rewrite orb_false_iff, andb_false_iff, !Z.ltb_ge, Z.eqb_neq. lia.
Qed.

Lemma span_le_trans a b c : span_le a b -> span_le b c -> span_le a c.
Proof. unfold span_le. lia. Qed.

Lemma sl_add_Forall (P : Entry -> Prop) x l :
  P x -> Forall P l -> Forall P (sl_add x l).
Proof.
  intros Hx Hl. induction Hl as [| y l Hy Hl IH]; simpl.
  - constructor; [exact Hx | constructor].
  - destruct (entry_lt x y); repeat constructor; assumption.
Qed.

Lemma sl_add_sorted x l :
  StronglySorted entry_le l -> StronglySorted entry_le (sl_add x l).
Proof.
  induction 1 as [| y l Hs IH Hy]; simpl.
  - repeat constructor.
  - destruct (entry_lt x y) eqn:Hxy.
    + constructor; [constructor; assumption |].
      constructor; [apply span_lt_le; exact Hxy |].
      eapply Forall_impl; [exact Hy |].
      intros z Hz. eapply span_le_trans; [apply span_lt_le; exact Hxy | exact Hz].
    + constructor; [exact IH |].
      apply sl_add_Forall; [apply span_lt_false_le; exact Hxy | exact Hy].
Qed.

Lemma target_of_annotation entry c :
  target_of entry = OK c -> (c = CAnnotations <-> is_annotation entry).
Proof.
  unfold target_of, is_annotation, variant_of.
  destruct (body entry); intros [= <-]; split; congruence.
Qed.

Lemma insert_entry_annotations c entry p :
  annotations (insert_entry c entry p).1
  = match c with
    | CAnnotations => sl_add (minted p entry) (annotations p)
    | _ => annotations p
    end.
Proof.
  destruct (insert_entry_same_store c entry p) as (_ & -> & _).
  destruct c; reflexivity.
Qed.

Section Inserts.

Variable entry_eq : Entry -> Entry -> bool.

(** What a call of one of the two insert methods does to the pack, seen
    from the containers: nothing, or the insertion block. *)
Lemma run_insert_cases op p :
  (run_insert entry_eq op p).1 = p
  \/ exists c entry,
      target_of entry = OK c
      /\ run_insert entry_eq op p = insert_entry c entry p.
Proof.
  destruct op as [entry | entry]; simpl.
  - unfold add_entry, exec_bind, exec_lift.
    destruct (target_of entry) as [c |] eqn:Hc; [right; eauto | left; reflexivity].
  - unfold add_or_get_entry, exec_bind, exec_lift, exec_get.
    destruct (target_of entry) as [c |] eqn:Hc; [| left; reflexivity].
    destruct (contains_in entry_eq c (get_target p c) entry); simpl.
    + left. destruct (index_in _ _ _ _) as [i |]; [| reflexivity].
      destruct (item _ _); reflexivity.
    + right. eauto.
Qed.

Lemma run_insert_sorted op p :
  Forall is_annotation (annotations p) ->
  StronglySorted entry_le (annotations p) ->
  Forall is_annotation (annotations (run_insert entry_eq op p).1)
  /\ StronglySorted entry_le (annotations (run_insert entry_eq op p).1).
Proof.
  intros Ha Hs.
  destruct (run_insert_cases op p) as [-> | (c & entry & Hc & ->)]; [auto |].
  rewrite insert_entry_annotations.
  destruct c; auto. split.
  - apply sl_add_Forall; [| exact Ha].
    apply (target_of_annotation _ _ Hc). reflexivity.
  - apply sl_add_sorted, Hs.
Qed.

Lemma run_inserts_sorted ops p :
  Forall is_annotation (annotations p) ->
  StronglySorted entry_le (annotations p) ->
  Forall is_annotation (annotations (run_inserts entry_eq ops p))
  /\ StronglySorted entry_le (annotations (run_inserts entry_eq ops p)).
Proof.
  revert p. induction ops as [| op ops IH]; intros p Ha Hs; simpl; [auto |].
  destruct (run_insert_sorted op p Ha Hs). apply IH; assumption.
Qed.

(** C7. After every sequence of [add_entry] and [add_or_get_entry] calls
    on a new pack, whatever the equality of entries is and whichever calls
    raise, the annotation container holds annotations only and lists them
    in non-decreasing order of [span.begin], ties in non-decreasing order of
    [span.end]: every annotation is below all the annotations after it. *)
Theorem annotations_sorted_after_inserts :
  forall ops doc,
    Forall is_annotation (annotations (run_inserts entry_eq ops (DataPack_init doc)))
    /\ StronglySorted (fun a b => span_le (key_span a) (key_span b))
         (annotations (run_inserts entry_eq ops (DataPack_init doc))).
Proof.
  intros ops doc. apply run_inserts_sorted; simpl; constructor.
Qed.

End Inserts.

(** ** Parts of the index that a piece of code leaves alone *)

Lemma same_basic_refl idx : same_basic idx idx.
Proof. repeat split. Qed.

Lemma same_basic_trans i j k : same_basic i j -> same_basic j k -> same_basic i k.
Proof. unfold same_basic. intros (?&?&?) (?&?&?). repeat split; congruence. Qed.

Lemma same_link_refl idx : same_link idx idx.
Proof. split; reflexivity. Qed.

Lemma same_link_trans i j k : same_link i j -> same_link j k -> same_link i k.
Proof. unfold same_link. intros (?&?) (?&?). split; congruence. Qed.

Section Keeps.

Variable R : DataIndex -> DataIndex -> Prop.
Hypothesis R_refl : forall i, R i i.
Hypothesis R_trans : forall i j k, R i j -> R j k -> R i k.

Lemma keeps_bind {A B : Type} (m : exec DataIndex A) (k : A -> exec DataIndex B) :
  keeps R m -> (forall a, keeps R (k a)) -> keeps R (exec_bind m k).
Proof.
  intros Hm Hk idx. unfold exec_bind. specialize (Hm idx).
  destruct (m idx) as [idx1 [a | e]]; simpl in *; [| exact Hm].
  eapply R_trans; [apply Hk | exact Hm].
Qed.

Lemma keeps_lift {A : Type} (r : result A) : keeps R (exec_lift r).
Proof. intros idx. apply R_refl. Qed.

Lemma keeps_ret {A : Type} (a : A) : keeps R (exec_ret a).
Proof. intros idx. apply R_refl. Qed.

Lemma keeps_modify (f : DataIndex -> DataIndex) :
  (forall idx, R (f idx) idx) -> keeps R (exec_modify f).
Proof. intros Hf idx. apply Hf. Qed.

Lemma keeps_for {A : Type} (l : list A) (body : A -> exec DataIndex unit) :
  (forall a, keeps R (body a)) -> keeps R (exec_for l body).
Proof.
  intros Hb. induction l as [| a l IH]; simpl.
  - apply keeps_ret.
  - apply keeps_bind; [apply Hb | intros _; exact IH].
Qed.

Lemma keeps_get_then {A : Type} (k : DataIndex -> exec DataIndex A) :
  (forall i, keeps R (k i)) -> keeps R (exec_bind exec_get k).
Proof. intros Hk idx. unfold exec_bind, exec_get. apply Hk. Qed.

Lemma exec_when_on_index_keeps (b : bool) (m : exec DataIndex unit) p :
  keeps R m -> R (index (exec_when b (on_index m) p).1) (index p).
Proof.
  intros Hm. destruct b; simpl; [| apply R_refl].
  destruct (on_index_index m p) as [-> _]. apply Hm.
Qed.

(** The group index is no part of what [R] relates. *)
Hypothesis R_group : forall idx g, R (with_group_index idx g) idx.
Hypothesis R_group_switch : forall b idx, R (turn_group_index_switch b idx) idx.

Lemma group_index_step_keeps group : keeps R (group_index_step group).
Proof.
  unfold group_index_step.
  apply keeps_bind; [apply keeps_lift |]. intros ms.
  apply keeps_for. intros member.
  apply keeps_modify. intros idx. apply R_group.
Qed.

Lemma update_group_index_keeps pack_groups groups :
  keeps R (update_group_index pack_groups groups).
Proof.
  unfold update_group_index. apply keeps_get_then. intros i.
  destruct (negb (group_index_switch i)).
  - apply keeps_bind; [apply keeps_modify, (R_group_switch true) | intros _].
    apply keeps_bind; [apply keeps_modify; intros idx; apply R_group | intros _].
    apply keeps_for, group_index_step_keeps.
  - apply keeps_for, group_index_step_keeps.
Qed.

End Keeps.

Lemma update_group_index_basic pack_groups groups :
  keeps same_basic (update_group_index pack_groups groups).
Proof.
  apply update_group_index_keeps;
    first [apply same_basic_trans | intros; repeat split].
Qed.

Lemma update_group_index_link pack_groups groups :
  keeps same_link (update_group_index pack_groups groups).
Proof.
  apply update_group_index_keeps;
    first [apply same_link_trans | intros; repeat split].
Qed.

Lemma link_index_add_basic which key t : keeps same_basic (link_index_add which key t).
Proof.
  unfold link_index_add.
  apply keeps_get_then. intros i.
  apply keeps_bind; [apply same_basic_trans | apply keeps_lift, same_basic_refl |].
  intros sub.
  apply keeps_bind; [apply same_basic_trans | apply keeps_lift, same_basic_refl |].
  intros k. apply keeps_modify. intros idx. repeat split.
Qed.

Lemma link_index_step_basic link : keeps same_basic (link_index_step link).
Proof.
  unfold link_index_step.
  apply keeps_bind; [apply same_basic_trans | | intros _]; apply link_index_add_basic.
Qed.

Lemma update_link_index_basic pack_links links :
  keeps same_basic (update_link_index pack_links links).
Proof.
  unfold update_link_index.
  apply keeps_get_then. intros i.
  destruct (negb (link_index_switch i)).
  - repeat (apply keeps_bind;
            [apply same_basic_trans
            | apply keeps_modify; intros idx; repeat split | intros _]).
    apply keeps_for;
      [apply same_basic_refl | apply same_basic_trans | apply link_index_step_basic].
  - apply keeps_for;
      [apply same_basic_refl | apply same_basic_trans | apply link_index_step_basic].
Qed.

Lemma relation_updates_basic entry p :
  same_basic (index (relation_updates entry p).1) (index p).
Proof.
  unfold relation_updates, exec_bind, exec_get.
  pose proof (exec_when_on_index_keeps same_basic same_basic_refl
                (link_index_switch (index p) && isinstance entry Link_class)
                (update_link_index (links p) [entry]) p
                (update_link_index_basic _ _)) as H1.
  destruct (exec_when _ _ p) as [p1 [[]|e1]]; simpl in H1 |- *; [| exact H1].
  pose proof (exec_when_on_index_keeps same_basic same_basic_refl
                (group_index_switch (index p1) && isinstance entry Group_class)
                (update_group_index (groups p1) [entry]) p1
                (update_group_index_basic _ _)) as H2.
  destruct (exec_when _ _ p1) as [p2 [[]|e2]]; simpl in H2 |- *;
    eapply same_basic_trans; eauto.
Qed.

Lemma insert_entry_basic c entry p :
  same_basic (index (insert_entry c entry p).1)
    (basic_index_step (index p) (minted p entry)).
Proof.
  rewrite insert_entry_unfold.
  eapply same_basic_trans; [apply relation_updates_basic |].
  unfold stored_pack. destruct c; repeat split.
Qed.

(** ** The link index *)

Lemma is_link_body e : is_link e -> exists p c pt ct, body e = Link p c pt ct.
Proof.
  unfold is_link, variant_of. destruct (body e); try discriminate. eauto.
Qed.

Lemma isinstance_Link e : isinstance e Link_class = true <-> is_link e.
Proof.
  unfold isinstance, issubclass, is_link. simpl.
  rewrite andb_true_r, bool_decide_eq_true. reflexivity.
Qed.

Lemma isinstance_Group e :
  isinstance e Group_class = true <-> variant_of e = VGroup.
Proof.
  unfold isinstance, issubclass. simpl.
  rewrite andb_true_r, bool_decide_eq_true. reflexivity.
Qed.

Lemma set_maps_lookup_child li C P : set_maps li C P !! "child_index" = Some C.
Proof.
  unfold set_maps. rewrite lookup_insert_ne by discriminate.
  apply lookup_insert_eq.
Qed.

Lemma set_maps_lookup_parent li C P : set_maps li C P !! "parent_index" = Some P.
Proof. unfold set_maps. apply lookup_insert_eq. Qed.

Lemma set_maps_again li C P C' P' :
  <["parent_index" := P']> (<["child_index" := C']> (set_maps li C P))
  = set_maps li C' P'.
Proof.
  unfold set_maps.
  rewrite (insert_insert_ne _ "child_index" "parent_index") by discriminate.
  rewrite insert_insert_eq.
  rewrite insert_insert_eq. reflexivity.
Qed.

Lemma set_maps_id li C P :
  li !! "child_index" = Some C -> li !! "parent_index" = Some P ->
  set_maps li C P = li.
Proof.
  intros HC HP. unfold set_maps.
  rewrite (insert_id li "child_index" C HC). apply insert_id, HP.
Qed.

Lemma link_index_step_holds link idx li C P :
  is_link link ->
  _link_index idx = set_maps li C P ->
  link_index_step link idx
  = (with_link_index idx (set_maps li (child_step C link) (parent_step P link)), OK tt).
Proof.
  intros Hl Hli. destruct (is_link_body _ Hl) as (p & c & pt & ct & Hb).
  unfold link_index_step, link_index_add, exec_bind, exec_get, exec_lift,
    exec_modify, link_child, link_parent, child_step, parent_step, dict_get.
  rewrite Hb, Hli, set_maps_lookup_child. simpl.
  rewrite lookup_insert_ne by discriminate.
  rewrite set_maps_lookup_parent.
  rewrite set_maps_again. reflexivity.
Qed.

Lemma link_loop_holds links idx li C P :
  Forall is_link links ->
  _link_index idx = set_maps li C P ->
  exec_for links link_index_step idx
  = (with_link_index idx
       (set_maps li (fold_left child_step links C) (fold_left parent_step links P)),
     OK tt).
Proof.
  intros Hl. revert idx C P.
  induction Hl as [| link links Hlink Hl IH]; intros idx C P Hli; simpl.
  - unfold exec_ret. rewrite <- Hli. destruct idx; reflexivity.
  - unfold exec_bind. rewrite (link_index_step_holds link idx li C P Hlink Hli).
    rewrite (IH _ (child_step C link) (parent_step P link)); reflexivity.
Qed.

(** The full rebuild: from a state whose switch is off, [update_link_index]
    indexes the links of the pack from scratch and turns the switch on. *)
Lemma update_link_index_rebuild pack_links links idx :
  _link_index_switch idx = false ->
  Forall is_link pack_links ->
  update_link_index pack_links links idx
  = (turn_link_index_switch true
       (with_link_index idx
          (set_maps (_link_index idx) (fold_left child_step pack_links ∅)
             (fold_left parent_step pack_links ∅))),
     OK tt).
Proof.
  intros Hoff Hl.
  unfold update_link_index, exec_bind at 1, exec_get, link_index_switch.
  rewrite Hoff. simpl. unfold exec_bind, exec_modify.
  rewrite (link_loop_holds pack_links _ (_link_index idx) ∅ ∅ Hl) by reflexivity.
  reflexivity.
Qed.

(** The incremental update: with the switch on, one more link is added to
    both sub-indexes. *)
Lemma update_link_index_increment pack_links link idx C P :
  link_index_holds idx C P ->
  is_link link ->
  update_link_index pack_links [link] idx
  = (with_link_index idx
       (set_maps (_link_index idx) (child_step C link) (parent_step P link)),
     OK tt).
Proof.
  intros (Hon & HC & HP) Hl.
  unfold update_link_index, exec_bind at 1, exec_get, link_index_switch.
  rewrite Hon. simpl.
  apply (link_loop_holds [link] idx (_link_index idx) C P).
  - constructor; [exact Hl | constructor].
  - symmetry. apply set_maps_id; assumption.
Qed.

(** ** The relation updates of the insertion block *)

Lemma exec_for_modify_ok {A : Type} (l : list A) (f : A -> DataIndex -> DataIndex) idx :
  (exec_for l (fun a => exec_modify (f a)) idx).2 = OK tt.
Proof.
  revert idx. induction l as [| a l IH]; intros idx; simpl; [reflexivity |].
  unfold exec_bind, exec_modify at 1. apply IH.
Qed.

Lemma update_group_index_ok pack_groups group idx :
  _group_index_switch idx = true ->
  variant_of group = VGroup ->
  (update_group_index pack_groups [group] idx).2 = OK tt.
Proof.
  intros Hon Hg.
  unfold update_group_index, exec_bind at 1, exec_get, group_index_switch.
  rewrite Hon. simpl.
  unfold exec_bind at 1, group_index_step, exec_bind at 1, exec_lift, group_members.
  unfold variant_of in Hg. destruct (body group) as [| | ms |]; try discriminate.
  pose proof (exec_for_modify_ok ms
    (fun member idx => with_group_index idx (dd_add (_group_index idx) member (tid group)))
    idx) as Hok.
  destruct (exec_for ms _ idx) as [idx' r]. simpl in Hok. subst r. reflexivity.
Qed.

Lemma group_update_ok entry p :
  same_link
    (index (exec_when (group_index_switch (index p) && isinstance entry Group_class)
              (on_index (update_group_index (groups p) [entry])) p).1)
    (index p)
  /\ (exec_when (group_index_switch (index p) && isinstance entry Group_class)
        (on_index (update_group_index (groups p) [entry])) p).2 = OK tt.
Proof.
  split.
  - apply (exec_when_on_index_keeps same_link same_link_refl),
      update_group_index_link.
  - destruct (group_index_switch (index p) && isinstance entry Group_class) eqn:Hb;
      simpl; [| reflexivity].
    apply andb_true_iff in Hb as [Hon Hg].
    destruct (on_index_index (update_group_index (groups p) [entry]) p) as [_ ->].
    apply update_group_index_ok; [exact Hon | apply isinstance_Group, Hg].
Qed.

Lemma child_step_other C e : ~ is_link e -> child_step C e = C.
Proof.
  unfold is_link, variant_of, child_step. destruct (body e); congruence.
Qed.

Lemma parent_step_other P e : ~ is_link e -> parent_step P e = P.
Proof.
  unfold is_link, variant_of, parent_step. destruct (body e); congruence.
Qed.

(** With the link switch off, the insertion block leaves the link index
    unbuilt and ends normally. *)
Lemma relation_updates_off entry p :
  _link_index_switch (index p) = false ->
  same_link (index (relation_updates entry p).1) (index p)
  /\ (relation_updates entry p).2 = OK entry.
Proof.
  intros Hoff. unfold relation_updates, exec_bind, exec_get, link_index_switch.
  rewrite Hoff. simpl.
  destruct (group_update_ok entry p) as [Hl Hr].
  destruct (exec_when _ _ p) as [p2 r2]. simpl in *. subst r2.
  split; [exact Hl | reflexivity].
Qed.

(** With the link switch on and the sub-indexes [C] and [P] in place, the
    insertion block adds the entry to them when it is a link, and ends
    normally. *)
Lemma relation_updates_on entry p C P :
  link_index_holds (index p) C P ->
  link_index_holds (index (relation_updates entry p).1)
    (child_step C entry) (parent_step P entry)
  /\ (relation_updates entry p).2 = OK entry.
Proof.
  intros Hh. pose proof Hh as (Hon & HC & HP).
  unfold relation_updates, exec_bind, exec_get, link_index_switch.
  rewrite Hon. simpl.
  assert (Hlink : exists p1,
    exec_when (isinstance entry Link_class)
      (on_index (update_link_index (links p) [entry])) p = (p1, OK tt)
    /\ link_index_holds (index p1) (child_step C entry) (parent_step P entry)).
  { destruct (isinstance entry Link_class) eqn:Hi; simpl.
    - apply isinstance_Link in Hi.
      unfold on_index.
      rewrite (update_link_index_increment (links p) entry (index p) C P Hh Hi).
      eexists. split; [reflexivity |]. simpl.
      split; [exact Hon |].
      split; [apply set_maps_lookup_child | apply set_maps_lookup_parent].
    - assert (Hn : ~ is_link entry).
      { intros Hl. apply isinstance_Link in Hl. congruence. }
      exists p. rewrite child_step_other, parent_step_other by exact Hn.
      split; [reflexivity | exact Hh]. }
  destruct Hlink as (p1 & -> & Hh1). simpl.
  destruct (group_update_ok entry p1) as [[Hli Hsw] Hr].
  destruct (exec_when _ _ p1) as [p2 r2]. simpl in *. subst r2.
  split; [| reflexivity].
  destruct Hh1 as (Hon1 & HC1 & HP1).
  unfold link_index_holds, exec_ret. simpl. rewrite Hli, Hsw. auto.
Qed.

Lemma stored_pack_link c entry p : same_link (index (stored_pack c entry p)) (index p).
Proof. unfold stored_pack. destruct c; split; reflexivity. Qed.

Lemma link_index_ready_cases idx :
  link_index_ready idx ->
  _link_index_switch idx = false \/ exists C P, link_index_holds idx C P.
Proof.
  intros Hr. destruct (_link_index_switch idx) eqn:Hs; [right | left; reflexivity].
  destruct (Hr Hs) as [[C HC] [P HP]]. exists C, P. repeat split; assumption.
Qed.

(** On a pack whose link index is usable the insertion block ends
    normally, returns the stored entry, and leaves the link index usable. *)
Lemma insert_entry_ready c entry p :
  link_index_ready (index p) ->
  (insert_entry c entry p).2 = OK (minted p entry)
  /\ link_index_ready (index (insert_entry c entry p).1).
Proof.
  intros Hr. rewrite insert_entry_unfold.
  destruct (stored_pack_link c entry p) as [Hli Hsw].
  destruct (link_index_ready_cases _ Hr) as [Hoff | (C & P & Hon & HC & HP)].
  - destruct (relation_updates_off (minted p entry) (stored_pack c entry p))
      as [[Hli' Hsw'] Hres]; [congruence |].
    split; [exact Hres |].
    intros Hon. rewrite Hsw', Hsw, Hoff in Hon. discriminate.
  - destruct (relation_updates_on (minted p entry) (stored_pack c entry p) C P)
      as [(Hon' & HC' & HP') Hres].
    { unfold link_index_holds. rewrite Hli, Hsw. auto. }
    split; [exact Hres |].
    intros _. rewrite HC', HP'. split; eexists; reflexivity.
Qed.

(** ** Lookup by identifier *)

Lemma add_entry_cases entry p :
  link_index_ready (index p) ->
  add_entry entry p = (p, Raise ValueError)
  \/ exists p',
      add_entry entry p = (p', OK (minted p entry))
      /\ entry_index (index p')
         = <[tid (minted p entry) := minted p entry]> (entry_index (index p))
      /\ link_index_ready (index p').
Proof.
  intros Hr. unfold add_entry, exec_bind, exec_lift.
  destruct (target_of entry) as [c | e] eqn:Hc.
  - right. exists (insert_entry c entry p).1.
    destruct (insert_entry_ready c entry p Hr) as [Hres Hr'].
    destruct (insert_entry_basic c entry p) as (Hei & _).
    split; [| split; [exact Hei | exact Hr']].
    rewrite <- Hres. destruct (insert_entry c entry p); reflexivity.
  - left. unfold target_of in Hc. destruct (body entry); congruence.
Qed.

Lemma add_entries_ready entries p :
  link_index_ready (index p) -> link_index_ready (index (add_entries entries p).1).
Proof.
  revert p. induction entries as [| x rest IH]; intros p Hr; simpl; [exact Hr |].
  destruct (add_entry_cases x p Hr) as [-> | (p1 & -> & _ & Hr1)].
  - specialize (IH p Hr). destruct (add_entries rest p). exact IH.
  - specialize (IH p1 Hr1). destruct (add_entries rest p1). exact IH.
Qed.

(** A later sequence of inserts leaves the entry under [t] alone when none
    of the inserted entries is given the tid [t]. *)
Lemma add_entries_lookup_other entries p t :
  link_index_ready (index p) ->
  (forall j e', (add_entries entries p).2 !! j = Some (OK e') -> tid e' <> t) ->
  entry_index (index (add_entries entries p).1) !! t = entry_index (index p) !! t.
Proof.
  revert p. induction entries as [| x rest IH]; intros p Hr Hne; simpl; [reflexivity |].
  simpl in Hne.
  destruct (add_entry_cases x p Hr) as [Hx | (p1 & Hx & Hei & Hr1)];
    rewrite Hx in Hne |- *.
  - specialize (IH p Hr). destruct (add_entries rest p) as [p2 rs]. simpl in *.
    apply IH. intros j e' Hj. apply (Hne (S j) e' Hj).
  - specialize (IH p1 Hr1). destruct (add_entries rest p1) as [p2 rs]. simpl in *.
    rewrite IH by (intros j e' Hj; apply (Hne (S j) e' Hj)).
    rewrite Hei. apply lookup_insert_ne. apply (Hne O _ eq_refl).
Qed.

(** A lookup after a sequence of [add_entry] calls returns the entry that
    was given the tid last. *)
Lemma add_entries_lookup_last entries p i e :
  link_index_ready (index p) ->
  (add_entries entries p).2 !! i = Some (OK e) ->
  (forall j e', (i < j)%nat ->
                (add_entries entries p).2 !! j = Some (OK e') -> tid e' <> tid e) ->
  get_entry_by_id (add_entries entries p).1 (tid e) = OK e.
Proof.
  revert p i.
  induction entries as [| x rest IH]; intros p i Hr Hi Hlater; [discriminate |].
  simpl in Hi, Hlater |- *.
  destruct (add_entry_cases x p Hr) as [Hx | (p1 & Hx & Hei & Hr1)];
    rewrite Hx in Hi, Hlater |- *.
  - specialize (IH p). destruct (add_entries rest p) as [p2 rs]. simpl in *.
    destruct i as [| i]; [discriminate |]. simpl in Hi.
    apply (IH i Hr Hi). intros j e' Hij Hj. apply (Hlater (S j) e'); [lia | exact Hj].
  - pose proof (add_entries_lookup_other rest p1 (tid e) Hr1) as Hother.
    specialize (IH p1). destruct (add_entries rest p1) as [p2 rs]. simpl in *.
    destruct i as [| i]; simpl in Hi.
    + injection Hi as <-. unfold get_entry_by_id.
      rewrite Hother, Hei, lookup_insert_eq; [reflexivity |].
      intros j e' Hj. apply (Hlater (S j) e'); [lia | exact Hj].
    + apply (IH i Hr1 Hi). intros j e' Hij Hj.
      apply (Hlater (S j) e'); [lia | exact Hj].
Qed.

Lemma insert_entry_counter c entry p k :
  id_counter (meta_of (insert_entry c entry p).1 k)
  = if bool_decide (type_of entry = k) then S (id_counter (meta_of p k))
    else id_counter (meta_of p k).
Proof.
  destruct (insert_entry_same_store c entry p) as (_ & _ & _ & _ & _ & Him).
  unfold meta_of at 1. rewrite Him.
  assert (Hstore : internal_metas (store c (minted p entry) p) = internal_metas p)
    by (destruct c; reflexivity).
  unfold bump_counter, meta_of. simpl. rewrite Hstore.
  case_bool_decide as Hk.
  - subst k. rewrite lookup_insert_eq. reflexivity.
  - rewrite lookup_insert_ne by exact Hk. reflexivity.
Qed.

Lemma add_entry_counter entry p k :
  link_index_ready (index p) ->
  type_of entry = k ->
  add_entry entry p = (p, Raise ValueError)
  \/ exists p',
      add_entry entry p = (p', OK (minted p entry))
      /\ id_counter (meta_of p' k) = S (id_counter (meta_of p k)).
Proof.
  intros Hr Hk. destruct (add_entry_cases entry p Hr) as [Hx | (p1 & Hx & _)];
    [left; exact Hx | right].
  exists p1. split; [exact Hx |].
  unfold add_entry, exec_bind, exec_lift in Hx.
  destruct (target_of entry) as [c |]; [| discriminate].
  pose proof (insert_entry_counter c entry p k) as Hc.
  rewrite Hx in Hc. simpl in Hc.
  rewrite bool_decide_eq_true_2 in Hc by exact Hk. exact Hc.
Qed.

(** The tids of a sequence of entries of one class are the strings of the
    successive values of the counter of that class. *)
Lemma add_entries_same_class_tids k entries p j e' :
  link_index_ready (index p) ->
  Forall (fun x => type_of x = k) entries ->
  (add_entries entries p).2 !! j = Some (OK e') ->
  exists n, (id_counter (meta_of p k) <= n)%nat /\ tid e' = py_str n.
Proof.
  intros Hr Hall. revert p j Hr.
  induction Hall as [| x rest Hx Hall IH]; intros p j Hr; [discriminate |].
  simpl.
  destruct (add_entry_cases x p Hr) as [Hc | (p1 & Hc & _ & Hr1)].
  - rewrite Hc. specialize (IH p). destruct (add_entries rest p) as [p2 rs].
    simpl in *. destruct j as [| j]; [discriminate |]. apply IH, Hr.
  - destruct (add_entry_counter x p k Hr Hx) as [Hc' | (p1' & Hc' & Hn)];
      [congruence |].
    rewrite Hc in Hc'. injection Hc' as <-. rewrite Hc.
    specialize (IH p1). destruct (add_entries rest p1) as [p2 rs]. simpl in *.
    destruct j as [| j]; simpl.
    + intros [= <-]. exists (id_counter (meta_of p k)). split; [lia |].
      unfold minted. simpl. rewrite Hx. reflexivity.
    + intros Hj. destruct (IH j Hr1 Hj) as (n & Hle & Ht).
      exists n. split; [lia | exact Ht].
Qed.

Lemma add_entries_same_class_distinct k entries p i j e e' :
  link_index_ready (index p) ->
  Forall (fun x => type_of x = k) entries ->
  (i < j)%nat ->
  (add_entries entries p).2 !! i = Some (OK e) ->
  (add_entries entries p).2 !! j = Some (OK e') ->
  tid e' <> tid e.
Proof.
  intros Hr Hall. revert p i j Hr.
  induction Hall as [| x rest Hx Hall IH]; intros p i j Hr Hij; [discriminate |].
  simpl.
  destruct (add_entry_cases x p Hr) as [Hc | (p1 & Hc & _ & Hr1)].
  - rewrite Hc. specialize (IH p). destruct (add_entries rest p) as [p2 rs].
    simpl in *. destruct i as [| i]; [discriminate |].
    destruct j as [| j]; [lia |]. simpl. apply IH; [exact Hr | lia].
  - destruct (add_entry_counter x p k Hr Hx) as [Hc' | (p1' & Hc' & Hn)];
      [congruence |].
    rewrite Hc in Hc'. injection Hc' as <-. rewrite Hc.
    pose proof (add_entries_same_class_tids k rest p1) as Htids.
    specialize (IH p1). destruct (add_entries rest p1) as [p2 rs]. simpl in *.
    destruct j as [| j]; [lia |]. destruct i as [| i]; simpl.
    + intros [= <-] Hj. destruct (Htids j e' Hr1 Hall Hj) as (n & Hle & ->).
      unfold minted. simpl. rewrite Hx. unfold py_str.
      intros Heq. apply (inj pretty) in Heq. lia.
    + apply IH; [exact Hr1 | lia].
Qed.

(** X28 (lookup after a sequence of add_entry). On a pack whose link index
    is usable, take any sequence of [add_entry] calls and any entry [e] that
    one of the calls returned.
    (1) When no later call of the sequence returned an entry with the same
    tid, [get_entry_by_id] with the tid of [e] on the pack at the end
    returns exactly [e].  (2) This is the case whenever the entries of the
    sequence are all of one concrete class. *)
Theorem add_entry_then_lookup :
  (forall entries p i e,
      link_index_ready (index p) ->
      (add_entries entries p).2 !! i = Some (OK e) ->
      (forall j e', (i < j)%nat ->
                    (add_entries entries p).2 !! j = Some (OK e') -> tid e' <> tid e) ->
      get_entry_by_id (add_entries entries p).1 (tid e) = OK e)
  /\ (forall k entries p i e,
         link_index_ready (index p) ->
         Forall (fun x => type_of x = k) entries ->
         (add_entries entries p).2 !! i = Some (OK e) ->
         get_entry_by_id (add_entries entries p).1 (tid e) = OK e).
Proof.
  split.
  - intros entries p i e. apply add_entries_lookup_last.
  - intros k entries p i e Hr Hall Hi.
    apply (add_entries_lookup_last entries p i e Hr Hi).
    intros j e' Hij Hj.
    apply (add_entries_same_class_distinct k entries p i j e e' Hr Hall Hij Hi Hj).
Qed.


(** Two tokens inserted into a new pack: the lookup with the tid of the
    first one returns it, by the first part (the second token has another
    tid) and by the second part (both are tokens). *)
Lemma add_entry_then_lookup_witness :
  get_entry_by_id (add_entries [token_0_5; token_6_11] (DataPack_init None)).1
    (tid (set_tid token_0_5 "0"))
  = OK (set_tid token_0_5 "0")
  /\ get_entry_by_id (add_entries [token_0_5; token_6_11] (DataPack_init None)).1
       (tid (set_tid token_6_11 "1"))
     = OK (set_tid token_6_11 "1").
Proof.
  split.
  - apply (proj1 add_entry_then_lookup [token_0_5; token_6_11] (DataPack_init None) O
             (set_tid token_0_5 "0")).
    + intros H. discriminate H.
    + vm_compute. reflexivity.
    + intros j e' Hj Hl.
      destruct j as [| [| j]]; [lia | | destruct j; discriminate Hl].
      vm_compute in Hl. injection Hl as <-. vm_compute. intros [=].
  - apply (proj2 add_entry_then_lookup Token [token_0_5; token_6_11]
             (DataPack_init None) 1%nat (set_tid token_6_11 "1")).
    + intros H. discriminate H.
    + repeat constructor.
    + vm_compute. reflexivity.
Defined.

(** ** The conditional insert *)

Lemma sl_add_In x y l : In y (sl_add x l) <-> y = x \/ In y l.
Proof.
  induction l as [| z l IH]; simpl.
  - intuition congruence.
  - destruct (entry_lt x z); simpl; [intuition congruence |].
    rewrite IH. intuition congruence.
Qed.

Lemma sl_add_length x l : length (sl_add x l) = S (length l).
Proof.
  induction l as [| z l IH]; simpl; [reflexivity |].
  destruct (entry_lt x z); simpl; [reflexivity | rewrite IH; reflexivity].
Qed.

Lemma store_target_In c c' x y p :
  In y (get_target (store c x p) c') <-> (c = c' /\ y = x) \/ In y (get_target p c').
Proof.
  destruct c, c'; simpl; rewrite ?sl_add_In, ?in_app_iff; simpl;
    intuition congruence.
Qed.

Lemma store_target_length c c' x p :
  length (get_target (store c x p) c')
  = if bool_decide (c = c') then S (length (get_target p c'))
    else length (get_target p c').
Proof.
  destruct c, c'; simpl; rewrite ?sl_add_length, ?length_app; simpl;
    try reflexivity; lia.
Qed.

Lemma insert_entry_target c c' entry p :
  get_target (insert_entry c entry p).1 c' = get_target (store c (minted p entry) p) c'.
Proof.
  destruct (insert_entry_same_store c entry p) as (_ & Ha & Hl & Hg & _).
  destruct c'; simpl; rewrite ?Ha, ?Hl, ?Hg; destruct c; reflexivity.
Qed.

Section AddOrGet.

Variable entry_eq : Entry -> Entry -> bool.

Lemma contains_true target entry :
  contains entry_eq target entry = true
  <-> exists x, In x target /\ entry_eq x entry = true.
Proof. unfold contains. apply existsb_exists. Qed.

Lemma index_of_found target entry :
  contains entry_eq target entry = true ->
  exists i y,
    index_of entry_eq target entry = OK i
    /\ item target i = OK y
    /\ In y target
    /\ entry_eq y entry = true.
Proof.
  induction target as [| x rest IH]; simpl; [discriminate |].
  destruct (entry_eq x entry) eqn:Hx; simpl.
  - intros _. exists O, x. auto.
  - intros Hc. destruct (IH Hc) as (i & y & -> & Hitem & Hin & Hy).
    exists (S i), y. simpl. auto.
Qed.

Lemma sl_index_found target entry :
  sl_contains entry_eq target entry = true ->
  exists y,
    target !! sl_bisect_left entry target = Some y
    /\ sl_index entry_eq target entry = OK (sl_bisect_left entry target)
    /\ item target (sl_bisect_left entry target) = OK y
    /\ In y target
    /\ entry_eq y entry = true.
Proof.
  unfold sl_contains, sl_index, item.
  destruct (target !! sl_bisect_left entry target) as [y |] eqn:Hy; [| discriminate].
  intros Heq. rewrite Heq. exists y. repeat split; try assumption.
  apply list_elem_of_In. eapply list_elem_of_lookup_2. exact Hy.
Qed.

Lemma index_in_found c target entry :
  contains_in entry_eq c target entry = true ->
  exists i y,
    index_in entry_eq c target entry = OK i
    /\ item target i = OK y
    /\ In y target
    /\ entry_eq y entry = true.
Proof.
  destruct c; simpl; try apply index_of_found.
  intros Hc. destruct (sl_index_found _ _ Hc) as (y & _ & Hi & Hitem & Hin & Heq).
  eauto 6.
Qed.

(** The call finds an equal entry: the pack is left as it is. *)
Lemma add_or_get_entry_found entry c p :
  target_of entry = OK c ->
  contains_in entry_eq c (get_target p c) entry = true ->
  exists y,
    add_or_get_entry entry_eq entry p = (p, OK y)
    /\ In y (get_target p c)
    /\ entry_eq y entry = true.
Proof.
  intros Hc Hin. unfold add_or_get_entry, exec_bind, exec_lift, exec_get.
  rewrite Hc, Hin. simpl.
  destruct (index_in_found _ _ _ Hin) as (i & y & -> & -> & Hy & Heq).
  exists y. auto.
Qed.

(** The call finds no equal entry: it is the insertion block. *)
Lemma add_or_get_entry_new entry c p :
  target_of entry = OK c ->
  contains_in entry_eq c (get_target p c) entry = false ->
  add_or_get_entry entry_eq entry p = insert_entry c entry p.
Proof.
  intros Hc Hin. unfold add_or_get_entry, exec_bind, exec_lift, exec_get.
  rewrite Hc, Hin. reflexivity.
Qed.

End AddOrGet.

(** ** Request normalisation *)

Lemma fields_exist_iff p a_type comps fields :
  fields_exist p a_type comps fields = true <-> recorded_by_all p a_type comps fields.
Proof.
  unfold fields_exist, recorded_by_all. rewrite forallb_forall. split.
  - intros H k m c F Hk Hsub Hc Hsel.
    specialize (H (k, m)). simpl in H. rewrite Hsub in H.
    assert (Hin : In (k, m) (map_to_list (internal_metas p))).
    { apply list_elem_of_In, elem_of_map_to_list, Hk. }
    specialize (H Hin). rewrite forallb_forall in H.
    assert (Hin' : In (c, F) (map_to_list (fields_created m))).
    { apply list_elem_of_In, elem_of_map_to_list, Hc. }
    specialize (H (c, F) Hin'). simpl in H. rewrite Hsel in H.
    apply bool_decide_eq_true in H. exact H.
  - intros H [k m] Hin. simpl.
    apply list_elem_of_In, elem_of_map_to_list in Hin.
    destruct (issubclass k a_type) eqn:Hsub; [| reflexivity].
    apply forallb_forall. intros [c F] Hc. simpl.
    apply list_elem_of_In, elem_of_map_to_list in Hc.
    destruct (component_selected comps c) eqn:Hsel; [| reflexivity].
    apply bool_decide_eq_true_2. eapply H; eassumption.
Qed.

(** C3, amended. For a request of the documented shape, with components
    [comps], unit [unit] and fields [fields], [_parse_request_args] returns
    [comps], [unit] and the fields with ["tid"] added when every component
    that [comps] selects and that has recorded fields for the requested
    class or a subclass has recorded all of [fields], and raises [KeyError]
    otherwise.  So a field that such a component has not recorded makes the
    request fail, and a request succeeds when no selected component has
    recorded anything for the class. *)
Theorem parse_request_args_checks_all :
  forall p a_type a_args comps unit fields,
    request_parts a_args = OK (comps, unit, fields) ->
    (recorded_by_all p a_type comps fields ->
     _parse_request_args p a_type a_args = OK (comps, unit, {["tid"]} ∪ fields))
    /\ (~ recorded_by_all p a_type comps fields ->
        _parse_request_args p a_type a_args = Raise KeyError)
    /\ (forall k m c F field,
           internal_metas p !! k = Some m ->
           issubclass k a_type = true ->
           fields_created m !! c = Some F ->
           component_selected comps c = true ->
           field ∈ fields -> field ∉ F ->
           _parse_request_args p a_type a_args = Raise KeyError)
    /\ ((forall k m, internal_metas p !! k = Some m ->
                     issubclass k a_type = true -> fields_created m = ∅) ->
        _parse_request_args p a_type a_args = OK (comps, unit, {["tid"]} ∪ fields)).
Proof.
  intros p a_type a_args comps unit fields Hparts.
  assert (Hno : ~ recorded_by_all p a_type comps fields ->
                _parse_request_args p a_type a_args = Raise KeyError).
  { intros Hn. unfold _parse_request_args. rewrite Hparts. simpl.
    destruct (fields_exist p a_type comps fields) eqn:He; [| reflexivity].
    apply fields_exist_iff in He. contradiction. }
  assert (Hyes : recorded_by_all p a_type comps fields ->
                 _parse_request_args p a_type a_args
                 = OK (comps, unit, {["tid"]} ∪ fields)).
  { intros Hall. apply fields_exist_iff in Hall.
    unfold _parse_request_args. rewrite Hparts. simpl. rewrite Hall. reflexivity. }
  split; [exact Hyes |]. split; [exact Hno |]. split.
  - intros k m c F field Hk Hsub Hc Hsel Hin Hout. apply Hno.
    intros Hall. apply Hout. eapply (Hall k m c F); eassumption.
  - intros Hnone. apply Hyes. intros k m c F Hk Hsub Hc Hsel.
    rewrite (Hnone k m Hk Hsub) in Hc. rewrite lookup_empty in Hc. discriminate.
Qed.

(** C3 as stated fails in both directions.  On a new pack nothing has been
    recorded, and the request for the field [pos_tag] of the tokens made by
    the tagger succeeds.  On a pack where the tagger has recorded [pos_tag]
    for tokens and the tokenizer has not, the unfiltered request for
    [pos_tag] raises [KeyError] although one component has recorded it. *)
Lemma parse_request_args_not_some :
  (_parse_request_args (DataPack_init None) Token
     (ArgDict (Some ["tagger"]) None (Some ["pos_tag"]))
   = OK (Some ["tagger"], None, {["tid"]} ∪ list_to_set ["pos_tag"])
   /\ ~ recorded_by_some (DataPack_init None) Token (Some ["tagger"]) "pos_tag")
  /\ (_parse_request_args pack_two_components Token (ArgFields ["pos_tag"])
      = Raise KeyError
      /\ recorded_by_some pack_two_components Token None "pos_tag").
Proof.
  split; split.
  - vm_compute. reflexivity.
  - intros (k & m & c & F & Hk & _). simpl in Hk. rewrite lookup_empty in Hk.
    discriminate.
  - vm_compute. reflexivity.
  - exists Token, (meta_of pack_two_components Token), "tagger",
      (list_to_set ["pos_tag"; "tid"]).
    split; [vm_compute; reflexivity |].
    split; [reflexivity |].
    split; [vm_compute; reflexivity |].
    split; [reflexivity |].
    rewrite elem_of_list_to_set, list_elem_of_In. simpl. auto.
Qed.

(** Requests that pass, for the two components of [pack_two_components]:
    the tagger has recorded [pos_tag], the tokenizer has not. *)
Lemma parse_request_args_checks_all_witness :
  _parse_request_args pack_two_components Token
    (ArgDict (Some ["tagger"]) None (Some ["pos_tag"]))
  = OK (Some ["tagger"], None, {["tid"]} ∪ list_to_set ["pos_tag"])
  /\ _parse_request_args pack_two_components Token (ArgFields ["pos_tag"])
     = Raise KeyError.
Proof.
  split.
  - apply (proj1 (parse_request_args_checks_all pack_two_components Token
                    (ArgDict (Some ["tagger"]) None (Some ["pos_tag"]))
                    (Some ["tagger"]) None (list_to_set ["pos_tag"]) eq_refl)).
    apply fields_exist_iff. vm_compute. reflexivity.
  - apply (proj1 (proj2 (proj2
             (parse_request_args_checks_all pack_two_components Token
                (ArgFields ["pos_tag"]) None None (list_to_set ["pos_tag"]) eq_refl)))
             Token (meta_of pack_two_components Token) "tokenizer"
             (list_to_set ["tid"]) "pos_tag").
    + vm_compute. reflexivity.
    + reflexivity.
    + vm_compute. reflexivity.
    + reflexivity.
    + rewrite elem_of_list_to_set, list_elem_of_In. simpl. auto.
    + rewrite elem_of_list_to_set, list_elem_of_In. simpl.
      intros [H | []]. discriminate H.
Defined.

(** ** Fetching entries from a pack without annotations *)

Lemma get_entries_empty p entry_type comps :
  annotations p = [] ->
  get_entries p entry_type None comps = ([], Some IndexError).
Proof. intros He. unfold get_entries. rewrite He. reflexivity. Qed.

Lemma generate_annotation_raises np_arrays p a_type a_args data :
  annotations p = [] ->
  (exists e, _generate_annotation_entry_data np_arrays p a_type a_args data None = Raise e)
  /\ (forall comps fields,
         _parse_request_args p a_type a_args = OK (comps, None, fields) ->
         _generate_annotation_entry_data np_arrays p a_type a_args data None = Raise IndexError).
Proof.
  intros He. unfold _generate_annotation_entry_data, annotation_columns.
  destruct (_parse_request_args p a_type a_args) as [[[comps unit] fields] | e];
    simpl; [| split; [eauto | discriminate]].
  rewrite get_entries_empty by exact He.
  destruct unit as [u |]; simpl.
  - split; [| discriminate]. destruct (bool_decide (u ∈ dom data)); simpl; eauto.
  - split; [eauto | reflexivity].
Qed.

Lemma generate_link_raises np_arrays p a_type a_args data :
  annotations p = [] ->
  (exists e, _generate_link_entry_data np_arrays p a_type a_args data None = Raise e)
  /\ (forall comps fields,
         _parse_request_args p a_type a_args = OK (comps, None, fields) ->
         _generate_link_entry_data np_arrays p a_type a_args data None = Raise IndexError).
Proof.
  intros He. unfold _generate_link_entry_data, link_columns, get.
  destruct (_parse_request_args p a_type a_args) as [[[comps unit] fields] | e];
    simpl; [| split; [eauto | discriminate]].
  rewrite get_entries_empty by exact He.
  destruct unit as [u |]; simpl.
  - split; [eauto | discriminate].
  - split; [eauto | reflexivity].
Qed.

Lemma rfold_first_raises {A B : Type} (f : B -> A -> result B) x l b e :
  f b x = Raise e -> rfold f (x :: l) b = Raise e.
Proof. intros H. simpl. rewrite H. reflexivity. Qed.

Lemma add_annotation_data_raises np_arrays p data req :
  annotations p = [] -> exists e, add_annotation_data np_arrays p None data req = Raise e.
Proof.
  intros He. destruct req as [a_type a_args]. unfold add_annotation_data.
  destruct (bool_decide _); [eauto |].
  destruct (proj1 (generate_annotation_raises np_arrays p a_type a_args data He)) as [e ->].
  simpl. eauto.
Qed.

Lemma add_link_data_raises np_arrays p data req :
  annotations p = [] -> exists e, add_link_data np_arrays p None data req = Raise e.
Proof.
  intros He. destruct req as [a_type a_args]. unfold add_link_data.
  destruct (bool_decide _); [eauto |].
  destruct (proj1 (generate_link_raises np_arrays p a_type a_args data He)) as [e ->].
  simpl. eauto.
Qed.

Lemma get_data_document np_arrays p context_type requests offset :
  str_lower context_type = "document" ->
  get_data np_arrays p context_type requests offset
  = match document_record np_arrays p requests with
    | OK data => ([data], None)
    | Raise e => ([], Some e)
    end.
Proof.
  intros Hc. unfold get_data. rewrite bool_decide_eq_true_2 by exact Hc. reflexivity.
Qed.

(** C10, amended. On a pack whose annotation container is empty,
    [get_entries] and [get] with no range annotation yield nothing and end
    with [IndexError], for every entry type and every component filter.
    [get_data] with the ["document"] context then yields no record and
    raises whenever the request holds an annotation kind or a link kind;
    the exception is [IndexError] when the first such kind has a class name
    other than ["context"] and ["offset"] and its arguments pass
    [_parse_request_args] without a unit. *)
Theorem get_entries_empty_pack_raises :
  forall np_arrays p,
    annotations p = [] ->
    (forall entry_type comps,
        get_entries p entry_type None comps = ([], Some IndexError)
        /\ get p entry_type None comps = ([], Some IndexError))
    /\ (forall context_type requests offset,
           str_lower context_type = "document" ->
           annotation_types requests <> [] \/ link_types requests <> [] ->
           exists e, get_data np_arrays p context_type requests offset = ([], Some e))
    /\ (forall context_type requests offset a_type a_args rest comps fields,
           str_lower context_type = "document" ->
           annotation_types requests = (a_type, a_args) :: rest ->
           class_name a_type <> "context" -> class_name a_type <> "offset" ->
           _parse_request_args p a_type a_args = OK (comps, None, fields) ->
           get_data np_arrays p context_type requests offset = ([], Some IndexError))
    /\ (forall context_type requests offset l_type l_args rest comps fields,
           str_lower context_type = "document" ->
           annotation_types requests = [] ->
           link_types requests = (l_type, l_args) :: rest ->
           class_name l_type <> "context" -> class_name l_type <> "offset" ->
           _parse_request_args p l_type l_args = OK (comps, None, fields) ->
           get_data np_arrays p context_type requests offset = ([], Some IndexError)).
Proof.
  intros np_arrays p He.
  assert (Hdom : forall n : string,
             n <> "context" -> n <> "offset" ->
             bool_decide (n ∈ dom (<["offset" := DVal (VInt 0)]>
                                     (<["context" := DVal (VStr (text p))]>
                                        (∅ : gmap string datum)))) = false).
  { intros n H1 H2. apply bool_decide_eq_false_2.
    rewrite !dom_insert_L, dom_empty_L.
    rewrite !elem_of_union, !elem_of_singleton, elem_of_empty. tauto. }
  split; [| split; [| split]].
  - intros entry_type comps. unfold get.
    split; apply get_entries_empty, He.
  - intros context_type requests offset Hc Hreq.
    rewrite get_data_document by exact Hc. unfold document_record.
    destruct (annotation_types requests) as [| req rest] eqn:Ha.
    + destruct Hreq as [Hreq | Hreq]; [congruence |].
      destruct (link_types requests) as [| req rest]; [congruence |]. simpl.
      destruct (add_link_data_raises np_arrays p
                  (<["offset" := DVal (VInt 0)]>
                     (<["context" := DVal (VStr (text p))]> ∅)) req He) as [e ->].
      simpl. eauto.
    + simpl.
      destruct (add_annotation_data_raises np_arrays p
                  (<["offset" := DVal (VInt 0)]>
                     (<["context" := DVal (VStr (text p))]> ∅)) req He) as [e ->].
      simpl. eauto.
  - intros context_type requests offset a_type a_args rest comps fields
      Hc Ha Hn1 Hn2 Hparse.
    rewrite get_data_document by exact Hc. unfold document_record.
    rewrite Ha. simpl. rewrite (Hdom _ Hn1 Hn2).
    rewrite (proj2 (generate_annotation_raises np_arrays p a_type a_args _ He)
               comps fields Hparse).
    reflexivity.
  - intros context_type requests offset l_type l_args rest comps fields
      Hc Ha Hl Hn1 Hn2 Hparse.
    rewrite get_data_document by exact Hc. unfold document_record.
    rewrite Ha, Hl. simpl. rewrite (Hdom _ Hn1 Hn2).
    rewrite (proj2 (generate_link_raises np_arrays p l_type l_args _ He)
               comps fields Hparse).
    reflexivity.
Qed.

(** C10 as stated fails for [get_data]: on a new pack, whose annotation
    container is empty, the ["document"] context with a request that holds
    one group kind yields its record and raises nothing. *)
Lemma get_data_document_groups_only :
  annotations (DataPack_init None) = []
  /\ forall np_arrays,
      get_data np_arrays (DataPack_init None) "document"
        (Some [(CoreferenceGroup, ArgFields [])]) 0
      = ([<["offset" := DVal (VInt 0)]> (<["context" := DVal (VStr "")]> ∅)], None).
Proof. split; [reflexivity | intros np_arrays; vm_compute; reflexivity]. Qed.

(** On a new pack: the three fetches raise [IndexError]. *)
Lemma get_entries_empty_pack_raises_witness :
  get_entries (DataPack_init None) Token None None = ([], Some IndexError)
  /\ get (DataPack_init None) Link_class None (Some (CompStr "parser"))
     = ([], Some IndexError)
  /\ get_data arrays_as_lists (DataPack_init None) "Document"
       (Some [(Token, ArgFields [])]) 0
     = ([], Some IndexError).
Proof.
  pose proof (get_entries_empty_pack_raises arrays_as_lists (DataPack_init None) eq_refl)
    as (Hentries & _ & Hdata & _).
  split; [apply Hentries |]. split; [apply Hentries |].
  apply (Hdata "Document" (Some [(Token, ArgFields [])]) 0 Token (ArgFields []) []
           None ({["tid"]} ∪ list_to_set []));
    try reflexivity; try discriminate.
Defined.

(** ** Conditional insertion *)

Lemma span_lt_irrefl a : span_lt a a = false.
Proof.
  unfold span_lt. rewrite !Z.ltb_irrefl, andb_false_r. reflexivity.
Qed.

Lemma span_lt_total a b : a <> b -> span_lt a b = false -> span_lt b a = true.
Proof.
  destruct a as [ab ae], b as [bb be]. unfold span_lt. simpl. intros Hne H.
  apply orb_false_iff in H as [H1 H2]. apply Z.ltb_ge in H1.
  apply orb_true_iff.
  destruct (Z.eq_dec ab bb) as [-> | Hb].
  - right. rewrite Z.eqb_refl in H2 |- *. simpl in *. apply Z.ltb_ge in H2.
    apply Z.ltb_lt. assert (ae <> be) by congruence. lia.
  - left. apply Z.ltb_lt. lia.
Qed.

(** An annotation added to a sorted list that holds no annotation of its
    span is where the search for any entry of that span arrives. *)
Lemma sl_bisect_left_add m e l :
  key_span m = key_span e ->
  Forall (fun y => key_span y <> key_span e) l ->
  sl_add m l !! sl_bisect_left e (sl_add m l) = Some m.
Proof.
  intros Hk Hl.
  assert (Hme : entry_lt m e = false).
  { unfold entry_lt. rewrite Hk. apply span_lt_irrefl. }
  induction Hl as [| y l Hy _ IH]; simpl.
  - rewrite Hme. reflexivity.
  - destruct (entry_lt m y) eqn:Hmy; simpl.
    + rewrite Hme. reflexivity.
    + assert (Hye : entry_lt y e = true).
      { unfold entry_lt in *. rewrite Hk in Hmy.
        apply span_lt_total; [congruence | exact Hmy]. }
      rewrite Hye. simpl. exact IH.
Qed.

Section Conditional.

Variable entry_eq : Entry -> Entry -> bool.

(** X27 (add_or_get_entry that finds the entry).  (1) For a link or a
    group, when some stored entry of the container equals the argument,
    the call returns a stored entry that equals the argument and leaves the
    pack as it is.  (2) For an annotation, the call looks at the first
    stored annotation that is not ordered before the argument: when that
    one equals the argument, the call returns it and leaves the pack as it
    is.  (3) Two calls in a row with equal entries that equal no entry
    found before, on a pack whose link index is usable, return the same
    entry, hence the same tid, and the container gains exactly one entry:
    for links and groups always, for annotations when the pack holds no
    annotation of their span. *)
Theorem add_or_get_entry_finds :
  (forall p entry c x,
      target_of entry = OK c -> c <> CAnnotations ->
      In x (get_target p c) ->
      entry_eq x entry = true ->
      exists y,
        add_or_get_entry entry_eq entry p = (p, OK y)
        /\ In y (get_target p c)
        /\ entry_eq y entry = true)
  /\ (forall p entry x,
         target_of entry = OK CAnnotations ->
         annotations p !! sl_bisect_left entry (annotations p) = Some x ->
         entry_eq x entry = true ->
         add_or_get_entry entry_eq entry p = (p, OK x))
  /\ (forall p e1 e2 c,
         link_index_ready (index p) ->
         target_of e1 = OK c ->
         target_of e2 = OK c ->
         contains_in entry_eq c (get_target p c) e1 = false ->
         entry_eq (minted p e1) e2 = true ->
         match c with
         | CAnnotations =>
             key_span e1 = key_span e2
             /\ Forall (fun y => key_span y <> key_span e2) (annotations p)
         | _ => contains entry_eq (get_target p c) e2 = false
         end ->
         exists p1,
           add_or_get_entry entry_eq e1 p = (p1, OK (minted p e1))
           /\ add_or_get_entry entry_eq e2 p1 = (p1, OK (minted p e1))
           /\ length (get_target p1 c) = S (length (get_target p c))
           /\ forall c', c' <> c -> get_target p1 c' = get_target p c').
Proof.
  split; [| split].
  - intros p entry c x Hc Hne Hin Heq.
    apply add_or_get_entry_found; [exact Hc |].
    destruct c; [contradiction | |]; apply contains_true; eauto.
  - intros p entry x Hc Hx Heq.
    unfold add_or_get_entry, exec_bind, exec_lift, exec_get. rewrite Hc.
    simpl. unfold sl_contains, sl_index, item. rewrite Hx, Heq. simpl.
    rewrite Hx. reflexivity.
  - intros p e1 e2 c Hr Hc1 Hc2 Hn1 Heq Hfree.
    rewrite (add_or_get_entry_new entry_eq e1 c p Hc1 Hn1).
    destruct (insert_entry_ready c e1 p Hr) as [Hres _].
    pose proof (insert_entry_target c c e1 p) as Ht.
    pose proof (fun c' => insert_entry_target c c' e1 p) as Hothers.
    destruct (insert_entry c e1 p) as [p1 r1]. simpl in *. subst r1.
    exists p1. split; [reflexivity |].
    assert (Hlen : length (get_target p1 c) = S (length (get_target p c))).
    { rewrite Ht, store_target_length.
      rewrite bool_decide_eq_true_2 by reflexivity. reflexivity. }
    assert (Hoth : forall c', c' <> c -> get_target p1 c' = get_target p c').
    { intros c' Hne. rewrite Hothers. destruct c, c'; simpl; congruence. }
    split; [| split; assumption].
    destruct c.
    + destruct Hfree as [Hk Hl].
      assert (Hland : annotations p1 !! sl_bisect_left e2 (annotations p1)
                      = Some (minted p e1)).
      { change (annotations p1) with (get_target p1 CAnnotations). rewrite Ht. simpl.
        apply sl_bisect_left_add; [| exact Hl].
        rewrite <- Hk. reflexivity. }
      unfold add_or_get_entry, exec_bind, exec_lift, exec_get. rewrite Hc2.
      simpl. unfold sl_contains, sl_index, item. rewrite Hland, Heq. simpl.
      rewrite Hland. reflexivity.
    + assert (Hin : contains_in entry_eq CLinks (get_target p1 CLinks) e2 = true).
      { apply contains_true. exists (minted p e1). split; [| exact Heq].
        rewrite Ht. apply store_target_In. left. auto. }
      destruct (add_or_get_entry_found entry_eq e2 _ p1 Hc2 Hin) as (y & -> & Hy & Hyeq).
      assert (y = minted p e1) as ->; [| reflexivity].
      rewrite Ht in Hy. apply store_target_In in Hy as [[_ Hy] | Hy]; [exact Hy |].
      assert (contains entry_eq (get_target p CLinks) e2 = true) as Hc
        by (apply contains_true; eauto).
      congruence.
    + assert (Hin : contains_in entry_eq CGroups (get_target p1 CGroups) e2 = true).
      { apply contains_true. exists (minted p e1). split; [| exact Heq].
        rewrite Ht. apply store_target_In. left. auto. }
      destruct (add_or_get_entry_found entry_eq e2 _ p1 Hc2 Hin) as (y & -> & Hy & Hyeq).
      assert (y = minted p e1) as ->; [| reflexivity].
      rewrite Ht in Hy. apply store_target_In in Hy as [[_ Hy] | Hy]; [exact Hy |].
      assert (contains entry_eq (get_target p CGroups) e2 = true) as Hc
        by (apply contains_true; eauto).
      congruence.
Qed.

End Conditional.


(** ** The lazy link index against the eager one *)

Lemma dd_get_dd_add `{Countable K} (m : gmap K (gset string)) (k : K) x t :
  dd_get (dd_add m k x) t = if bool_decide (k = t) then {[x]} ∪ dd_get m t else dd_get m t.
Proof.
  unfold dd_add, dd_get at 1. case_bool_decide as Hk.
  - subst. rewrite lookup_insert_eq. reflexivity.
  - rewrite lookup_insert_ne by exact Hk. reflexivity.
Qed.

Lemma fold_parent_step_elem links M t x :
  x ∈ dd_get (fold_left parent_step links M) t
  <-> x ∈ dd_get M t \/ exists l, In l links /\ tid l = x /\ link_parent l = OK t.
Proof.
  revert M. induction links as [| l links IH]; intros M; simpl.
  - split; [auto | intros [H | (l & [] & _)]; exact H].
  - rewrite IH. unfold parent_step, link_parent at 2.
    split.
    + intros [H | (l' & Hin & Ht & Hp)]; [| right; eauto].
      destruct (body l) as [| pa ca pt ct | |] eqn:Hb; auto.
      rewrite dd_get_dd_add in H. case_bool_decide as Hk; auto.
      apply elem_of_union in H as [H | H]; auto.
      apply elem_of_singleton in H. subst.
      right. exists l. unfold link_parent. rewrite Hb. auto.
    + intros [H | (l' & [<- | Hin] & Ht & Hp)].
      * left. destruct (body l); auto.
        rewrite dd_get_dd_add. case_bool_decide; auto.
        apply elem_of_union. auto.
      * left. unfold link_parent in Hp.
        destruct (body l) as [| pa ca pt ct | |]; try discriminate.
        injection Hp as ->. rewrite dd_get_dd_add.
        rewrite bool_decide_eq_true_2 by reflexivity.
        apply elem_of_union. left. apply elem_of_singleton. auto.
      * right. eauto.
Qed.

Lemma fold_child_step_elem links M t x :
  x ∈ dd_get (fold_left child_step links M) t
  <-> x ∈ dd_get M t \/ exists l, In l links /\ tid l = x /\ link_child l = OK t.
Proof.
  revert M. induction links as [| l links IH]; intros M; simpl.
  - split; [auto | intros [H | (l & [] & _)]; exact H].
  - rewrite IH. unfold child_step, link_child at 2.
    split.
    + intros [H | (l' & Hin & Ht & Hp)]; [| right; eauto].
      destruct (body l) as [| pa ca pt ct | |] eqn:Hb; auto.
      rewrite dd_get_dd_add in H. case_bool_decide as Hk; auto.
      apply elem_of_union in H as [H | H]; auto.
      apply elem_of_singleton in H. subst.
      right. exists l. unfold link_child. rewrite Hb. auto.
    + intros [H | (l' & [<- | Hin] & Ht & Hp)].
      * left. destruct (body l); auto.
        rewrite dd_get_dd_add. case_bool_decide; auto.
        apply elem_of_union. auto.
      * left. unfold link_child in Hp.
        destruct (body l) as [| pa ca pt ct | |]; try discriminate.
        injection Hp as ->. rewrite dd_get_dd_add.
        rewrite bool_decide_eq_true_2 by reflexivity.
        apply elem_of_union. left. apply elem_of_singleton. auto.
      * right. eauto.
Qed.

Lemma same_store_sym p q : same_store p q -> same_store q p.
Proof. unfold same_store. intros (?&?&?&?&?&?). repeat split; congruence. Qed.

Lemma same_store_minted p q entry : same_store p q -> minted p entry = minted q entry.
Proof.
  intros (_&_&_&_&_&Hm). unfold minted, meta_of. rewrite Hm. reflexivity.
Qed.

Lemma same_store_target p q c : same_store p q -> get_target p c = get_target q c.
Proof. intros (_&Ha&Hl&Hg&_). destruct c; simpl; congruence. Qed.

Lemma same_store_insert c entry p q :
  same_store p q -> same_store (insert_entry c entry p).1 (insert_entry c entry q).1.
Proof.
  intros Hs.
  eapply same_store_trans; [apply insert_entry_same_store |].
  eapply same_store_trans; [| apply same_store_sym, insert_entry_same_store].
  rewrite (same_store_minted p q entry Hs).
  destruct Hs as (Ht&Ha&Hl&Hg&Hm&Him).
  unfold bump_counter, meta_of. destruct c; repeat split; simpl; congruence.
Qed.

Lemma insert_entry_links c entry p :
  target_of entry = OK c ->
  links (insert_entry c entry p).1
  = (if bool_decide (c = CLinks) then (links p ++ [minted p entry])%list else links p)
  /\ (c = CLinks <-> is_link (minted p entry)).
Proof.
  intros Hc. destruct (insert_entry_same_store c entry p) as (_ & _ & -> & _).
  split.
  - destruct c; reflexivity.
  - unfold target_of in Hc. unfold is_link, variant_of, minted. simpl.
    destruct (body entry); try discriminate Hc;
      injection Hc as <-; split; congruence.
Qed.

Section LazyEager.

Variable entry_eq : Entry -> Entry -> bool.

Lemma run_insert_same_branch op p q :
  same_store p q ->
  ((run_insert entry_eq op p).1 = p /\ (run_insert entry_eq op q).1 = q)
  \/ exists c entry,
      target_of entry = OK c
      /\ run_insert entry_eq op p = insert_entry c entry p
      /\ run_insert entry_eq op q = insert_entry c entry q.
Proof.
  intros Hs. destruct op as [entry | entry]; simpl.
  - unfold add_entry, exec_bind, exec_lift.
    destruct (target_of entry) as [c |] eqn:Hc; [right; eauto | left; auto].
  - unfold add_or_get_entry, exec_bind, exec_lift, exec_get.
    destruct (target_of entry) as [c |] eqn:Hc; [| left; auto].
    rewrite <- (same_store_target p q c Hs).
    destruct (contains_in entry_eq c (get_target p c) entry); simpl.
    + left. destruct (index_in _ _ _ _) as [i |]; [| auto].
      destruct (item _ _); auto.
    + right. eauto.
Qed.

Lemma lazy_eager_start p :
  _link_index_switch (index p) = false ->
  Forall is_link (links p) ->
  lazy_eager p (eager_build p).
Proof.
  intros Hoff Hl. unfold lazy_eager, eager_build, on_index.
  rewrite (update_link_index_rebuild (links p) (links p) (index p) Hoff Hl). simpl.
  split; [repeat split |]. split; [exact Hoff |]. split; [| exact Hl].
  split; [reflexivity |].
  split; [apply set_maps_lookup_child | apply set_maps_lookup_parent].
Qed.

Lemma lazy_eager_step op p q :
  lazy_eager p q ->
  lazy_eager (run_insert entry_eq op p).1 (run_insert entry_eq op q).1.
Proof.
  intros (Hs & Hoff & Hh & Hl).
  destruct (run_insert_same_branch op p q Hs)
    as [[-> ->] | (c & entry & Hc & -> & ->)];
    [exact (conj Hs (conj Hoff (conj Hh Hl))) |].
  pose proof (same_store_minted p q entry Hs) as Hm.
  destruct (insert_entry_links c entry p Hc) as [Hlp Hcl].
  destruct (insert_entry_links c entry q Hc) as [Hlq _].
  split; [apply same_store_insert, Hs |]. split; [| split].
  - rewrite insert_entry_unfold.
    destruct (stored_pack_link c entry p) as [_ Hsw].
    destruct (relation_updates_off (minted p entry) (stored_pack c entry p))
      as [[_ Hsw'] _]; congruence.
  - rewrite insert_entry_unfold in Hlq |- *.
    destruct (stored_pack_link c entry q) as [Hli Hsw].
    destruct (relation_updates_on (minted q entry) (stored_pack c entry q)
                (fold_left child_step (links q) ∅) (fold_left parent_step (links q) ∅))
      as [Hh' _].
    { destruct Hh as (?&?&?). unfold link_index_holds. rewrite Hli, Hsw. auto. }
    rewrite Hlq. case_bool_decide as Hcase.
    + rewrite !fold_left_app. exact Hh'.
    + rewrite <- Hm in Hh' |- *.
      rewrite child_step_other, parent_step_other in Hh' by tauto. exact Hh'.
  - rewrite Hlp. case_bool_decide as Hcase; [| exact Hl].
    apply Forall_app. split; [exact Hl |].
    constructor; [tauto | constructor].
Qed.

Lemma lazy_eager_run ops p q :
  lazy_eager p q ->
  lazy_eager (run_inserts entry_eq ops p) (run_inserts entry_eq ops q).
Proof.
  revert p q. induction ops as [| op ops IH]; intros p q H; simpl; [exact H |].
  apply IH, lazy_eager_step, H.
Qed.

Lemma lazy_eager_lookup p q t as_parent :
  lazy_eager p q ->
  (link_index t as_parent p).2 = (link_index t as_parent q).2
  /\ (link_index t as_parent p).2
     = OK (dd_get (fold_left (if as_parent then parent_step else child_step)
                     (links p) ∅) t).
Proof.
  intros (Hs & Hoff & (Hon & HC & HP) & Hl).
  assert (Hq : (link_index t as_parent q).2
               = OK (dd_get (fold_left (if as_parent then parent_step else child_step)
                               (links p) ∅) t)).
  { destruct Hs as (_ & _ & Hlinks & _). rewrite Hlinks.
    unfold link_index, exec_bind, exec_get, exec_lift, exec_ret. rewrite Hon. simpl.
    unfold dict_get. destruct as_parent; [rewrite HP | rewrite HC]; reflexivity. }
  assert (Hp : (link_index t as_parent p).2
               = OK (dd_get (fold_left (if as_parent then parent_step else child_step)
                               (links p) ∅) t)).
  { unfold link_index, exec_bind, exec_get, exec_lift, exec_ret. rewrite Hoff. simpl.
    unfold on_index.
    rewrite (update_link_index_rebuild (links p) (links p) (index p) Hoff Hl). simpl.
    unfold dict_get. destruct as_parent;
      [rewrite set_maps_lookup_parent | rewrite set_maps_lookup_child]; reflexivity. }
  split; [congruence | exact Hp].
Qed.

(** C2. Take a pack whose link index has not been built and whose link
    container holds links, and any sequence of inserts.  The first link
    lookup after the inserts (which builds the index from the link
    container) and the same lookup in the run where the index is built
    before the inserts and updated by each insert return the same set, for
    every tid and for both the parent and the child index; this set holds
    the tids of the stored links whose parent (child) is the tid asked for. *)
Theorem lazy_link_index_equals_eager :
  forall p ops t as_parent,
    _link_index_switch (index p) = false ->
    Forall is_link (links p) ->
    (link_index t as_parent (run_inserts entry_eq ops p)).2
    = (link_index t as_parent (run_inserts entry_eq ops (eager_build p))).2
    /\ exists s,
        (link_index t as_parent (run_inserts entry_eq ops p)).2 = OK s
        /\ forall x,
            x ∈ s <-> exists l, In l (links (run_inserts entry_eq ops p))
                                /\ tid l = x /\ link_end as_parent l = OK t.
Proof.
  intros p ops t as_parent Hoff Hl.
  pose proof (lazy_eager_run ops _ _ (lazy_eager_start p Hoff Hl)) as Hle.
  destruct (lazy_eager_lookup _ _ t as_parent Hle) as [Heq Hres].
  split; [exact Heq |]. eexists. split; [exact Hres |].
  intros x. destruct as_parent; simpl.
  - rewrite fold_parent_step_elem. unfold dd_get at 1. rewrite lookup_empty. simpl.
    rewrite elem_of_empty. tauto.
  - rewrite fold_child_step_elem. unfold dd_get at 1. rewrite lookup_empty. simpl.
    rewrite elem_of_empty. tauto.
Qed.

End LazyEager.

(** Two tokens and a link between them, inserted into a new pack: the
    lazy and the eager parent lookups of the first token agree. *)
Lemma lazy_link_index_equals_eager_witness :
  (link_index "0" true
     (run_inserts same_content
        [AddEntry token_0_5; AddEntry token_6_11; AddOrGetEntry dependency_0_1]
        (DataPack_init None))).2
  = (link_index "0" true
       (run_inserts same_content
          [AddEntry token_0_5; AddEntry token_6_11; AddOrGetEntry dependency_0_1]
          (eager_build (DataPack_init None)))).2.
Proof.
  apply (lazy_link_index_equals_eager same_content (DataPack_init None)
           [AddEntry token_0_5; AddEntry token_6_11; AddOrGetEntry dependency_0_1]
           "0" true).
  - reflexivity.
  - simpl. constructor.
Defined.

(** ** The sentence context *)






Lemma elem_of_get_ids_by_type p tp t :
  t ∈ get_ids_by_type p tp
  <-> exists k, issubclass k tp = true /\ t ∈ dd_get (type_index (index p)) k.
Proof.
  unfold get_ids_by_type. rewrite elem_of_union_list. split.
  - intros (X & HX & Ht). apply list_elem_of_In, in_map_iff in HX as ([k s] & <- & Hin).
    simpl in Ht. apply list_elem_of_In, elem_of_map_to_list in Hin.
    destruct (issubclass k tp) eqn:Hsub; [| apply elem_of_empty in Ht; contradiction].
    exists k. split; [exact Hsub |]. unfold dd_get. rewrite Hin. exact Ht.
  - intros (k & Hsub & Ht). unfold dd_get in Ht.
    destruct (type_index (index p) !! k) as [s |] eqn:Hk;
      [| apply elem_of_empty in Ht; contradiction].
    exists s. split; [| exact Ht].
    apply list_elem_of_In, in_map_iff. exists (k, s). simpl. rewrite Hsub.
    split; [reflexivity |]. apply list_elem_of_In, elem_of_map_to_list, Hk.
Qed.
















(** ** Consistent packs *)

Lemma In_stored p e : In e (stored p) <-> exists c, In e (get_target p c).
Proof.
  unfold stored. rewrite !in_app_iff. split.
  - intros [H | [H | H]];
      [exists CAnnotations | exists CLinks | exists CGroups]; exact H.
  - intros ([] & H); simpl in H; auto.
Qed.

Lemma In_stored_insert c entry p e :
  In e (stored (insert_entry c entry p).1) <-> e = minted p entry \/ In e (stored p).
Proof.
  rewrite !In_stored. split.
  - intros (c' & H). rewrite insert_entry_target in H.
    apply store_target_In in H as [[_ ->] | H]; eauto.
  - intros [-> | (c' & H)].
    + exists c. rewrite insert_entry_target. apply store_target_In. auto.
    + exists c'. rewrite insert_entry_target. apply store_target_In. auto.
Qed.

Lemma elem_of_dd_add `{Countable K} (m : gmap K (gset string)) (k0 k : K) t0 t :
  t ∈ dd_get (dd_add m k0 t0) k <-> (k0 = k /\ t = t0) \/ t ∈ dd_get m k.
Proof.
  rewrite dd_get_dd_add. case_bool_decide as Hk.
  - rewrite elem_of_union, elem_of_singleton. tauto.
  - tauto.
Qed.

Lemma pack_consistent_init doc : pack_consistent (DataPack_init doc).
Proof.
  repeat split; simpl; try constructor.
  - unfold dd_get. rewrite lookup_empty. simpl. intros H.
    apply elem_of_empty in H. contradiction.
  - intros (e & [] & _).
  - unfold dd_get. rewrite lookup_empty. simpl. intros H.
    apply elem_of_empty in H. contradiction.
  - intros (e & [] & _).
Qed.

Lemma pack_consistent_set_text p new_text :
  pack_consistent p -> pack_consistent (set_text p new_text).1.
Proof. intros H. exact H. Qed.

Lemma pack_consistent_record_fields p fields entry_type comp :
  pack_consistent p -> pack_consistent (record_fields p fields entry_type comp).1.
Proof. intros H. exact H. Qed.

Lemma pack_consistent_insert c entry p :
  target_of entry = OK c ->
  pack_consistent p -> pack_consistent (insert_entry c entry p).1.
Proof.
  intros Hc (Hti & Hci & Ha & Hs).
  destruct (insert_entry_basic c entry p) as (_ & Htype & Hcomp).
  split; [| split; [| split]].
  - intros t k. rewrite Htype. simpl. rewrite elem_of_dd_add, Hti. split.
    + intros [[<- ->] | (e & He & Ht & Hk)].
      * exists (minted p entry). split; [apply In_stored_insert; auto | auto].
      * exists e. split; [apply In_stored_insert; auto | auto].
    + intros (e & He & Ht & Hk). apply In_stored_insert in He as [-> | He]; eauto.
  - intros t k. rewrite Hcomp. simpl. rewrite elem_of_dd_add, Hci. split.
    + intros [[<- ->] | (e & He & Ht & Hk)].
      * exists (minted p entry). split; [apply In_stored_insert; auto | auto].
      * exists e. split; [apply In_stored_insert; auto | auto].
    + intros (e & He & Ht & Hk). apply In_stored_insert in He as [-> | He]; eauto.
  - rewrite insert_entry_annotations. destruct c; auto.
    apply sl_add_Forall; [| exact Ha].
    apply (target_of_annotation _ _ Hc). reflexivity.
  - rewrite insert_entry_annotations. destruct c; auto.
    apply sl_add_sorted, Hs.
Qed.

Lemma pack_consistent_run entry_eq ops p :
  pack_consistent p -> pack_consistent (run_inserts entry_eq ops p).
Proof.
  revert p. induction ops as [| op ops IH]; intros p Hp; simpl; [exact Hp |].
  apply IH.
  destruct (run_insert_cases entry_eq op p) as [-> | (c & entry & Hc & ->)];
    [exact Hp | apply pack_consistent_insert; assumption].
Qed.




(** * Further properties of the code *)

(** ** Span algebra: the other operands *)

Lemma overlap_operand_entry idx e s :
  body e = Annotation s -> overlap_operand idx (inr e) = OK s.
Proof. intros H. simpl. rewrite H. reflexivity. Qed.

Lemma overlap_operand_tid idx t e s :
  entry_index idx !! t = Some e -> body e = Annotation s ->
  overlap_operand idx (inl t) = OK s.
Proof. intros Ht H. simpl. unfold dict_get. rewrite Ht. simpl. rewrite H. reflexivity. Qed.

(** X1. [have_overlap] on operands that both resolve to annotations, given
    as tids or as entries: the answer is the overlap test on the two spans,
    it does not depend on the order of the operands, and an operand overlaps
    itself exactly when its span is not empty ([begin < end]). *)
Theorem have_overlap_resolved :
  forall idx x y sx sy,
    overlap_operand idx x = OK sx ->
    overlap_operand idx y = OK sy ->
    have_overlap idx x y = OK (spans_overlap sx sy)
    /\ have_overlap idx y x = have_overlap idx x y
    /\ (have_overlap idx x x = OK true <-> span_begin sx < span_end sx).
Proof.
  intros idx x y sx sy Hx Hy. unfold have_overlap. rewrite Hx, Hy. simpl.
  split; [reflexivity |]. split.
  - unfold spans_overlap. rewrite orb_comm. reflexivity.
  - split.
    + intros [= H]. rewrite negb_true_iff, orb_false_iff, !Z.leb_gt in H. lia.
    + intros H. f_equal. rewrite negb_true_iff, orb_false_iff, !Z.leb_gt. lia.
Qed.

(** The token ["0"] given by tid and the token ["1"] given as an entry. *)
Lemma have_overlap_resolved_witness :
  have_overlap index_two_tokens (inl "0") (inr (token_tid "1" 6 11)) = OK false
  /\ have_overlap index_two_tokens (inr (token_tid "1" 6 11)) (inl "0")
     = have_overlap index_two_tokens (inl "0") (inr (token_tid "1" 6 11)).
Proof.
  destruct (have_overlap_resolved index_two_tokens (inl "0")
              (inr (token_tid "1" 6 11)) (mkSpan 0 5) (mkSpan 6 11))
    as (H1 & H2 & _).
  - vm_compute. reflexivity.
  - reflexivity.
  - split; [exact H1 | exact H2].
Defined.

(** X2. The failures of [have_overlap]: an operand given by a tid that the
    index does not know raises [KeyError]; an operand that is not an
    annotation, given as an entry or by its tid, raises [TypeError]; this
    holds for the first operand, whatever the second one is, and for the
    second operand when the first one is an annotation: the first operand
    is checked first. *)
Theorem have_overlap_failures :
  forall idx y,
    (forall t, entry_index idx !! t = None ->
               have_overlap idx (inl t) y = Raise KeyError)
    /\ (forall e, variant_of e <> VAnnotation ->
                  have_overlap idx (inr e) y = Raise TypeError)
    /\ (forall t e, entry_index idx !! t = Some e -> variant_of e <> VAnnotation ->
                    have_overlap idx (inl t) y = Raise TypeError)
    /\ (forall x sx e, overlap_operand idx x = OK sx -> variant_of e <> VAnnotation ->
                       have_overlap idx x (inr e) = Raise TypeError)
    /\ (forall x sx t, overlap_operand idx x = OK sx -> entry_index idx !! t = None ->
                       have_overlap idx x (inl t) = Raise KeyError)
    /\ (forall x sx t e, overlap_operand idx x = OK sx ->
                         entry_index idx !! t = Some e -> variant_of e <> VAnnotation ->
                         have_overlap idx x (inl t) = Raise TypeError).
Proof.
  intros idx y. unfold have_overlap. repeat split.
  - intros t Ht. simpl. unfold dict_get. rewrite Ht. reflexivity.
  - intros e He. simpl. unfold variant_of in He.
    destruct (body e); try reflexivity. congruence.
  - intros t e Ht He. simpl. unfold dict_get. rewrite Ht. simpl.
    unfold variant_of in He. destruct (body e); try reflexivity. congruence.
  - intros x sx e Hx He. rewrite Hx. simpl. unfold variant_of in He.
    destruct (body e); try reflexivity. congruence.
  - intros x sx t Hx Ht. rewrite Hx. simpl. unfold dict_get. rewrite Ht. reflexivity.
  - intros x sx t e Hx Ht He. rewrite Hx. simpl. unfold dict_get. rewrite Ht. simpl.
    unfold variant_of in He. destruct (body e); try reflexivity. congruence.
Qed.

(** Both operands of [have_overlap] fail: the first failure is the one
    raised. *)
Lemma have_overlap_failures_witness :
  have_overlap index_two_tokens (inl "7") (inr link_0_1) = Raise KeyError
  /\ have_overlap index_two_tokens (inr link_0_1) (inl "7") = Raise TypeError
  /\ have_overlap index_two_tokens (inl "0") (inl "7") = Raise KeyError.
Proof.
  destruct (have_overlap_failures index_two_tokens (inr link_0_1)) as (H1 & _).
  destruct (have_overlap_failures index_two_tokens (inl "7"))
    as (_ & H2 & _ & _ & H5 & _).
  split; [apply H1; reflexivity |].
  split; [apply H2; discriminate |].
  apply (H5 (inl "0") (mkSpan 0 5) "7"); reflexivity.
Defined.

(** X3. [in_span] on a link whose child and parent tids resolve to
    annotations: the link is in the span exactly when both the child and
    the parent are. *)
Theorem in_span_link_both :
  forall idx link p c pt ct child parent sc sp span,
    body link = Link p c pt ct ->
    entry_index idx !! c = Some child -> body child = Annotation sc ->
    entry_index idx !! p = Some parent -> body parent = Annotation sp ->
    in_span idx (inr link) span = OK (span_within sc span && span_within sp span).
Proof.
  intros idx link p c pt ct child parent sc sp span Hl Hc Hsc Hp Hsp.
  unfold in_span. simpl. rewrite Hl. unfold resolve, dict_get. rewrite Hc, Hp. simpl.
  unfold span_of. rewrite Hsc, Hsp. simpl. f_equal. unfold span_within.
  apply eq_true_iff_eq. rewrite !andb_true_iff, !Z.leb_le. lia.
Qed.

Lemma in_span_link_both_witness :
  in_span index_two_tokens (inr link_0_1) (mkSpan 0 11) = OK true
  /\ in_span index_two_tokens (inr link_0_1) (mkSpan 0 8) = OK false.
Proof.
  split.
  - apply (in_span_link_both index_two_tokens link_0_1 "0" "1" Token Token
             (token_tid "1" 6 11) (token_tid "0" 0 5) (mkSpan 6 11) (mkSpan 0 5)
             (mkSpan 0 11)); vm_compute; reflexivity.
  - apply (in_span_link_both index_two_tokens link_0_1 "0" "1" Token Token
             (token_tid "1" 6 11) (token_tid "0" 0 5) (mkSpan 6 11) (mkSpan 0 5)
             (mkSpan 0 8)); vm_compute; reflexivity.
Defined.

Lemma group_extent_from mems b e :
  0 <= b -> -1 <= e ->
  Forall nonneg_annotation mems ->
  exists b' e',
    group_extent mems b e = OK (b', e')
    /\ 0 <= b' /\ -1 <= e'
    /\ (forall x, x <= b' <->
                  x <= b /\ Forall (fun m => x <= span_begin (key_span m)) mems)
    /\ (forall y, e' <= y <->
                  e <= y /\ Forall (fun m => span_end (key_span m) <= y) mems).
Proof.
  intros Hb He Hm. revert b e Hb He.
  induction Hm as [| m mems (s & Hs & Hsb & Hse) Hm IH]; intros b e Hb He; simpl.
  - exists b, e. repeat split; try tauto; try constructor; lia.
  - unfold span_of. rewrite Hs. simpl.
    replace (b =? -1) with false by (symmetry; apply Z.eqb_neq; lia).
    destruct (IH (Z.min b (span_begin s)) (Z.max e (span_end s)))
      as (b' & e' & -> & Hb' & He' & Hbi & Hei); [lia | lia |].
    exists b', e'. split; [reflexivity |]. split; [exact Hb' |]. split; [exact He' |].
    assert (Hk : key_span m = s) by (unfold key_span; rewrite Hs; reflexivity).
    split.
    + intros x. rewrite Hbi, Forall_cons, Hk. split.
      * intros [H1 H2]. split; [lia |]. split; [lia | exact H2].
      * intros [H1 [H2 H3]]. split; [lia | exact H3].
    + intros y. rewrite Hei, Forall_cons, Hk. split.
      * intros [H1 H2]. split; [lia |]. split; [lia | exact H2].
      * intros [H1 [H2 H3]]. split; [lia | exact H3].
Qed.

(** X4. [in_span] on a group whose member tids resolve to annotations with
    offsets that are not negative: a group with members is in the span
    exactly when all its members are; a group without members has the
    extent [-1 .. -1], so it is in the span only when the span begins at or
    below [-1] and ends at or above it. *)
Theorem in_span_group_members :
  forall idx group ms mems span,
    body group = Group ms ->
    resolve_all idx ms = OK mems ->
    Forall nonneg_annotation mems ->
    exists r : bool,
      in_span idx (inr group) span = OK r
      /\ (mems <> [] ->
          (r = true <-> Forall (fun m => span_within (key_span m) span = true) mems))
      /\ (mems = [] -> r = (span_begin span <=? -1) && (-1 <=? span_end span)).
Proof.
  intros idx group ms mems span Hg Hr Hm.
  unfold in_span. simpl. rewrite Hg, Hr. simpl.
  destruct Hm as [| m mems (s & Hs & Hsb & Hse) Hm]; simpl.
  - eexists. split; [reflexivity |]. split; [congruence | reflexivity].
  - unfold span_of. rewrite Hs. simpl.
    destruct (group_extent_from mems (Z.min (span_begin s) (span_begin s))
                (Z.max (-1) (span_end s))) as (b' & e' & -> & _ & _ & Hbi & Hei);
      [lia | lia | exact Hm |].
    simpl. eexists. split; [reflexivity |]. split; [| discriminate].
    assert (Hk : key_span m = s) by (unfold key_span; rewrite Hs; reflexivity).
    intros _. rewrite andb_true_iff, !Z.leb_le, Hbi, Hei, Forall_cons, Hk.
    unfold span_within at 1. rewrite andb_true_iff, !Z.leb_le.
    assert (Hsplit : Forall (fun m0 => span_within (key_span m0) span = true) mems
                     <-> Forall (fun m0 => span_begin span <= span_begin (key_span m0)) mems
                         /\ Forall (fun m0 => span_end (key_span m0) <= span_end span) mems).
    { rewrite !Forall_forall. unfold span_within. split.
      - intros H. split; intros x Hx; specialize (H x Hx);
          rewrite andb_true_iff, !Z.leb_le in H; tauto.
      - intros [H1 H2] x Hx. rewrite andb_true_iff, !Z.leb_le. auto. }
    rewrite Hsplit. split.
    + intros [[H1 H2] [H3 H4]]. repeat split; try assumption; lia.
    + intros [[H1 H2] [H3 H4]]. repeat split; try assumption; lia.
Qed.

Lemma in_span_group_members_witness :
  exists r : bool,
    in_span index_two_tokens (inr group_0_1) (mkSpan 0 11) = OK r
    /\ ([token_tid "0" 0 5; token_tid "1" 6 11] <> [] ->
        (r = true <->
         Forall (fun m => span_within (key_span m) (mkSpan 0 11) = true)
           [token_tid "0" 0 5; token_tid "1" 6 11]))
    /\ ([token_tid "0" 0 5; token_tid "1" 6 11] = [] ->
        r = (span_begin (mkSpan 0 11) <=? -1) && (-1 <=? span_end (mkSpan 0 11))).
Proof.
  apply (in_span_group_members index_two_tokens group_0_1 ["0"; "1"]
           [token_tid "0" 0 5; token_tid "1" 6 11] (mkSpan 0 11)).
  - reflexivity.
  - vm_compute. reflexivity.
  - repeat constructor; eexists; (split; [reflexivity | simpl; lia]).
Defined.

(** ** Fetching annotations in a range *)

Lemma span_lt_le_trans a b c : span_lt a b = true -> span_le b c -> span_lt a c = true.
Proof.
  unfold span_lt, span_le.
  rewrite !orb_true_iff, !andb_true_iff, !Z.ltb_lt, !Z.eqb_eq. lia.
Qed.

Lemma sl_bisect_split x l :
  StronglySorted entry_le l ->
  Forall (fun y => entry_lt x y = false) (take (sl_bisect x l) l)
  /\ Forall (fun y => entry_lt x y = true) (drop (sl_bisect x l) l).
Proof.
  induction 1 as [| y l Hs [IH1 IH2] Hy]; simpl; [split; constructor |].
  destruct (entry_lt x y) eqn:Hxy; simpl.
  - split; [constructor |]. constructor; [exact Hxy |].
    eapply Forall_impl; [exact Hy |]. intros z Hz.
    eapply span_lt_le_trans; [exact Hxy | exact Hz].
  - split; [constructor; assumption | exact IH2].
Qed.

Lemma filter_none {A : Type} (f : A -> bool) l :
  Forall (fun a => f a = false) l -> List.filter f l = [].
Proof. induction 1 as [| a l Ha _ IH]; simpl; [reflexivity |]. rewrite Ha. exact IH. Qed.

Lemma filter_all {A : Type} (f : A -> bool) l :
  Forall (fun a => f a = true) l -> List.filter f l = l.
Proof.
  induction 1 as [| a l Ha _ IH]; simpl; [reflexivity |]. rewrite Ha, IH. reflexivity.
Qed.

(** On a sorted container the slice between two bisections holds the
    values that are above the first key and not above the second. *)
Lemma slice_between_keys kb ke l :
  StronglySorted entry_le l ->
  list_slice l (sl_bisect kb l) (sl_bisect ke l)
  = List.filter (fun a => entry_lt kb a && negb (entry_lt ke a)) l.
Proof.
  intros Hs. unfold list_slice.
  destruct (sl_bisect_split kb l Hs) as [Hb1 Hb2].
  destruct (sl_bisect_split ke l Hs) as [He1 He2].
  set (b := sl_bisect kb l) in *. set (e := sl_bisect ke l) in *.
  set (f := fun a => entry_lt kb a && negb (entry_lt ke a)).
  transitivity (List.filter f (take b l ++ drop b l));
    [| rewrite take_drop; reflexivity].
  rewrite List.filter_app.
  rewrite (filter_none f (take b l))
    by (eapply Forall_impl; [exact Hb1 |]; unfold f; intros a ->; reflexivity).
  simpl. destruct (decide (b <= e)%nat) as [Hbe | Hbe].
  - transitivity (List.filter f (take (e - b) (drop b l) ++ drop (e - b) (drop b l)));
      [| rewrite take_drop; reflexivity].
    rewrite List.filter_app, drop_drop. replace (b + (e - b))%nat with e by lia.
    rewrite (filter_none f (drop e l))
      by (eapply Forall_impl; [exact He2 |]; unfold f; intros a ->;
          apply andb_false_r).
    rewrite app_nil_r. symmetry. apply filter_all.
    assert (H1 : Forall (fun a => entry_lt kb a = true) (take (e - b) (drop b l)))
      by (apply Forall_take, Hb2).
    assert (H2 : Forall (fun a => entry_lt ke a = false) (take (e - b) (drop b l))).
    { rewrite take_drop_commute. replace (b + (e - b))%nat with e by lia.
      apply Forall_drop, He1. }
    rewrite Forall_forall in H1, H2. apply Forall_forall. intros a Ha.
    unfold f. rewrite (H1 a Ha), (H2 a Ha). reflexivity.
  - replace (e - b)%nat with O by lia. rewrite take_0. symmetry. apply filter_none.
    replace b with (e + (b - e))%nat by lia. rewrite <- drop_drop.
    apply Forall_drop. eapply Forall_impl; [exact He2 |].
    unfold f. intros a ->. apply andb_false_r.
Qed.

Lemma gen_filter_pure {A : Type} (keep : A -> result (option A)) (f : A -> bool) l :
  (forall x, In x l -> keep x = OK (if f x then Some x else None)) ->
  gen_filter keep l = (List.filter f l, None).
Proof.
  induction l as [| x l IH]; intros Hk; simpl; [reflexivity |].
  rewrite (Hk x) by (left; reflexivity).
  rewrite IH by (intros y Hy; apply Hk; right; exact Hy).
  destruct (f x); reflexivity.
Qed.

Lemma filter_filter {A : Type} (f g : A -> bool) l :
  List.filter f (List.filter g l) = List.filter (fun x => g x && f x) l.
Proof.
  induction l as [| x l IH]; simpl; [reflexivity |].
  destruct (g x); simpl; [destruct (f x) |]; rewrite IH; reflexivity.
Qed.

Lemma get_entries_valid_ids p entry_type comps :
  match comps with
  | None => get_ids_by_type p entry_type
  | Some (CompStr c) => get_ids_by_type p entry_type ∩ ids_of_components p [c]
  | Some (CompList cs) => get_ids_by_type p entry_type ∩ ids_of_components p cs
  end = valid_ids p entry_type comps.
Proof. reflexivity. Qed.

(** X5. [get_entries] for an annotation type and a range annotation, on a
    pack whose annotations are in span order with offsets that are not
    negative: the generator ends normally, and it yields, in span order,
    the annotations whose tid is a valid id, that lie in the span of the
    range, and that begin before the end of the range.  An annotation that
    begins at the end of the range is left out although [in_span] accepts
    it. *)
Theorem get_entries_in_range :
  forall p entry_type r s comps,
    StronglySorted entry_le (annotations p) ->
    Forall nonneg_annotation (annotations p) ->
    issubclass entry_type Annotation_class = true ->
    body r = Annotation s ->
    get_entries p entry_type (Some r) comps
    = (List.filter
         (fun a => bool_decide (tid a ∈ valid_ids p entry_type comps)
                   && span_within (key_span a) s
                   && (span_begin (key_span a) <? span_end s))
         (annotations p),
       None).
Proof.
  intros p entry_type r s comps Hs Hn Hsub Hr.
  unfold get_entries, span_of. rewrite Hr. simpl.
  rewrite get_entries_valid_ids, Hsub.
  rewrite (slice_between_keys _ _ _ Hs).
  rewrite (gen_filter_pure _
             (fun a => bool_decide (tid a ∈ valid_ids p entry_type comps)
                       && span_within (key_span a) s)).
  - rewrite filter_filter. f_equal. apply filter_ext_in. intros a Ha.
    rewrite Forall_forall in Hn.
    destruct (Hn a (proj2 (list_elem_of_In _ _) Ha)) as (sa & Hsa & Hb & He).
    unfold entry_lt, key_span, Annotation_new. simpl. rewrite Hsa.
    unfold span_lt, span_within. simpl.
    destruct (bool_decide (tid a ∈ valid_ids p entry_type comps)); simpl;
      [| rewrite andb_false_r; reflexivity].
    apply eq_true_iff_eq.
    rewrite !andb_true_iff, negb_true_iff, !orb_true_iff, orb_false_iff,
      !andb_true_iff, andb_false_iff, !Z.ltb_lt, !Z.leb_le, !Z.eqb_eq,
      Z.ltb_ge, Z.eqb_neq, Z.ltb_ge.
    lia.
  - intros a Ha. apply filter_In in Ha as [Ha _].
    rewrite Forall_forall in Hn.
    destruct (Hn a (proj2 (list_elem_of_In _ _) Ha)) as (sa & Hsa & _).
    destruct (bool_decide (tid a ∈ valid_ids p entry_type comps)); simpl;
      [| reflexivity].
    unfold in_range, span_of. rewrite Hr. simpl.
    rewrite (in_span_annotation _ a sa s Hsa). simpl.
    unfold span_within, key_span. rewrite Hsa. reflexivity.
Qed.

Lemma nonneg_annotation_check l :
  forallb (fun e => match body e with
                    | Annotation s => (0 <=? span_begin s) && (0 <=? span_end s)
                    | _ => false
                    end) l = true ->
  Forall nonneg_annotation l.
Proof.
  rewrite forallb_forall, Forall_forall. intros H e He.
  specialize (H e (proj1 (list_elem_of_In _ _) He)).
  unfold nonneg_annotation. destruct (body e) as [s | | |]; try discriminate.
  apply andb_true_iff in H as [H1 H2]. apply Z.leb_le in H1, H2. eauto.
Qed.

(** The tokens of [pack_tokens] in the range [0,5): the token over [0,5) is
    yielded, the token of no width at 5 is not, although it is in the
    span. *)
Lemma get_entries_in_range_witness :
  get_entries pack_tokens Token (Some (Annotation_new 0 5)) None
  = ([set_tid token_0_5 "0"], None)
  /\ in_span (index pack_tokens) (inr (set_tid token_5_5 "2")) (mkSpan 0 5) = OK true
  /\ In (set_tid token_5_5 "2") (annotations pack_tokens).
Proof.
  split; [| split; [reflexivity | vm_compute; auto]].
  rewrite (get_entries_in_range pack_tokens Token (Annotation_new 0 5) (mkSpan 0 5) None).
  - vm_compute. reflexivity.
  - apply pack_consistent_run, pack_consistent_set_text, pack_consistent_init.
  - apply nonneg_annotation_check. vm_compute. reflexivity.
  - reflexivity.
  - reflexivity.
Defined.

(** X6. [get_entries] for an annotation type and no range annotation, on a
    pack whose annotations are in span order with offsets that are not
    negative and whose last annotation is [z]: the generator ends normally
    and yields, in span order, the annotations whose tid is a valid id and
    that begin before the end of [z].  So when the last annotation has no
    width, it is left out itself. *)
Theorem get_entries_whole_pack :
  forall p entry_type comps z,
    StronglySorted entry_le (annotations p) ->
    Forall nonneg_annotation (annotations p) ->
    issubclass entry_type Annotation_class = true ->
    last (annotations p) = Some z ->
    get_entries p entry_type None comps
    = (List.filter
         (fun a => bool_decide (tid a ∈ valid_ids p entry_type comps)
                   && (span_begin (key_span a) <? span_end (key_span z)))
         (annotations p),
       None).
Proof.
  intros p entry_type comps z Hs Hn Hsub Hz.
  assert (Hzin : z ∈ annotations p).
  { apply last_Some in Hz as [l' ->]. apply elem_of_app. right. constructor. }
  pose proof Hn as Hn'. rewrite Forall_forall in Hn'.
  destruct (Hn' z Hzin) as (sz & Hsz & _ & _).
  unfold get_entries, list_last, span_of. rewrite Hz. simpl. rewrite Hsz. simpl.
  rewrite get_entries_valid_ids, Hsub.
  rewrite (slice_between_keys _ _ _ Hs).
  rewrite (gen_filter_pure _
             (fun a => bool_decide (tid a ∈ valid_ids p entry_type comps))).
  - rewrite filter_filter. f_equal. apply filter_ext_in. intros a Ha.
    destruct (Hn' a (proj2 (list_elem_of_In _ _) Ha)) as (sa & Hsa & Hb & He).
    unfold entry_lt, key_span, Annotation_new. cbn [body]. rewrite Hsa, Hsz.
    unfold span_lt. cbn [span_begin span_end].
    destruct (bool_decide (tid a ∈ valid_ids p entry_type comps)); cbn [andb];
      [| rewrite andb_false_r; reflexivity].
    rewrite andb_true_r. apply eq_true_iff_eq.
    rewrite !andb_true_iff, negb_true_iff, !orb_true_iff, orb_false_iff,
      !andb_true_iff, andb_false_iff, !Z.ltb_lt, !Z.eqb_eq,
      Z.ltb_ge, Z.eqb_neq, Z.ltb_ge.
    lia.
  - intros a Ha.
    destruct (bool_decide (tid a ∈ valid_ids p entry_type comps)); reflexivity.
Qed.

(** The last annotation of [pack_ends_empty] is the token of no width at
    5: only the token over [0,5) is yielded. *)
Lemma get_entries_whole_pack_witness :
  get_entries pack_ends_empty Token None None = ([set_tid token_0_5 "0"], None)
  /\ annotations pack_ends_empty = [set_tid token_0_5 "0"; set_tid token_5_5 "1"].
Proof.
  split; [| vm_compute; reflexivity].
  rewrite (get_entries_whole_pack pack_ends_empty Token None (set_tid token_5_5 "1")).
  - vm_compute. reflexivity.
  - apply pack_consistent_run, pack_consistent_set_text, pack_consistent_init.
  - apply nonneg_annotation_check. vm_compute. reflexivity.
  - reflexivity.
  - vm_compute. reflexivity.
Defined.

(** ** What every call keeps *)

Lemma sl_add_perm x l : sl_add x l ≡ₚ x :: l.
Proof.
  induction l as [| y l IH]; simpl; [reflexivity |].
  destruct (entry_lt x y); [reflexivity |].
  rewrite IH. apply perm_swap.
Qed.

Lemma stored_store_perm c x p : stored (store c x p) ≡ₚ x :: stored p.
Proof.
  unfold stored. destruct c; simpl.
  - rewrite sl_add_perm. reflexivity.
  - rewrite <- (app_assoc (links p) [x] (groups p)). simpl.
    rewrite app_assoc. symmetry. rewrite app_assoc. apply Permutation_middle.
  - rewrite !app_assoc. symmetry. apply Permutation_cons_append.
Qed.

Lemma same_store_stored p q : same_store p q -> stored p = stored q.
Proof. intros (_ & Ha & Hl & Hg & _). unfold stored. congruence. Qed.

Lemma stored_insert_perm c entry p :
  stored (insert_entry c entry p).1 ≡ₚ minted p entry :: stored p.
Proof.
  rewrite (same_store_stored _ _ (insert_entry_same_store c entry p)).
  apply stored_store_perm.
Qed.

Lemma Permutation_filter {A : Type} (f : A -> bool) (l l' : list A) :
  l ≡ₚ l' -> List.filter f l ≡ₚ List.filter f l'.
Proof.
  induction 1 as [| x l l' _ IH | x y l | l l' l'' _ IH1 _ IH2]; simpl.
  - reflexivity.
  - destruct (f x); [constructor |]; exact IH.
  - destruct (f x), (f y); try reflexivity. apply perm_swap.
  - etransitivity; eassumption.
Qed.

Lemma class_tids_insert c entry p k :
  class_tids (insert_entry c entry p).1 k
  ≡ₚ (if bool_decide (type_of entry = k)
      then tid (minted p entry) :: class_tids p k else class_tids p k).
Proof.
  unfold class_tids.
  rewrite (Permutation_filter _ _ _ (stored_insert_perm c entry p)). simpl.
  change (type_of (minted p entry)) with (type_of entry).
  destruct (bool_decide (type_of entry = k)); reflexivity.
Qed.

Lemma tids_numbered_insert c entry p :
  tids_numbered p -> tids_numbered (insert_entry c entry p).1.
Proof.
  intros Hn k. rewrite class_tids_insert, insert_entry_counter.
  case_bool_decide as Hk; [| apply Hn].
  rewrite seq_S, map_app. simpl. rewrite <- Permutation_cons_append.
  unfold minted. simpl. rewrite Hk. constructor. apply Hn.
Qed.

Lemma entry_index_consistent_insert c entry p :
  entry_index_consistent p -> entry_index_consistent (insert_entry c entry p).1.
Proof.
  intros [H1 H2]. destruct (insert_entry_basic c entry p) as (He & _).
  unfold entry_index_consistent. rewrite He.
  change (entry_index (basic_index_step (index p) (minted p entry)))
    with (<[tid (minted p entry) := minted p entry]> (entry_index (index p))).
  split.
  - intros t e Ht. rewrite In_stored_insert.
    destruct (decide (tid (minted p entry) = t)) as [Heq | Hne].
    + rewrite Heq, lookup_insert_eq in Ht. inversion Ht; subst e. auto.
    + rewrite lookup_insert_ne in Ht by exact Hne.
      destruct (H1 t e Ht). auto.
  - intros e Hin. apply In_stored_insert in Hin as [-> | Hin].
    + rewrite lookup_insert_eq. eauto.
    + destruct (decide (tid (minted p entry) = tid e)) as [Heq | Hne].
      * rewrite Heq, lookup_insert_eq. eauto.
      * rewrite lookup_insert_ne by exact Hne. apply H2, Hin.
Qed.

(** ** The group index *)

Lemma same_group_refl idx : same_group idx idx.
Proof. split; reflexivity. Qed.

Lemma same_group_trans i j k : same_group i j -> same_group j k -> same_group i k.
Proof. intros [? ?] [? ?]. split; congruence. Qed.

Lemma link_index_add_group which key t : keeps same_group (link_index_add which key t).
Proof.
  unfold link_index_add.
  apply keeps_get_then. intros i.
  apply keeps_bind; [apply same_group_trans | apply keeps_lift, same_group_refl |].
  intros sub.
  apply keeps_bind; [apply same_group_trans | apply keeps_lift, same_group_refl |].
  intros k. apply keeps_modify. intros idx. repeat split.
Qed.

Lemma link_index_step_group link : keeps same_group (link_index_step link).
Proof.
  unfold link_index_step.
  apply keeps_bind; [apply same_group_trans | | intros _]; apply link_index_add_group.
Qed.

Lemma update_link_index_group pack_links links :
  keeps same_group (update_link_index pack_links links).
Proof.
  unfold update_link_index.
  apply keeps_get_then. intros i.
  destruct (negb (link_index_switch i)).
  - repeat (apply keeps_bind;
            [apply same_group_trans
            | apply keeps_modify; intros idx; repeat split | intros _]).
    apply keeps_for;
      [apply same_group_refl | apply same_group_trans | apply link_index_step_group].
  - apply keeps_for;
      [apply same_group_refl | apply same_group_trans | apply link_index_step_group].
Qed.

Lemma is_group_body e : is_group e -> exists ms, body e = Group ms.
Proof.
  unfold is_group, variant_of. destruct (body e); try discriminate. eauto.
Qed.

Lemma group_step_other G e : ~ is_group e -> group_step G e = G.
Proof.
  unfold is_group, variant_of, group_step. destruct (body e); congruence.
Qed.

Lemma with_group_index_id idx : with_group_index idx (_group_index idx) = idx.
Proof. destruct idx; reflexivity. Qed.

Lemma member_loop_exact ms t idx :
  exec_for ms (fun member =>
    exec_modify (fun idx => with_group_index idx (dd_add (_group_index idx) member t))) idx
  = (with_group_index idx (fold_left (fun G member => dd_add G member t) ms (_group_index idx)),
     OK tt).
Proof.
  revert idx. induction ms as [| m ms IH]; intros idx; simpl.
  - rewrite with_group_index_id. reflexivity.
  - unfold exec_bind at 1, exec_modify at 1. rewrite IH. reflexivity.
Qed.

Lemma group_index_step_exact group idx :
  is_group group ->
  group_index_step group idx
  = (with_group_index idx (group_step (_group_index idx) group), OK tt).
Proof.
  intros Hg. destruct (is_group_body _ Hg) as (ms & Hb).
  unfold group_index_step, group_members, group_step, exec_bind, exec_lift.
  rewrite Hb. apply member_loop_exact.
Qed.

Lemma group_loop_exact groups idx :
  Forall is_group groups ->
  exec_for groups group_index_step idx
  = (with_group_index idx (fold_left group_step groups (_group_index idx)), OK tt).
Proof.
  intros Hg. revert idx. induction Hg as [| g gs Hg _ IH]; intros idx; simpl.
  - rewrite with_group_index_id. reflexivity.
  - unfold exec_bind at 1. rewrite (group_index_step_exact g idx Hg), IH. reflexivity.
Qed.

Lemma update_group_index_rebuild pack_groups groups idx :
  _group_index_switch idx = false ->
  Forall is_group pack_groups ->
  update_group_index pack_groups groups idx
  = (with_group_index (turn_group_index_switch true idx)
       (fold_left group_step pack_groups ∅), OK tt).
Proof.
  intros Hoff Hg.
  unfold update_group_index, exec_bind at 1, exec_get, group_index_switch.
  rewrite Hoff. simpl.
  unfold exec_bind at 1, exec_modify at 1.
  unfold exec_bind at 1, exec_modify at 1.
  rewrite (group_loop_exact pack_groups _ Hg). reflexivity.
Qed.

Lemma update_group_index_increment pack_groups group idx :
  _group_index_switch idx = true ->
  is_group group ->
  update_group_index pack_groups [group] idx
  = (with_group_index idx (group_step (_group_index idx) group), OK tt).
Proof.
  intros Hon Hg.
  unfold update_group_index, exec_bind at 1, exec_get, group_index_switch.
  rewrite Hon. simpl.
  unfold exec_bind at 1. rewrite (group_index_step_exact group idx Hg). reflexivity.
Qed.

Lemma not_link_and_group e : isinstance e Link_class = true -> ~ is_group e.
Proof. intros Hl Hg. apply isinstance_Link in Hl. unfold is_link, is_group in *. congruence. Qed.

(** The insertion block adds a group to a group index that is built,
    leaves an unbuilt one alone, and never moves the switch. *)
Lemma relation_updates_group entry p :
  _group_index_switch (index (relation_updates entry p).1)
  = _group_index_switch (index p)
  /\ _group_index (index (relation_updates entry p).1)
     = (if _group_index_switch (index p)
        then group_step (_group_index (index p)) entry
        else _group_index (index p)).
Proof.
  unfold relation_updates, exec_bind, exec_get.
  destruct (isinstance entry Link_class) eqn:Hl.
  - pose proof (not_link_and_group _ Hl) as Hng.
    assert (Hg : isinstance entry Group_class = false).
    { destruct (isinstance entry Group_class) eqn:Hg; [| reflexivity].
      apply isinstance_Group in Hg. contradiction. }
    pose proof (exec_when_on_index_keeps same_group same_group_refl
                  (link_index_switch (index p) && true)
                  (update_link_index (links p) [entry]) p
                  (update_link_index_group _ _)) as [H1 H2].
    rewrite (group_step_other _ _ Hng).
    destruct (exec_when _ _ p) as [p1 [[]|e1]]; simpl in H1, H2 |- *.
    + rewrite Hg, andb_false_r. simpl. rewrite H1, H2.
      split; [reflexivity | destruct (_group_index_switch (index p)); reflexivity].
    + rewrite H1, H2.
      split; [reflexivity | destruct (_group_index_switch (index p)); reflexivity].
  - rewrite andb_false_r. simpl. unfold group_index_switch.
    destruct (_group_index_switch (index p)) eqn:Hon; simpl.
    + destruct (isinstance entry Group_class) eqn:Hg; simpl.
      * apply isinstance_Group in Hg.
        unfold on_index.
        rewrite (update_group_index_increment (groups p) entry (index p) Hon Hg).
        simpl. split; [exact Hon | reflexivity].
      * rewrite group_step_other; [auto |].
        intros Hgr. apply isinstance_Group in Hgr. congruence.
    + auto.
Qed.

Lemma stored_pack_group c entry p : same_group (index (stored_pack c entry p)) (index p).
Proof. unfold stored_pack. destruct c; split; reflexivity. Qed.

Lemma target_of_link entry c : target_of entry = OK c -> (c = CLinks <-> is_link entry).
Proof.
  unfold target_of, is_link, variant_of.
  destruct (body entry); intros H; inversion H; split; congruence.
Qed.

Lemma target_of_group entry c : target_of entry = OK c -> (c = CGroups <-> is_group entry).
Proof.
  unfold target_of, is_group, variant_of.
  destruct (body entry); intros H; inversion H; split; congruence.
Qed.

Lemma insert_entry_groups c entry p :
  groups (insert_entry c entry p).1
  = match c with
    | CGroups => (groups p ++ [minted p entry])%list
    | _ => groups p
    end.
Proof.
  change (groups (insert_entry c entry p).1)
    with (get_target (insert_entry c entry p).1 CGroups).
  rewrite insert_entry_target. destruct c; reflexivity.
Qed.

Lemma relations_in_sync_insert c entry p :
  target_of entry = OK c ->
  relations_in_sync p -> relations_in_sync (insert_entry c entry p).1.
Proof.
  intros Hc (Hl & Hg & Hli & Hgi).
  destruct (insert_entry_links c entry p Hc) as [Hlinks Hcl].
  assert (Hcg : c = CGroups <-> is_group (minted p entry))
    by exact (target_of_group entry c Hc).
  pose proof (insert_entry_groups c entry p) as Hgroups.
  split; [| split; [| split]].
  - rewrite Hlinks. case_bool_decide as Hk; [| exact Hl].
    apply Forall_app. split; [exact Hl |]. constructor; [| constructor].
    apply Hcl, Hk.
  - rewrite Hgroups. destruct c; try exact Hg.
    apply Forall_app. split; [exact Hg |]. constructor; [| constructor].
    apply Hcg. reflexivity.
  - rewrite insert_entry_unfold. intros Hon.
    destruct (stored_pack_link c entry p) as [Hsl Hss].
    destruct (_link_index_switch (index p)) eqn:Hsw.
    + destruct (Hli eq_refl) as (_ & HC & HP).
      assert (Hh : link_index_holds (index (stored_pack c entry p))
                     (fold_left child_step (links p) ∅)
                     (fold_left parent_step (links p) ∅)).
      { unfold link_index_holds. rewrite Hsl, Hss. auto. }
      destruct (relation_updates_on (minted p entry) _ _ _ Hh) as [Hh' _].
      rewrite <- insert_entry_unfold in Hh' |- *. rewrite Hlinks.
      case_bool_decide as Hk.
      * rewrite !fold_left_app. exact Hh'.
      * rewrite child_step_other, parent_step_other in Hh' by (rewrite <- Hcl; exact Hk).
        exact Hh'.
    + destruct (relation_updates_off (minted p entry) (stored_pack c entry p))
        as [[_ Hs'] _]; [congruence |].
      rewrite Hs', Hss in Hon. discriminate.
  - rewrite insert_entry_unfold.
    destruct (relation_updates_group (minted p entry) (stored_pack c entry p))
      as [Hs' HG'].
    destruct (stored_pack_group c entry p) as [HsG HsS].
    rewrite Hs', HsS. intros Hon. rewrite HG', HsS, Hon, HsG, (Hgi Hon).
    rewrite <- insert_entry_unfold, Hgroups.
    destruct c.
    + apply group_step_other. rewrite <- Hcg. discriminate.
    + apply group_step_other. rewrite <- Hcg. discriminate.
    + rewrite fold_left_app. reflexivity.
Qed.

(** ** The lookups of the relation indexes *)

Lemma with_index_id p : with_index p (index p) = p.
Proof. destruct p; reflexivity. Qed.

(** A lookup of the link index, on a pack whose link index is in sync:
    the pack afterwards differs in the link index only, which is built, and
    the outcome is the set that the links of the pack give. *)
Lemma link_index_exact t as_parent p :
  relations_in_sync p ->
  exists idx',
    link_index t as_parent p
    = (with_index p idx',
       OK (dd_get (fold_left (if as_parent then parent_step else child_step)
                     (links p) ∅) t))
    /\ same_basic idx' (index p)
    /\ same_group idx' (index p)
    /\ link_index_holds idx'
         (fold_left child_step (links p) ∅) (fold_left parent_step (links p) ∅).
Proof.
  intros (Hl & _ & Hli & _).
  destruct (_link_index_switch (index p)) eqn:Hsw.
  - destruct (Hli eq_refl) as (Hon & HC & HP).
    exists (index p). rewrite with_index_id.
    split; [| split; [apply same_basic_refl | split; [apply same_group_refl |]]].
    + unfold link_index, exec_bind, exec_get, exec_lift, exec_ret. rewrite Hsw. simpl.
      unfold dict_get. destruct as_parent; [rewrite HP | rewrite HC]; reflexivity.
    + repeat split; assumption.
  - eexists. split; [| split; [| split]].
    + unfold link_index, exec_bind, exec_get, exec_lift, exec_ret. rewrite Hsw. simpl.
      unfold on_index.
      rewrite (update_link_index_rebuild (links p) (links p) (index p) Hsw Hl). simpl.
      unfold dict_get. destruct as_parent;
        [rewrite set_maps_lookup_parent | rewrite set_maps_lookup_child]; reflexivity.
    + repeat split.
    + repeat split.
    + split; [reflexivity |]. simpl.
      split; [apply set_maps_lookup_child | apply set_maps_lookup_parent].
Qed.

Lemma group_index_exact t p :
  relations_in_sync p ->
  exists idx',
    group_index t p
    = (with_index p idx', OK (dd_get (fold_left group_step (groups p) ∅) t))
    /\ same_basic idx' (index p)
    /\ same_link idx' (index p)
    /\ _group_index_switch idx' = true
    /\ _group_index idx' = fold_left group_step (groups p) ∅.
Proof.
  intros (_ & Hg & _ & Hgi).
  destruct (_group_index_switch (index p)) eqn:Hsw.
  - exists (index p). rewrite with_index_id.
    split; [| split; [apply same_basic_refl | split; [apply same_link_refl |]]].
    + unfold group_index, exec_bind, exec_get, exec_ret. rewrite Hsw. simpl.
      rewrite (Hgi eq_refl). reflexivity.
    + split; [exact Hsw | apply Hgi; reflexivity].
  - eexists. split; [| split; [| split; [| split]]].
    + unfold group_index, exec_bind, exec_get, exec_ret. rewrite Hsw. simpl.
      unfold on_index.
      rewrite (update_group_index_rebuild (groups p) (groups p) (index p) Hsw Hg).
      simpl. reflexivity.
    + repeat split.
    + repeat split.
    + reflexivity.
    + reflexivity.
Qed.

(** The invariant looks at the index through its parts. *)
Lemma pack_invariant_with_index p idx' :
  same_basic idx' (index p) ->
  Forall is_link (links p) ->
  Forall is_group (groups p) ->
  (_link_index_switch idx' = true ->
   link_index_holds idx'
     (fold_left child_step (links p) ∅) (fold_left parent_step (links p) ∅)) ->
  (_group_index_switch idx' = true ->
   _group_index idx' = fold_left group_step (groups p) ∅) ->
  pack_consistent p -> entry_index_consistent p -> tids_numbered p ->
  pack_invariant (with_index p idx').
Proof.
  intros (He & Ht & Hc) Hl Hg Hli Hgi (H1 & H2 & H3 & H4) [H5 H6] Hn.
  split; [| split; [| split]].
  - split; [| split; [| split]]; simpl; [rewrite Ht | rewrite Hc | |]; assumption.
  - split; simpl; rewrite He; assumption.
  - split; [| split; [| split]]; assumption.
  - exact Hn.
Qed.

Lemma pack_invariant_link_index t as_parent p :
  pack_invariant p -> pack_invariant (link_index t as_parent p).1.
Proof.
  intros (Hc & He & Hr & Hn).
  destruct (link_index_exact t as_parent p Hr) as (idx' & -> & Hb & [HG HS] & Hh).
  destruct Hr as (Hl & Hg & _ & Hgi).
  apply pack_invariant_with_index; try assumption.
  - intros _. exact Hh.
  - rewrite HS, HG. exact Hgi.
Qed.

Lemma pack_invariant_group_index t p :
  pack_invariant p -> pack_invariant (group_index t p).1.
Proof.
  intros (Hc & He & Hr & Hn).
  destruct (group_index_exact t p Hr) as (idx' & -> & Hb & [HL HS] & Hon & HG).
  destruct Hr as (Hl & Hg & Hli & _).
  apply pack_invariant_with_index; try assumption.
  - unfold link_index_holds. rewrite HS, HL. exact Hli.
  - intros _. exact HG.
Qed.

(** ** Serialization *)

Lemma span_le_not_lt a b : span_le b a -> span_lt a b = false.
Proof.
  unfold span_le, span_lt. intros H.
  apply orb_false_iff. split.
  - apply Z.ltb_ge. lia.
  - apply andb_false_iff.
    destruct (Z.eq_dec (span_begin a) (span_begin b)) as [Heq | Hne].
    + right. apply Z.ltb_ge. lia.
    + left. apply Z.eqb_neq. exact Hne.
Qed.

Lemma sl_add_last x l :
  Forall (fun y => entry_le y x) l -> sl_add x l = (l ++ [x])%list.
Proof.
  induction 1 as [| y l Hy _ IH]; simpl; [reflexivity |].
  unfold entry_lt. rewrite (span_le_not_lt _ _ Hy), IH. reflexivity.
Qed.

Lemma StronglySorted_app_head {A : Type} (R : A -> A -> Prop) acc x l :
  StronglySorted R (acc ++ x :: l) -> Forall (fun y => R y x) acc.
Proof.
  induction acc as [| a acc IH]; simpl; intros Hs; [constructor |].
  apply StronglySorted_inv in Hs as [Hs Ha].
  constructor; [| apply IH, Hs].
  apply Forall_app in Ha as [_ Ha]. apply Forall_cons in Ha as [Ha _]. exact Ha.
Qed.

Lemma SortedList_fold_sorted l acc :
  StronglySorted entry_le (acc ++ l) ->
  fold_left (fun acc x => sl_add x acc) l acc = (acc ++ l)%list.
Proof.
  revert acc. induction l as [| x l IH]; intros acc Hs; simpl.
  - rewrite app_nil_r. reflexivity.
  - rewrite (sl_add_last x acc (StronglySorted_app_head _ _ _ _ Hs)).
    rewrite IH; rewrite <- app_assoc; [reflexivity | exact Hs].
Qed.

Lemma SortedList_new_sorted_id l :
  StronglySorted entry_le l -> SortedList_new l = l.
Proof. intros Hs. apply (SortedList_fold_sorted l []). exact Hs. Qed.

Lemma SortedList_fold_perm l acc :
  fold_left (fun acc x => sl_add x acc) l acc ≡ₚ (acc ++ l)%list.
Proof.
  revert acc. induction l as [| x l IH]; intros acc; simpl.
  - rewrite app_nil_r. reflexivity.
  - rewrite IH, sl_add_perm. apply Permutation_middle.
Qed.

Lemma SortedList_fold_is_sorted l acc :
  StronglySorted entry_le acc ->
  StronglySorted entry_le (fold_left (fun acc x => sl_add x acc) l acc).
Proof.
  revert acc. induction l as [| x l IH]; intros acc Hs; simpl; [exact Hs |].
  apply IH, sl_add_sorted, Hs.
Qed.

(** What [update_basic_index] leaves in the three basic indexes. *)
Lemma update_basic_index_entry l idx :
  (forall t e, entry_index (update_basic_index idx l) !! t = Some e ->
               (In e l /\ tid e = t) \/ entry_index idx !! t = Some e)
  /\ (forall e, In e l -> is_Some (entry_index (update_basic_index idx l) !! tid e))
  /\ (forall t, is_Some (entry_index idx !! t) ->
                is_Some (entry_index (update_basic_index idx l) !! t)).
Proof.
  revert idx. induction l as [| x l IH]; intros idx; simpl.
  - split; [auto | split; [intros e [] | auto]].
  - destruct (IH (basic_index_step idx x)) as (H1 & H2 & H3).
    assert (Hx : forall t, is_Some (entry_index idx !! t) ->
                           is_Some (entry_index (basic_index_step idx x) !! t)).
    { intros t Ht. simpl. destruct (decide (tid x = t)) as [<- | Hne].
      - rewrite lookup_insert_eq. eauto.
      - rewrite lookup_insert_ne by exact Hne. exact Ht. }
    split; [| split].
    + intros t e Ht. destruct (H1 t e Ht) as [[Hin Htid] | Hold]; [auto |].
      simpl in Hold. destruct (decide (tid x = t)) as [Heq | Hne].
      * rewrite Heq, lookup_insert_eq in Hold. inversion Hold; subst e. auto.
      * rewrite lookup_insert_ne in Hold by exact Hne. auto.
    + intros e [-> | Hin]; [| apply H2, Hin].
      apply H3. simpl. rewrite lookup_insert_eq. eauto.
    + intros t Ht. apply H3, Hx, Ht.
Qed.

Lemma update_basic_index_sets l idx :
  (forall t k, t ∈ dd_get (type_index (update_basic_index idx l)) k
               <-> t ∈ dd_get (type_index idx) k
                   \/ exists e, In e l /\ tid e = t /\ type_of e = k)
  /\ (forall t c, t ∈ dd_get (component_index (update_basic_index idx l)) c
                  <-> t ∈ dd_get (component_index idx) c
                      \/ exists e, In e l /\ tid e = t /\ component e = c).
Proof.
  revert idx. induction l as [| x l IH]; intros idx; simpl.
  - split; intros t k; (split; [auto | intros [H | (e & [] & _)]; exact H]).
  - destruct (IH (basic_index_step idx x)) as (H1 & H2).
    split; intros t k; [rewrite H1 | rewrite H2]; simpl; rewrite elem_of_dd_add.
    + split.
      * intros [[[<- ->] | H] | (e & Hin & Ht & Hk)]; eauto 7.
      * intros [H | (e & [<- | Hin] & Ht & Hk)]; eauto 7.
    + split.
      * intros [[[<- ->] | H] | (e & Hin & Ht & Hk)]; eauto 7.
      * intros [H | (e & [<- | Hin] & Ht & Hk)]; eauto 7.
Qed.

Lemma update_basic_index_relations l idx :
  same_link (update_basic_index idx l) idx /\ same_group (update_basic_index idx l) idx.
Proof.
  revert idx. induction l as [| x l IH]; intros idx; simpl.
  - split; [apply same_link_refl | apply same_group_refl].
  - destruct (IH (basic_index_step idx x)) as [[H1 H2] [H3 H4]].
    repeat split; simpl in *; congruence.
Qed.

Lemma setstate_index st :
  index (setstate st)
  = update_basic_index DataIndex_init (stored (setstate st)).
Proof.
  unfold setstate, stored, update_basic_index. simpl.
  rewrite !fold_left_app. reflexivity.
Qed.

(** Saving and loading a pack whose annotations are in order gives the
    pack back with a fresh index, built from the three containers. *)
Lemma setstate_getstate p :
  StronglySorted entry_le (annotations p) ->
  setstate (getstate p)
  = with_index p (update_basic_index DataIndex_init (stored p)).
Proof.
  intros Hs. unfold setstate, getstate, with_index, stored, update_basic_index. simpl.
  rewrite (SortedList_new_sorted_id _ Hs), !fold_left_app. reflexivity.
Qed.

Lemma rebuilt_index_consistent p :
  index p = update_basic_index DataIndex_init (stored p) ->
  entry_index_consistent p
  /\ (forall t k, t ∈ dd_get (type_index (index p)) k
                  <-> exists e, In e (stored p) /\ tid e = t /\ type_of e = k)
  /\ (forall t c, t ∈ dd_get (component_index (index p)) c
                  <-> exists e, In e (stored p) /\ tid e = t /\ component e = c)
  /\ _link_index_switch (index p) = false
  /\ _group_index_switch (index p) = false.
Proof.
  intros Hi. unfold entry_index_consistent. rewrite Hi.
  destruct (update_basic_index_entry (stored p) DataIndex_init) as (H1 & H2 & _).
  destruct (update_basic_index_sets (stored p) DataIndex_init) as (H3 & H4).
  destruct (update_basic_index_relations (stored p) DataIndex_init)
    as [[_ H5] [_ H6]].
  split; [split |]; [| exact H2 | split; [| split; [| split; assumption]]].
  - intros t e Ht. destruct (H1 t e Ht) as [H | H]; [exact H |].
    simpl in H. rewrite lookup_empty in H. discriminate.
  - intros t k. rewrite H3. simpl. unfold dd_get at 1. rewrite lookup_empty. simpl.
    split; [intros [H | H]; [apply elem_of_empty in H; contradiction | exact H] | auto].
  - intros t k. rewrite H4. simpl. unfold dd_get at 1. rewrite lookup_empty. simpl.
    split; [intros [H | H]; [apply elem_of_empty in H; contradiction | exact H] | auto].
Qed.

Lemma pack_invariant_pickle p :
  pack_invariant p -> pack_invariant (setstate (getstate p)).
Proof.
  intros ((H1 & H2 & Ha & Hs) & He & (Hl & Hg & _) & Hn).
  rewrite (setstate_getstate p Hs).
  destruct (rebuilt_index_consistent
              (with_index p (update_basic_index DataIndex_init (stored p))) eq_refl)
    as (He' & Ht' & Hc' & Hsl & Hsg).
  split; [| split; [| split]].
  - split; [exact Ht' | split; [exact Hc' | split; assumption]].
  - exact He'.
  - split; [exact Hl | split; [exact Hg |]].
    split; intros Hon; simpl in Hon, Hsl, Hsg; congruence.
  - exact Hn.
Qed.

Lemma pack_invariant_insert c entry p :
  target_of entry = OK c ->
  pack_invariant p -> pack_invariant (insert_entry c entry p).1.
Proof.
  intros Hc (H1 & H2 & H3 & H4).
  split; [apply pack_consistent_insert; assumption |].
  split; [apply entry_index_consistent_insert; assumption |].
  split; [apply relations_in_sync_insert; assumption |].
  apply tids_numbered_insert; assumption.
Qed.

Lemma pack_invariant_init doc : pack_invariant (DataPack_init doc).
Proof.
  split; [apply pack_consistent_init |].
  split; [| split].
  - split; [intros t e H; simpl in H; rewrite lookup_empty in H; discriminate
           | intros e []].
  - repeat split; try constructor; simpl; discriminate.
  - intros k. reflexivity.
Qed.

Lemma pack_invariant_call entry_eq c p :
  pack_invariant p -> pack_invariant (run_call entry_eq c p).
Proof.
  intros Hp. destruct c as [op | new_text | fields k comp | t b | t |]; simpl.
  - destruct (run_insert_cases entry_eq op p) as [-> | (c & entry & Hc & ->)];
      [exact Hp | apply pack_invariant_insert; assumption].
  - exact Hp.
  - destruct Hp as (H1 & H2 & H3 & H4).
    split; [exact H1 | split; [exact H2 | split; [exact H3 |]]].
    intros k'. rewrite (H4 k'). unfold record_fields, meta_of. simpl.
    destruct (decide (k = k')) as [<- | Hne].
    + rewrite lookup_insert_eq. reflexivity.
    + rewrite lookup_insert_ne by exact Hne. reflexivity.
  - apply pack_invariant_link_index, Hp.
  - apply pack_invariant_group_index, Hp.
  - apply pack_invariant_pickle, Hp.
Qed.

Lemma pack_invariant_run entry_eq calls p :
  pack_invariant p -> pack_invariant (run_calls entry_eq calls p).
Proof.
  revert p. induction calls as [| c calls IH]; intros p Hp; simpl; [exact Hp |].
  apply IH, pack_invariant_call, Hp.
Qed.

(** ** The identifiers and the basic indexes after any calls *)

Lemma NoDup_map_inj_on {A B : Type} (f : A -> B) (l : list A) x y :
  NoDup (map f l) -> In x l -> In y l -> f x = f y -> x = y.
Proof.
  induction l as [| a l IH]; simpl; intros Hn Hx Hy Hf; [contradiction |].
  apply NoDup_cons in Hn as [Ha Hn].
  destruct Hx as [-> | Hx], Hy as [-> | Hy]; auto.
  - exfalso. apply Ha. rewrite list_elem_of_In, Hf. apply in_map, Hy.
  - exfalso. apply Ha. rewrite list_elem_of_In, <- Hf. apply in_map, Hx.
Qed.

Lemma py_str_seq_NoDup n : NoDup (map py_str (seq 0 n)).
Proof.
  change (NoDup (py_str <$> seq 0 n)).
  apply NoDup_fmap_2; [| apply NoDup_seq].
  intros a b Hab. apply (inj pretty) in Hab. exact Hab.
Qed.

(** X7 (tids of a class): after any sequence of calls on a new pack
    (inserts of both kinds, [set_text], [record_fields], lookups of the link
    and of the group index, saving and loading), the tids of the stored
    entries of a class are the strings of the numbers below the counter of
    that class, each carried by one entry; so two stored entries of one
    class never share a tid. *)
Theorem class_tids_after_calls :
  forall entry_eq calls doc k,
    class_tids (run_calls entry_eq calls (DataPack_init doc)) k
    ≡ₚ map py_str
         (seq 0 (id_counter (meta_of (run_calls entry_eq calls (DataPack_init doc)) k)))
    /\ NoDup (class_tids (run_calls entry_eq calls (DataPack_init doc)) k)
    /\ (forall e e',
           In e (stored (run_calls entry_eq calls (DataPack_init doc))) ->
           In e' (stored (run_calls entry_eq calls (DataPack_init doc))) ->
           type_of e = k -> type_of e' = k -> tid e = tid e' -> e = e').
Proof.
  intros entry_eq calls doc k.
  destruct (pack_invariant_run entry_eq calls _ (pack_invariant_init doc))
    as (_ & _ & _ & Hn).
  set (P := run_calls entry_eq calls (DataPack_init doc)) in *.
  assert (Hnd : NoDup (class_tids P k)).
  { rewrite (Hn k). apply py_str_seq_NoDup. }
  split; [apply Hn | split; [exact Hnd |]].
  intros e e' He He' Hk Hk' Ht.
  apply (NoDup_map_inj_on tid
           (List.filter (fun e => bool_decide (type_of e = k)) (stored P)));
    [exact Hnd | | | exact Ht];
    apply filter_In; (split; [assumption | apply bool_decide_eq_true; assumption]).
Qed.

(** X8 (lookup by tid): after any sequence of calls on a new pack,
    [get_entry_by_id] raises [KeyError] exactly for the tids that no stored
    entry carries, and what it returns is a stored entry with the tid asked
    for. *)
Theorem get_entry_by_id_after_calls :
  forall entry_eq calls doc,
    (forall t,
        get_entry_by_id (run_calls entry_eq calls (DataPack_init doc)) t = Raise KeyError
        <-> ~ exists e, In e (stored (run_calls entry_eq calls (DataPack_init doc)))
                        /\ tid e = t)
    /\ (forall t e,
           get_entry_by_id (run_calls entry_eq calls (DataPack_init doc)) t = OK e ->
           In e (stored (run_calls entry_eq calls (DataPack_init doc))) /\ tid e = t)
    /\ (forall e,
           In e (stored (run_calls entry_eq calls (DataPack_init doc))) ->
           exists e',
             get_entry_by_id (run_calls entry_eq calls (DataPack_init doc)) (tid e)
             = OK e').
Proof.
  intros entry_eq calls doc.
  destruct (pack_invariant_run entry_eq calls _ (pack_invariant_init doc))
    as (_ & [H1 H2] & _ & _).
  set (P := run_calls entry_eq calls (DataPack_init doc)) in *.
  unfold get_entry_by_id. split; [| split].
  - intros t. destruct (entry_index (index P) !! t) as [e |] eqn:Ht.
    + split; [discriminate |]. intros Hno. exfalso. apply Hno.
      exists e. apply H1, Ht.
    + split; [| reflexivity]. intros _ (e & He & Hte).
      destruct (H2 e He) as [e' He']. congruence.
  - intros t e. destruct (entry_index (index P) !! t) as [e0 |] eqn:Ht;
      [| discriminate].
    intros Heq. inversion Heq; subst e0. apply H1, Ht.
  - intros e He. destruct (H2 e He) as [e' ->]. eauto.
Qed.

(** X9 (lookup by class and by component): after any sequence of calls on
    a new pack, [get_ids_by_type] gives the tids of the stored instances of
    the class asked for, subclasses included, and [get_ids_by_compoent] the
    tids of the stored entries of the component. *)
Theorem get_ids_after_calls :
  forall entry_eq calls doc,
    (forall tp t,
        t ∈ get_ids_by_type (run_calls entry_eq calls (DataPack_init doc)) tp
        <-> exists e, In e (stored (run_calls entry_eq calls (DataPack_init doc)))
                      /\ tid e = t /\ isinstance e tp = true)
    /\ (forall comp t,
           t ∈ get_ids_by_compoent (run_calls entry_eq calls (DataPack_init doc)) comp
           <-> exists e, In e (stored (run_calls entry_eq calls (DataPack_init doc)))
                         /\ tid e = t /\ component e = comp).
Proof.
  intros entry_eq calls doc.
  destruct (pack_invariant_run entry_eq calls _ (pack_invariant_init doc))
    as ((Ht & Hc & _) & _ & _ & _).
  set (P := run_calls entry_eq calls (DataPack_init doc)) in *.
  split.
  - intros tp t. rewrite elem_of_get_ids_by_type. split.
    + intros (k & Hsub & Hin). apply Ht in Hin as (e & He & Hte & Hk).
      exists e. unfold isinstance. rewrite Hk. auto.
    + intros (e & He & Hte & Hi). exists (type_of e). split; [exact Hi |].
      apply Ht. eauto.
  - intros comp t. apply Hc.
Qed.

(** ** The relation indexes after any calls *)

Lemma link_index_built t as_parent p C P :
  link_index_holds (index p) C P ->
  link_index t as_parent p = (p, OK (dd_get (if as_parent then P else C) t)).
Proof.
  intros (Hon & HC & HP).
  unfold link_index, exec_bind, exec_get, exec_lift, exec_ret. rewrite Hon. simpl.
  unfold dict_get. destruct as_parent; [rewrite HP | rewrite HC]; reflexivity.
Qed.

Lemma dd_get_empty `{Countable K} (k : K) : dd_get (∅ : gmap K (gset string)) k = ∅.
Proof. unfold dd_get. rewrite lookup_empty. reflexivity. Qed.

Lemma fold_link_step_elem (as_parent : bool) links t x :
  x ∈ dd_get (fold_left (if as_parent then parent_step else child_step) links ∅) t
  <-> exists l, In l links /\ tid l = x /\ link_end as_parent l = OK t.
Proof.
  destruct as_parent; simpl;
    [rewrite fold_parent_step_elem | rewrite fold_child_step_elem];
    rewrite dd_get_empty; (split; [intros [H | H]; [| exact H] | auto]);
    apply elem_of_empty in H; contradiction.
Qed.

Lemma fold_member_elem (ms : list string) G tg t x :
  x ∈ dd_get (fold_left (fun G member => dd_add G member tg) ms G) t
  <-> x ∈ dd_get G t \/ (x = tg /\ In t ms).
Proof.
  revert G. induction ms as [| m ms IH]; intros G; simpl.
  - tauto.
  - rewrite IH, elem_of_dd_add. split.
    + intros [[[-> ->] | H] | [-> H]]; auto.
    + intros [H | [-> [-> | H]]]; auto.
Qed.

Lemma fold_group_step_elem groups G t x :
  x ∈ dd_get (fold_left group_step groups G) t
  <-> x ∈ dd_get G t
      \/ exists g ms, In g groups /\ tid g = x /\ body g = Group ms /\ In t ms.
Proof.
  revert G. induction groups as [| g groups IH]; intros G; simpl.
  - split; [auto | intros [H | (g & ms & [] & _)]; exact H].
  - rewrite IH. unfold group_step. split.
    + intros [H | (g' & ms & Hin & Hx & Hb & Ht)];
        [| right; exists g', ms; auto].
      destruct (body g) as [| | ms |] eqn:Hb; auto.
      apply fold_member_elem in H as [H | [-> H]]; [auto |].
      right. exists g, ms. auto.
    + intros [H | (g' & ms & [<- | Hin] & Hx & Hb & Ht)].
      * left. destruct (body g); auto. apply fold_member_elem. auto.
      * left. rewrite Hb. apply fold_member_elem. auto.
      * right. exists g', ms. auto.
Qed.

(** X10 (link index in step): after any sequence of calls on a new pack,
    in which inserts, lookups and reloads may alternate, a lookup of the
    link index ends normally, changes nothing in the pack apart from the
    link index (the store, the basic indexes and the group index with its
    switch are the same), and returns the tids of the links of the pack
    whose parent (or child) is the tid asked for; the same lookup, made
    again, gives the same set and leaves the pack as it is. *)
Theorem link_index_after_calls :
  forall entry_eq calls doc t as_parent,
    exists p' s,
      link_index t as_parent (run_calls entry_eq calls (DataPack_init doc)) = (p', OK s)
      /\ same_store p' (run_calls entry_eq calls (DataPack_init doc))
      /\ same_basic (index p') (index (run_calls entry_eq calls (DataPack_init doc)))
      /\ same_group (index p') (index (run_calls entry_eq calls (DataPack_init doc)))
      /\ (forall x,
             x ∈ s
             <-> exists l,
                 In l (links (run_calls entry_eq calls (DataPack_init doc)))
                 /\ tid l = x /\ link_end as_parent l = OK t)
      /\ link_index t as_parent p' = (p', OK s).
Proof.
  intros entry_eq calls doc t as_parent.
  destruct (pack_invariant_run entry_eq calls _ (pack_invariant_init doc))
    as (_ & _ & Hr & _).
  set (P := run_calls entry_eq calls (DataPack_init doc)) in *.
  destruct (link_index_exact t as_parent P Hr) as (idx' & Heq & Hb & Hg & Hh).
  eexists. eexists. split; [exact Heq |].
  split; [repeat split |]. split; [exact Hb |]. split; [exact Hg |]. split.
  - intros x. apply fold_link_step_elem.
  - rewrite (link_index_built t as_parent (with_index P idx') _ _ Hh).
    destruct as_parent; reflexivity.
Qed.

(** X11 (group index in step): after any sequence of calls on a new pack,
    a lookup of the group index ends normally, changes nothing in the pack
    apart from the group index, and returns the tids of the groups of the
    pack that list the tid asked for among their members. *)
Theorem group_index_after_calls :
  forall entry_eq calls doc t,
    exists p' s,
      group_index t (run_calls entry_eq calls (DataPack_init doc)) = (p', OK s)
      /\ same_store p' (run_calls entry_eq calls (DataPack_init doc))
      /\ same_basic (index p') (index (run_calls entry_eq calls (DataPack_init doc)))
      /\ same_link (index p') (index (run_calls entry_eq calls (DataPack_init doc)))
      /\ (forall x,
             x ∈ s
             <-> exists g ms,
                 In g (groups (run_calls entry_eq calls (DataPack_init doc)))
                 /\ tid g = x /\ body g = Group ms /\ In t ms).
Proof.
  intros entry_eq calls doc t.
  destruct (pack_invariant_run entry_eq calls _ (pack_invariant_init doc))
    as (_ & _ & Hr & _).
  set (P := run_calls entry_eq calls (DataPack_init doc)) in *.
  destruct (group_index_exact t P Hr) as (idx' & Heq & Hb & Hl & _).
  eexists. eexists. split; [exact Heq |].
  split; [repeat split |]. split; [exact Hb |]. split; [exact Hl |].
  intros x. rewrite fold_group_step_elem, dd_get_empty. split.
  - intros [H | H]; [apply elem_of_empty in H; contradiction | exact H].
  - auto.
Qed.

(** ** Saving and loading *)

(** X12 (loading any state): [__setstate__] puts the annotations of the
    state in span order without losing or adding one, takes the links, the
    groups, the text and the metas as they are, and builds the basic indexes
    from the three containers: every stored entry can be looked up by its
    tid, by its class and by its component, and both relation indexes are
    switched off.  A state whose annotations are in order is what
    [__getstate__] gives back. *)
Theorem setstate_rebuilds :
  forall st,
    StronglySorted entry_le (annotations (setstate st))
    /\ annotations (setstate st) ≡ₚ state_annotations st
    /\ links (setstate st) = state_links st
    /\ groups (setstate st) = state_groups st
    /\ text (setstate st) = state_text st
    /\ internal_metas (setstate st) = state_internal_metas st
    /\ entry_index_consistent (setstate st)
    /\ (forall t k, t ∈ dd_get (type_index (index (setstate st))) k
                    <-> exists e, In e (stored (setstate st)) /\ tid e = t /\ type_of e = k)
    /\ (forall t c, t ∈ get_ids_by_compoent (setstate st) c
                    <-> exists e, In e (stored (setstate st)) /\ tid e = t
                                  /\ component e = c)
    /\ _link_index_switch (index (setstate st)) = false
    /\ _group_index_switch (index (setstate st)) = false
    /\ (StronglySorted entry_le (state_annotations st) ->
        getstate (setstate st) = st).
Proof.
  intros st.
  destruct (rebuilt_index_consistent (setstate st) (setstate_index st))
    as (He & Ht & Hc & Hl & Hg).
  split; [apply SortedList_fold_is_sorted; constructor |].
  split; [apply (SortedList_fold_perm (state_annotations st) []) |].
  repeat (split; [reflexivity |]).
  split; [exact He |]. split; [exact Ht |]. split; [exact Hc |].
  split; [exact Hl |]. split; [exact Hg |].
  intros Hs. unfold getstate, setstate. simpl.
  rewrite (SortedList_new_sorted_id _ Hs). destruct st; reflexivity.
Qed.

(** X13 (round trip): after any sequence of calls on a new pack, saving
    the pack and loading it again gives a pack with the same state to save,
    the same answers of [get_ids_by_type] and [get_ids_by_compoent], the
    same tids known to [get_entry_by_id] (and the same entries, when no two
    stored entries share a tid), and the same answers of the link and group
    lookups, whose indexes are rebuilt on demand. *)
Theorem save_load_round_trip :
  forall entry_eq calls doc,
    getstate (setstate (getstate (run_calls entry_eq calls (DataPack_init doc))))
    = getstate (run_calls entry_eq calls (DataPack_init doc))
    /\ (forall tp,
           get_ids_by_type
             (setstate (getstate (run_calls entry_eq calls (DataPack_init doc)))) tp
           = get_ids_by_type (run_calls entry_eq calls (DataPack_init doc)) tp)
    /\ (forall comp,
           get_ids_by_compoent
             (setstate (getstate (run_calls entry_eq calls (DataPack_init doc)))) comp
           = get_ids_by_compoent (run_calls entry_eq calls (DataPack_init doc)) comp)
    /\ (forall t,
           get_entry_by_id
             (setstate (getstate (run_calls entry_eq calls (DataPack_init doc)))) t
           = Raise KeyError
           <-> get_entry_by_id (run_calls entry_eq calls (DataPack_init doc)) t
               = Raise KeyError)
    /\ (unique_tids (run_calls entry_eq calls (DataPack_init doc)) ->
        forall t,
          get_entry_by_id
            (setstate (getstate (run_calls entry_eq calls (DataPack_init doc)))) t
          = get_entry_by_id (run_calls entry_eq calls (DataPack_init doc)) t)
    /\ (forall t as_parent,
           (link_index t as_parent
              (setstate (getstate (run_calls entry_eq calls (DataPack_init doc))))).2
           = (link_index t as_parent (run_calls entry_eq calls (DataPack_init doc))).2)
    /\ (forall t,
           (group_index t
              (setstate (getstate (run_calls entry_eq calls (DataPack_init doc))))).2
           = (group_index t (run_calls entry_eq calls (DataPack_init doc))).2).
Proof.
  intros entry_eq calls doc.
  pose proof (pack_invariant_run entry_eq calls _ (pack_invariant_init doc)) as HP.
  set (P := run_calls entry_eq calls (DataPack_init doc)) in *.
  pose proof (pack_invariant_pickle P HP) as HQ.
  destruct HP as ((HtP & HcP & _ & Hs) & [H1P H2P] & HrP & _).
  rewrite (setstate_getstate P Hs) in HQ |- *.
  set (Q := with_index P (update_basic_index DataIndex_init (stored P))) in *.
  destruct HQ as ((HtQ & HcQ & _) & [H1Q H2Q] & HrQ & _).
  assert (Hst : stored Q = stored P) by reflexivity.
  assert (Hkey : forall t, entry_index (index Q) !! t = None
                           <-> entry_index (index P) !! t = None).
  { intros t. split; intros Hn.
    - destruct (entry_index (index P) !! t) as [e |] eqn:He; [| reflexivity].
      destruct (H1P t e He) as [Hin <-]. rewrite <- Hst in Hin.
      destruct (H2Q e Hin) as [e' He']. congruence.
    - destruct (entry_index (index Q) !! t) as [e |] eqn:He; [| reflexivity].
      destruct (H1Q t e He) as [Hin <-]. rewrite Hst in Hin.
      destruct (H2P e Hin) as [e' He']. congruence. }
  split; [reflexivity |]. split; [| split; [| split; [| split; [| split]]]].
  - intros tp. apply set_eq. intros t. rewrite !elem_of_get_ids_by_type.
    split; intros (k & Hsub & Hin); exists k; (split; [exact Hsub |]).
    + apply HtP. apply HtQ in Hin. exact Hin.
    + apply HtQ. apply HtP in Hin. exact Hin.
  - intros comp. apply set_eq. intros t. unfold get_ids_by_compoent.
    rewrite HcQ, HcP, Hst. reflexivity.
  - intros t. unfold get_entry_by_id. specialize (Hkey t).
    destruct (entry_index (index Q) !! t), (entry_index (index P) !! t);
      split; intros H; try reflexivity; try discriminate;
      destruct Hkey as [Ha Hb]; first [specialize (Ha eq_refl) | specialize (Hb eq_refl)];
      discriminate.
  - intros Hu t. unfold get_entry_by_id. specialize (Hkey t).
    destruct (entry_index (index Q) !! t) as [e |] eqn:HeQ,
             (entry_index (index P) !! t) as [e' |] eqn:HeP.
    + destruct (H1Q t e HeQ) as [Hin Ht]. destruct (H1P t e' HeP) as [Hin' Ht'].
      rewrite Hst in Hin.
      rewrite (NoDup_map_inj_on tid (stored P) e e' Hu Hin Hin'); congruence.
    + destruct Hkey as [_ Hb]. specialize (Hb eq_refl). discriminate.
    + destruct Hkey as [Ha _]. specialize (Ha eq_refl). discriminate.
    + reflexivity.
  - intros t as_parent.
    destruct (link_index_exact t as_parent Q HrQ) as (i1 & -> & _).
    destruct (link_index_exact t as_parent P HrP) as (i2 & -> & _). reflexivity.
  - intros t.
    destruct (group_index_exact t Q HrQ) as (i1 & -> & _).
    destruct (group_index_exact t P HrP) as (i2 & -> & _). reflexivity.
Qed.

(** ** The getters that return sets of entries *)

Section Getters.

Variable entry_eq : Entry -> Entry -> bool.
Variable entry_hash : Entry -> Z.

Lemma set_add_In acc e y :
  In y (set_add entry_eq entry_hash acc e) -> In y acc \/ y = e.
Proof.
  unfold set_add. destruct (set_has entry_eq entry_hash acc e); [auto |].
  rewrite in_app_iff. simpl. intros [H | [H | []]]; auto.
Qed.

Lemma set_add_keeps acc e y :
  In y acc -> In y (set_add entry_eq entry_hash acc e).
Proof.
  unfold set_add. destruct (set_has entry_eq entry_hash acc e); [auto |].
  rewrite in_app_iff. auto.
Qed.

Lemma set_add_has acc e :
  exists y, In y (set_add entry_eq entry_hash acc e)
            /\ (y = e \/ entry_eq y e = true).
Proof.
  unfold set_add. destruct (set_has entry_eq entry_hash acc e) eqn:Hc.
  - unfold set_has in Hc. apply existsb_exists in Hc as (x & Hx & He).
    apply andb_true_iff in He as [_ He]. eauto.
  - exists e. rewrite in_app_iff. simpl. auto.
Qed.

(** The loop of the getters: it ends normally when every tid is in the
    entry index, and the set then holds, up to the equality of entries, the
    entries that the index gives for the tids and that [keep] lets through. *)
Lemma collect_loop (keep : Entry -> bool) p tids acc :
  (forall t, In t tids -> is_Some (entry_index (index p) !! t)) ->
  exists l,
    rfold (fun acc t =>
             entry ← get_entry_by_id p t;
             OK (if keep entry then set_add entry_eq entry_hash acc entry else acc)) tids acc
    = OK l
    /\ (forall y, In y acc -> In y l)
    /\ (forall y, In y l ->
                  In y acc
                  \/ exists t, In t tids /\ get_entry_by_id p t = OK y /\ keep y = true)
    /\ (forall t e, In t tids -> get_entry_by_id p t = OK e -> keep e = true ->
                    exists y, In y l /\ (y = e \/ entry_eq y e = true)).
Proof.
  revert acc. induction tids as [| t tids IH]; intros acc Hall; simpl.
  - exists acc. split; [reflexivity |]. split; [auto |]. split; [auto |].
    intros t e [].
  - destruct (Hall t (or_introl eq_refl)) as [e0 He0].
    assert (Hget : get_entry_by_id p t = OK e0).
    { unfold get_entry_by_id. rewrite He0. reflexivity. }
    rewrite Hget. simpl.
    destruct (IH (if keep e0 then set_add entry_eq entry_hash acc e0 else acc))
      as (l & Hl & Hacc & Hsound & Hcomplete).
    { intros t' Ht'. apply Hall. right. exact Ht'. }
    exists l. split; [exact Hl |]. split; [| split].
    + intros y Hy. apply Hacc. destruct (keep e0); [apply set_add_keeps |]; exact Hy.
    + intros y Hy. destruct (Hsound y Hy) as [Hin | (t' & Ht' & Hg & Hk)].
      * destruct (keep e0) eqn:Hk; [| auto].
        apply set_add_In in Hin as [Hin | ->]; [auto |].
        right. exists t. auto.
      * right. exists t'. auto.
    + intros t' e [<- | Ht'] Hg Hk.
      * assert (e = e0) by congruence. subst e0. rewrite Hk in Hacc.
        destruct (set_add_has acc e) as (y & Hy & Hye).
        exists y. split; [apply Hacc, Hy | exact Hye].
      * eapply Hcomplete; eassumption.
Qed.

Lemma collect_instances_ok p tp tids :
  (forall t, In t tids -> is_Some (entry_index (index p) !! t)) ->
  exists l,
    collect_instances entry_eq entry_hash p tp tids = OK l
    /\ (forall y, In y l ->
                  exists t, In t tids /\ get_entry_by_id p t = OK y
                            /\ isinstance y tp = true)
    /\ (forall t e, In t tids -> get_entry_by_id p t = OK e -> isinstance e tp = true ->
                    exists y, In y l /\ (y = e \/ entry_eq y e = true)).
Proof.
  intros Hall.
  destruct (collect_loop (fun e => isinstance e tp) p tids [] Hall)
    as (l & Hl & _ & Hsound & Hcomplete).
  exists l. split; [exact Hl |]. split; [| exact Hcomplete].
  intros y Hy. destruct (Hsound y Hy) as [[] | H]. exact H.
Qed.

End Getters.

Lemma get_entry_by_id_stored p t e :
  entry_index_consistent p ->
  get_entry_by_id p t = OK e -> In e (stored p) /\ tid e = t.
Proof.
  intros [H1 _]. unfold get_entry_by_id.
  destruct (entry_index (index p) !! t) as [e0 |] eqn:Ht; [| discriminate].
  intros Heq. inversion Heq; subst e0. apply H1, Ht.
Qed.

Lemma stored_tid_indexed p e :
  entry_index_consistent p -> In e (stored p) ->
  is_Some (entry_index (index p) !! tid e).
Proof. intros [_ H2]. apply H2. Qed.

Lemma stored_link_in_links p y :
  pack_invariant p -> In y (stored p) -> is_link y -> In y (links p).
Proof.
  intros ((_ & _ & Ha & _) & _ & (_ & Hg & _) & _) Hin Hl.
  unfold stored in Hin. apply in_app_iff in Hin as [Hin | Hin].
  - rewrite Forall_forall in Ha. apply list_elem_of_In, Ha in Hin.
    unfold is_annotation, is_link in *. congruence.
  - apply in_app_iff in Hin as [Hin | Hin]; [exact Hin |].
    rewrite Forall_forall in Hg. apply list_elem_of_In, Hg in Hin.
    unfold is_group, is_link in *. congruence.
Qed.

Lemma stored_group_in_groups p y :
  pack_invariant p -> In y (stored p) -> is_group y -> In y (groups p).
Proof.
  intros ((_ & _ & Ha & _) & _ & (Hl & _ & _) & _) Hin Hg.
  unfold stored in Hin. apply in_app_iff in Hin as [Hin | Hin].
  - rewrite Forall_forall in Ha. apply list_elem_of_In, Ha in Hin.
    unfold is_annotation, is_group in *. congruence.
  - apply in_app_iff in Hin as [Hin | Hin]; [| exact Hin].
    rewrite Forall_forall in Hl. apply list_elem_of_In, Hl in Hin.
    unfold is_group, is_link in *. congruence.
Qed.

(** X14 (entries by class and by component): after any sequence of calls
    on a new pack, [get_entries_by_type] and [get_entries_by_compoent] end
    normally.  Every entry of the set is a stored entry that
    [get_entry_by_id] returns for its own tid, and an instance of the class
    asked for (for the component: its tid is the tid of a stored entry of
    that component).  Every stored entry of the class (of the component)
    that the index returns for its tid is in the set, up to the equality of
    entries. *)
Theorem get_entries_by_after_calls :
  forall entry_eq entry_hash calls doc,
    (forall tp,
        exists l,
          get_entries_by_type entry_eq entry_hash (run_calls entry_eq calls (DataPack_init doc)) tp
          = OK l
          /\ (forall y, In y l ->
                In y (stored (run_calls entry_eq calls (DataPack_init doc)))
                /\ isinstance y tp = true
                /\ get_entry_by_id (run_calls entry_eq calls (DataPack_init doc)) (tid y)
                   = OK y)
          /\ (forall e,
                In e (stored (run_calls entry_eq calls (DataPack_init doc))) ->
                isinstance e tp = true ->
                get_entry_by_id (run_calls entry_eq calls (DataPack_init doc)) (tid e)
                = OK e ->
                exists y, In y l /\ (y = e \/ entry_eq y e = true)))
    /\ (forall comp,
           exists l,
             get_entries_by_compoent entry_eq entry_hash
               (run_calls entry_eq calls (DataPack_init doc)) comp = OK l
             /\ (forall y, In y l ->
                   In y (stored (run_calls entry_eq calls (DataPack_init doc)))
                   /\ get_entry_by_id (run_calls entry_eq calls (DataPack_init doc))
                        (tid y) = OK y
                   /\ exists e,
                       In e (stored (run_calls entry_eq calls (DataPack_init doc)))
                       /\ tid e = tid y /\ component e = comp)
             /\ (forall e,
                   In e (stored (run_calls entry_eq calls (DataPack_init doc))) ->
                   component e = comp ->
                   get_entry_by_id (run_calls entry_eq calls (DataPack_init doc))
                     (tid e) = OK e ->
                   exists y, In y l /\ (y = e \/ entry_eq y e = true))).
Proof.
  intros entry_eq entry_hash calls doc.
  pose proof (pack_invariant_run entry_eq calls _ (pack_invariant_init doc)) as HP.
  set (P := run_calls entry_eq calls (DataPack_init doc)) in *.
  destruct HP as ((Ht & Hc & _) & He & _ & _).
  split.
  - intros tp.
    destruct (collect_instances_ok entry_eq entry_hash P tp (elements (get_ids_by_type P tp)))
      as (l & Hl & Hsound & Hcomplete).
    { intros t Hin. apply list_elem_of_In, elem_of_elements in Hin.
      apply elem_of_get_ids_by_type in Hin as (k & _ & Hin).
      apply Ht in Hin as (e & Hin & <- & _). apply stored_tid_indexed; assumption. }
    exists l. split; [exact Hl |]. split.
    + intros y Hy. destruct (Hsound y Hy) as (t & _ & Hg & Hi).
      destruct (get_entry_by_id_stored P t y He Hg) as [Hin Hty].
      rewrite Hty. auto.
    + intros e Hin Hi Hg. apply (Hcomplete (tid e) e); [| exact Hg | exact Hi].
      apply list_elem_of_In, elem_of_elements, elem_of_get_ids_by_type.
      exists (type_of e). split; [exact Hi |]. apply Ht. eauto.
  - intros comp.
    destruct (collect_loop entry_eq entry_hash (fun _ => true) P
                (elements (get_ids_by_compoent P comp)) [])
      as (l & Hl & _ & Hsound & Hcomplete).
    { intros t Hin. apply list_elem_of_In, elem_of_elements in Hin.
      apply Hc in Hin as (e & Hin & <- & _). apply stored_tid_indexed; assumption. }
    exists l. split; [exact Hl |]. split.
    + intros y Hy. destruct (Hsound y Hy) as [[] | (t & Hin & Hg & _)].
      destruct (get_entry_by_id_stored P t y He Hg) as [Hst Hty].
      rewrite Hty. split; [exact Hst |]. split; [exact Hg |].
      apply list_elem_of_In, elem_of_elements, Hc in Hin as (e & Hine & Hte & Hce).
      exists e. split; [exact Hine |]. split; congruence.
    + intros e Hin Hce Hg. apply (Hcomplete (tid e) e); [| exact Hg | reflexivity].
      apply list_elem_of_In, elem_of_elements, Hc. eauto.
Qed.

Lemma get_entry_by_id_same_basic p idx' t :
  same_basic idx' (index p) ->
  get_entry_by_id (with_index p idx') t = get_entry_by_id p t.
Proof. intros (He & _). unfold get_entry_by_id. simpl. rewrite He. reflexivity. Qed.

Lemma links_in_stored p l : In l (links p) -> In l (stored p).
Proof. intros H. unfold stored. rewrite !in_app_iff. auto. Qed.

Lemma groups_in_stored p g : In g (groups p) -> In g (stored p).
Proof. intros H. unfold stored. rewrite !in_app_iff. auto. Qed.

(** X15 (links by parent and by child): after any sequence of calls on a
    new pack, [get_links_by_parent] and [get_links_by_child] end normally
    for a tid, and for an entry that has one, and change nothing in the pack
    apart from the link index (the store, the basic indexes and the group
    index with its switch are the same).  Every entry of the set is a link
    of the pack that [get_entry_by_id] returns for its own tid, and its tid
    is the tid of a link with the parent (child) asked for; every link with that parent
    (child) that the index returns for its tid is in the set, up to the
    equality of entries.  For an entry without a tid the getters raise
    [ValueError] and leave the pack as it is. *)
Theorem get_links_by_after_calls :
  forall entry_eq entry_hash calls doc (as_parent : bool) t,
    (exists p' l,
        (if as_parent then get_links_by_parent else get_links_by_child) entry_eq entry_hash
          (RefTid t) (run_calls entry_eq calls (DataPack_init doc)) = (p', OK l)
        /\ same_store p' (run_calls entry_eq calls (DataPack_init doc))
        /\ same_basic (index p') (index (run_calls entry_eq calls (DataPack_init doc)))
        /\ same_group (index p') (index (run_calls entry_eq calls (DataPack_init doc)))
        /\ (forall y, In y l ->
              In y (links (run_calls entry_eq calls (DataPack_init doc)))
              /\ get_entry_by_id (run_calls entry_eq calls (DataPack_init doc)) (tid y)
                 = OK y
              /\ exists link,
                  In link (links (run_calls entry_eq calls (DataPack_init doc)))
                  /\ tid link = tid y /\ link_end as_parent link = OK t)
        /\ (forall link,
              In link (links (run_calls entry_eq calls (DataPack_init doc))) ->
              link_end as_parent link = OK t ->
              get_entry_by_id (run_calls entry_eq calls (DataPack_init doc)) (tid link)
              = OK link ->
              exists y, In y l /\ (y = link \/ entry_eq y link = true)))
    /\ (if as_parent then get_links_by_parent else get_links_by_child) entry_eq entry_hash
         (RefEntry (Some t)) (run_calls entry_eq calls (DataPack_init doc))
       = (if as_parent then get_links_by_parent else get_links_by_child) entry_eq entry_hash
           (RefTid t) (run_calls entry_eq calls (DataPack_init doc))
    /\ (if as_parent then get_links_by_parent else get_links_by_child) entry_eq entry_hash
         (RefEntry None) (run_calls entry_eq calls (DataPack_init doc))
       = (run_calls entry_eq calls (DataPack_init doc), Raise ValueError).
Proof.
  intros entry_eq entry_hash calls doc as_parent t.
  pose proof (pack_invariant_run entry_eq calls _ (pack_invariant_init doc)) as HP.
  set (P := run_calls entry_eq calls (DataPack_init doc)) in *.
  split; [| split; destruct as_parent; reflexivity].
  pose proof HP as (_ & He & Hr & _).
  destruct (link_index_exact t as_parent P Hr) as (idx' & Heq & Hb & Hgr & _).
  pose proof Hr as (Hl & _).
  set (S := dd_get (fold_left (if as_parent then parent_step else child_step)
                      (links P) ∅) t) in *.
  assert (HS : forall x, x ∈ S <-> exists l, In l (links P) /\ tid l = x
                                             /\ link_end as_parent l = OK t).
  { intros x. apply fold_link_step_elem. }
  destruct (collect_instances_ok entry_eq entry_hash (with_index P idx') Link_class (elements S))
    as (l & Hcol & Hsound & Hcomplete).
  { intros x Hx. apply list_elem_of_In, elem_of_elements, HS in Hx as (k & Hk & <- & _).
    destruct Hb as (Hbe & _). simpl. rewrite Hbe.
    apply stored_tid_indexed; [exact He | apply links_in_stored, Hk]. }
  exists (with_index P idx'), l.
  split; [| split; [repeat split | split; [exact Hb | split; [exact Hgr | split]]]].
  - destruct as_parent;
      unfold get_links_by_parent, get_links_by_child, exec_bind, exec_lift, exec_get;
      simpl; rewrite Heq, Hcol; reflexivity.
  - intros y Hy. destruct (Hsound y Hy) as (x & Hx & Hg & Hi).
    rewrite (get_entry_by_id_same_basic P idx' x Hb) in Hg.
    destruct (get_entry_by_id_stored P x y He Hg) as [Hst Hty].
    rewrite Hty. split; [| split; [exact Hg |]].
    + apply stored_link_in_links; [exact HP | exact Hst | apply isinstance_Link, Hi].
    + apply list_elem_of_In, elem_of_elements, HS in Hx as (k & Hk & Htk & Hend).
      exists k. auto.
  - intros link Hin Hend Hg.
    apply (Hcomplete (tid link) link).
    + apply list_elem_of_In, elem_of_elements, HS. eauto.
    + rewrite (get_entry_by_id_same_basic P idx' _ Hb). exact Hg.
    + apply isinstance_Link. rewrite Forall_forall in Hl.
      apply Hl, list_elem_of_In, Hin.
Qed.

(** X16 (groups by member): after any sequence of calls on a new pack,
    [get_groups_by_member] ends normally for a tid, and for an entry that
    has one, and changes nothing in the pack apart from the group index (the
    store, the basic indexes and the link index with its switch are the
    same).
    Every entry of the set is a group of the pack that [get_entry_by_id]
    returns for its own tid, and its tid is the tid of a group that lists the
    member; every group that lists the member and that the index returns for
    its tid is in the set, up to the equality of entries.  For an entry
    without a tid the getter raises [ValueError]. *)
Theorem get_groups_by_member_after_calls :
  forall entry_eq entry_hash calls doc t,
    (exists p' l,
        get_groups_by_member entry_eq entry_hash (RefTid t)
          (run_calls entry_eq calls (DataPack_init doc)) = (p', OK l)
        /\ same_store p' (run_calls entry_eq calls (DataPack_init doc))
        /\ same_basic (index p') (index (run_calls entry_eq calls (DataPack_init doc)))
        /\ same_link (index p') (index (run_calls entry_eq calls (DataPack_init doc)))
        /\ (forall y, In y l ->
              In y (groups (run_calls entry_eq calls (DataPack_init doc)))
              /\ get_entry_by_id (run_calls entry_eq calls (DataPack_init doc)) (tid y)
                 = OK y
              /\ exists g ms,
                  In g (groups (run_calls entry_eq calls (DataPack_init doc)))
                  /\ tid g = tid y /\ body g = Group ms /\ In t ms)
        /\ (forall g ms,
              In g (groups (run_calls entry_eq calls (DataPack_init doc))) ->
              body g = Group ms -> In t ms ->
              get_entry_by_id (run_calls entry_eq calls (DataPack_init doc)) (tid g)
              = OK g ->
              exists y, In y l /\ (y = g \/ entry_eq y g = true)))
    /\ get_groups_by_member entry_eq entry_hash (RefEntry (Some t))
         (run_calls entry_eq calls (DataPack_init doc))
       = get_groups_by_member entry_eq entry_hash (RefTid t)
           (run_calls entry_eq calls (DataPack_init doc))
    /\ get_groups_by_member entry_eq entry_hash (RefEntry None)
         (run_calls entry_eq calls (DataPack_init doc))
       = (run_calls entry_eq calls (DataPack_init doc), Raise ValueError).
Proof.
  intros entry_eq entry_hash calls doc t.
  pose proof (pack_invariant_run entry_eq calls _ (pack_invariant_init doc)) as HP.
  set (P := run_calls entry_eq calls (DataPack_init doc)) in *.
  split; [| split; reflexivity].
  pose proof HP as (_ & He & Hr & _).
  destruct (group_index_exact t P Hr) as (idx' & Heq & Hb & Hli & _).
  pose proof Hr as (_ & Hgr & _).
  set (S := dd_get (fold_left group_step (groups P) ∅) t) in *.
  assert (HS : forall x, x ∈ S <-> exists g ms, In g (groups P) /\ tid g = x
                                                /\ body g = Group ms /\ In t ms).
  { intros x. unfold S. rewrite fold_group_step_elem, dd_get_empty. split.
    - intros [H | H]; [apply elem_of_empty in H; contradiction | exact H].
    - auto. }
  destruct (collect_instances_ok entry_eq entry_hash (with_index P idx') Group_class (elements S))
    as (l & Hcol & Hsound & Hcomplete).
  { intros x Hx.
    apply list_elem_of_In, elem_of_elements, HS in Hx as (g & ms & Hg & <- & _).
    destruct Hb as (Hbe & _). simpl. rewrite Hbe.
    apply stored_tid_indexed; [exact He | apply groups_in_stored, Hg]. }
  exists (with_index P idx'), l.
  split; [| split; [repeat split | split; [exact Hb | split; [exact Hli | split]]]].
  - unfold get_groups_by_member, exec_bind, exec_lift, exec_get.
    simpl. rewrite Heq, Hcol. reflexivity.
  - intros y Hy. destruct (Hsound y Hy) as (x & Hx & Hg & Hi).
    rewrite (get_entry_by_id_same_basic P idx' x Hb) in Hg.
    destruct (get_entry_by_id_stored P x y He Hg) as [Hst Hty].
    rewrite Hty. split; [| split; [exact Hg |]].
    + apply stored_group_in_groups; [exact HP | exact Hst | apply isinstance_Group, Hi].
    + apply list_elem_of_In, elem_of_elements, HS in Hx as (g & ms & Hin & Htg & Hbg & Hm).
      exists g, ms. auto.
  - intros g ms Hin Hbg Hm Hg.
    apply (Hcomplete (tid g) g).
    + apply list_elem_of_In, elem_of_elements, HS. eauto 6.
    + rewrite (get_entry_by_id_same_basic P idx' _ Hb). exact Hg.
    + apply isinstance_Group. rewrite Forall_forall in Hgr.
      apply Hgr, list_elem_of_In, Hin.
Qed.

(** ** Recording fields *)

Lemma dd_get_insert `{Countable K} (m : gmap K (gset string)) (k : K) s :
  dd_get (<[k := s]> m) k = s.
Proof. unfold dd_get. rewrite lookup_insert_eq. reflexivity. Qed.

(** The loop of [record_fields], in closed form. *)
Lemma fold_dd_add (fs : list string) (fc : gmap string (gset string)) comp :
  fs <> [] ->
  fold_left (fun fc field => dd_add fc comp field) fs fc
  = <[comp := list_to_set fs ∪ dd_get fc comp]> fc.
Proof.
  revert fc. induction fs as [| f fs IH]; intros fc Hne; [contradiction |]. simpl.
  destruct fs as [| f' fs].
  - simpl. unfold dd_add. f_equal. apply set_eq. intros x.
    rewrite !elem_of_union, elem_of_empty. tauto.
  - rewrite IH by discriminate. unfold dd_add.
    rewrite dd_get_insert, insert_insert_eq. f_equal. apply set_eq. intros x.
    rewrite !elem_of_union. tauto.
Qed.

Lemma record_fields_created p fields k comp :
  fields_created (meta_of (record_fields p fields k comp).1 k)
  = <[comp := list_to_set (fields ++ ["tid"]) ∪ dd_get (fields_created (meta_of p k)) comp]>
      (fields_created (meta_of p k)).
Proof.
  unfold record_fields, meta_of at 1. simpl. rewrite lookup_insert_eq. simpl.
  apply fold_dd_add. destruct fields; discriminate.
Qed.

Lemma record_fields_default p fields k comp :
  default_component (meta_of (record_fields p fields k comp).1 k)
  = Some (default comp (default_component (meta_of p k))).
Proof.
  unfold record_fields, meta_of. simpl. rewrite lookup_insert_eq. simpl.
  destruct (internal_metas p !! k) as [m |] eqn:Hk; simpl.
  - destruct (default_component m); reflexivity.
  - reflexivity.
Qed.

Lemma record_fields_again p fields k comp :
  (record_fields (record_fields p fields k comp).1 fields k comp).1
  = (record_fields p fields k comp).1.
Proof.
  pose proof (record_fields_created p fields k comp) as Hfc.
  pose proof (record_fields_default p fields k comp) as Hdc.
  assert (Him : internal_metas (record_fields p fields k comp).1 !! k
                = Some (meta_of (record_fields p fields k comp).1 k)).
  { unfold record_fields, meta_of. simpl. rewrite !lookup_insert_eq. reflexivity. }
  remember (record_fields p fields k comp).1 as p1 eqn:Hp1. clear Hp1.
  assert (Hfold : fold_left (fun fc field => dd_add fc comp field)
                    (fields ++ ["tid"])%list (fields_created (meta_of p1 k))
                  = fields_created (meta_of p1 k)).
  { rewrite fold_dd_add by (destruct fields; discriminate).
    rewrite Hfc, dd_get_insert, insert_insert_eq. f_equal.
    apply set_eq. intros x. rewrite !elem_of_union. tauto. }
  unfold record_fields. cbv zeta. cbn [fst].
  rewrite Hfold.
  rewrite (bool_decide_eq_false_2 (internal_metas p1 !! k = None))
    by (rewrite Him; discriminate).
  rewrite (bool_decide_eq_false_2 (default_component (meta_of p1 k) = None))
    by (rewrite Hdc; discriminate).
  cbn [orb].
  assert (Hm : mkInternalMeta (id_counter (meta_of p1 k))
                 (fields_created (meta_of p1 k)) (default_component (meta_of p1 k))
               = meta_of p1 k) by (destruct (meta_of p1 k); reflexivity).
  rewrite Hm, insert_id by exact Him.
  destruct p1; reflexivity.
Qed.

(** X17 (record_fields): the call returns the caller's list with ["tid"]
    appended; in the meta of the class it adds the given fields and ["tid"]
    to the fields of the component and removes nothing; the default
    component of the class is set by the first call and kept afterwards; the
    id counter of the class, the metas of other classes, the text, the
    containers and the index are left alone; and the same call, made again,
    changes nothing. *)
Theorem record_fields_effect :
  forall p fields k comp,
    (record_fields p fields k comp).2 = (fields ++ ["tid"])%list
    /\ (forall c f,
           f ∈ dd_get (fields_created (meta_of (record_fields p fields k comp).1 k)) c
           <-> (c = comp /\ (In f fields \/ f = "tid"))
               \/ f ∈ dd_get (fields_created (meta_of p k)) c)
    /\ default_component (meta_of (record_fields p fields k comp).1 k)
       = Some (default comp (default_component (meta_of p k)))
    /\ id_counter (meta_of (record_fields p fields k comp).1 k)
       = id_counter (meta_of p k)
    /\ (forall k', k' <> k ->
           internal_metas (record_fields p fields k comp).1 !! k'
           = internal_metas p !! k')
    /\ _text (record_fields p fields k comp).1 = _text p
    /\ stored (record_fields p fields k comp).1 = stored p
    /\ index (record_fields p fields k comp).1 = index p
    /\ (record_fields (record_fields p fields k comp).1 fields k comp).1
       = (record_fields p fields k comp).1.
Proof.
  intros p fields k comp.
  split; [reflexivity |]. split; [| split; [apply record_fields_default |]].
  - intros c f. rewrite record_fields_created.
    destruct (decide (c = comp)) as [-> | Hne].
    + rewrite dd_get_insert, elem_of_union, elem_of_list_to_set, list_elem_of_In.
      rewrite in_app_iff. simpl. intuition auto.
    + unfold dd_get at 1. rewrite lookup_insert_ne by congruence. intuition auto.
  - split.
    { unfold record_fields, meta_of. simpl. rewrite lookup_insert_eq. reflexivity. }
    split.
    { intros k' Hne. unfold record_fields. simpl.
      rewrite lookup_insert_ne by congruence. reflexivity. }
    repeat (split; [reflexivity |]).
    apply record_fields_again.
Qed.

(** ** Insertion after any calls *)

Lemma relations_in_sync_ready p : relations_in_sync p -> link_index_ready (index p).
Proof.
  intros (_ & _ & Hli & _) Hon. destruct (Hli Hon) as (_ & HC & HP).
  split; eauto.
Qed.

Lemma target_of_raises entry e : target_of entry = Raise e -> e = ValueError.
Proof. unfold target_of. destruct (body entry); congruence. Qed.

(** X18 (add_entry after any calls): after any sequence of calls on a new
    pack, [add_entry] either raises [ValueError] and leaves the pack as it
    is (the entry is no annotation, link or group), or it returns the entry
    with the tid minted from the counter of its class; in that case the
    entry is what [get_entry_by_id] returns for that tid, the pack stores it
    and what it stored before, the counter of the class has advanced by one
    and the text is the same.  No other exception occurs. *)
Theorem add_entry_after_calls :
  forall entry_eq calls doc entry,
    (target_of entry = Raise ValueError
     /\ add_entry entry (run_calls entry_eq calls (DataPack_init doc))
        = (run_calls entry_eq calls (DataPack_init doc), Raise ValueError))
    \/ (exists c p',
           target_of entry = OK c
           /\ add_entry entry (run_calls entry_eq calls (DataPack_init doc))
              = (p', OK (minted (run_calls entry_eq calls (DataPack_init doc)) entry))
           /\ get_entry_by_id p'
                (tid (minted (run_calls entry_eq calls (DataPack_init doc)) entry))
              = OK (minted (run_calls entry_eq calls (DataPack_init doc)) entry)
           /\ stored p'
              ≡ₚ minted (run_calls entry_eq calls (DataPack_init doc)) entry
                 :: stored (run_calls entry_eq calls (DataPack_init doc))
           /\ id_counter (meta_of p' (type_of entry))
              = S (id_counter
                     (meta_of (run_calls entry_eq calls (DataPack_init doc))
                        (type_of entry)))
           /\ _text p' = _text (run_calls entry_eq calls (DataPack_init doc))).
Proof.
  intros entry_eq calls doc entry.
  pose proof (pack_invariant_run entry_eq calls _ (pack_invariant_init doc)) as HP.
  set (P := run_calls entry_eq calls (DataPack_init doc)) in *.
  destruct HP as (_ & _ & Hr & _).
  unfold add_entry, exec_bind, exec_lift.
  destruct (target_of entry) as [c | e] eqn:Hc.
  - right. exists c, (insert_entry c entry P).1.
    destruct (insert_entry_ready c entry P (relations_in_sync_ready P Hr)) as [Hres _].
    split; [reflexivity |]. split.
    { rewrite <- Hres. destruct (insert_entry c entry P); reflexivity. }
    split.
    { destruct (insert_entry_basic c entry P) as (He & _).
      unfold get_entry_by_id. rewrite He.
      change (entry_index (basic_index_step (index P) (minted P entry)))
        with (<[tid (minted P entry) := minted P entry]> (entry_index (index P))).
      rewrite lookup_insert_eq. reflexivity. }
    split; [apply stored_insert_perm |].
    split.
    { rewrite insert_entry_counter, bool_decide_eq_true_2 by reflexivity. reflexivity. }
    destruct (insert_entry_same_store c entry P) as (Ht & _). rewrite Ht.
    destruct c; reflexivity.
  - left. rewrite (target_of_raises entry e Hc). auto.
Qed.

(** ** Switches turned by hand *)

Lemma relation_indexes_unbuilt_call entry_eq c p :
  pack_invariant p ->
  relation_indexes_unbuilt p -> relation_indexes_unbuilt (run_call entry_eq c p).
Proof.
  intros Hp [HL HG].
  destruct c as [op | new_text | fields k comp | t b | t |]; cbn [run_call].
  - destruct (run_insert_cases entry_eq op p) as [-> | (c & entry & Hc & ->)];
      [split; assumption |].
    rewrite insert_entry_unfold.
    destruct (stored_pack_link c entry p) as [Hsl Hss].
    destruct (stored_pack_group c entry p) as [Hsg Hsgs].
    split.
    + intros Hoff.
      destruct (_link_index_switch (index p)) eqn:Hsw.
      * destruct Hp as (_ & _ & (_ & _ & Hli & _) & _).
        destruct (Hli Hsw) as (_ & HC & HP).
        assert (Hh : link_index_holds (index (stored_pack c entry p))
                       (fold_left child_step (links p) ∅)
                       (fold_left parent_step (links p) ∅)).
        { unfold link_index_holds. rewrite Hsl, Hss. auto. }
        destruct (relation_updates_on (minted p entry) _ _ _ Hh) as [(Hon & _) _].
        congruence.
      * destruct (relation_updates_off (minted p entry) (stored_pack c entry p))
          as [[Hl' _] _]; [congruence |].
        rewrite Hl', Hsl. apply HL. reflexivity.
    + destruct (relation_updates_group (minted p entry) (stored_pack c entry p))
        as [Hs' HG'].
      rewrite Hs', Hsgs. intros Hoff. rewrite HG', Hsgs, Hoff, Hsg. apply HG, Hoff.
  - exact (conj HL HG).
  - exact (conj HL HG).
  - destruct Hp as (_ & _ & Hr & _).
    destruct (link_index_exact t b p Hr) as (idx' & -> & _ & [HG' HS'] & (Hon & _)).
    split; simpl; [congruence |]. rewrite HS', HG'. exact HG.
  - destruct Hp as (_ & _ & Hr & _).
    destruct (group_index_exact t p Hr) as (idx' & -> & _ & [HL' HS'] & Hon & _).
    split; simpl; [| congruence]. rewrite HS', HL'. exact HL.
  - destruct (update_basic_index_relations (stored (setstate (getstate p))) DataIndex_init)
      as [[H1 _] [H2 _]].
    unfold relation_indexes_unbuilt. rewrite setstate_index.
    split; intros _; [rewrite H1 | rewrite H2]; reflexivity.
Qed.

Lemma relation_indexes_unbuilt_run entry_eq calls p :
  pack_invariant p ->
  relation_indexes_unbuilt p -> relation_indexes_unbuilt (run_calls entry_eq calls p).
Proof.
  revert p. induction calls as [| c calls IH]; intros p Hp Hu; simpl; [exact Hu |].
  apply IH; [apply pack_invariant_call, Hp | apply relation_indexes_unbuilt_call; assumption].
Qed.

Lemma update_link_index_missing pack_links link idx :
  _link_index_switch idx = true ->
  _link_index idx !! "child_index" = None ->
  update_link_index pack_links [link] idx = (idx, Raise KeyError).
Proof.
  intros Hon Hnone.
  unfold update_link_index, exec_bind at 1, exec_get, link_index_switch.
  rewrite Hon. simpl.
  unfold exec_bind at 1, link_index_step, exec_bind at 1, link_index_add,
    exec_bind at 1, exec_get, exec_bind at 1, exec_lift, dict_get.
  rewrite Hnone. reflexivity.
Qed.

(** X19 (link switch turned on by hand): on a pack reached by any calls
    whose link index is not built, [index.turn_link_index_switch(True)]
    claims an index that does not exist: every lookup of the link index then
    raises [KeyError], and [add_entry] of a link raises [KeyError] after it
    has stored the link, indexed it by tid and advanced the counter. *)
Theorem link_switch_turned_by_hand :
  forall entry_eq calls doc,
    _link_index_switch (index (run_calls entry_eq calls (DataPack_init doc))) = false ->
    (forall t as_parent,
        link_index t as_parent
          (link_switch_turned true (run_calls entry_eq calls (DataPack_init doc)))
        = (link_switch_turned true (run_calls entry_eq calls (DataPack_init doc)),
           Raise KeyError))
    /\ (forall link,
           target_of link = OK CLinks ->
           exists q',
             add_entry link
               (link_switch_turned true (run_calls entry_eq calls (DataPack_init doc)))
             = (q', Raise KeyError)
             /\ links q'
                = (links (run_calls entry_eq calls (DataPack_init doc))
                   ++ [minted (run_calls entry_eq calls (DataPack_init doc)) link])%list
             /\ get_entry_by_id q'
                  (tid (minted (run_calls entry_eq calls (DataPack_init doc)) link))
                = OK (minted (run_calls entry_eq calls (DataPack_init doc)) link)
             /\ id_counter (meta_of q' (type_of link))
                = S (id_counter
                       (meta_of (run_calls entry_eq calls (DataPack_init doc))
                          (type_of link)))).
Proof.
  intros entry_eq calls doc Hoff.
  pose proof (pack_invariant_run entry_eq calls _ (pack_invariant_init doc)) as HP.
  assert (Hu : relation_indexes_unbuilt (run_calls entry_eq calls (DataPack_init doc))).
  { apply relation_indexes_unbuilt_run; [apply pack_invariant_init |].
    split; reflexivity. }
  set (P := run_calls entry_eq calls (DataPack_init doc)) in *.
  destruct Hu as [HL _]. specialize (HL Hoff).
  split.
  - intros t as_parent.
    unfold link_index, exec_bind, exec_get, exec_lift, link_switch_turned. simpl.
    rewrite HL. unfold dict_get. rewrite !lookup_empty.
    destruct as_parent; reflexivity.
  - intros link Hc.
    set (Q := link_switch_turned true P).
    exists (stored_pack CLinks link Q).
    assert (Hil : isinstance (minted Q link) Link_class = true).
    { apply isinstance_Link. destruct (insert_entry_links CLinks link Q Hc) as [_ Hl].
      apply Hl. reflexivity. }
    split; [| split; [reflexivity | split]].
    + unfold add_entry, exec_bind at 1, exec_lift. rewrite Hc.
      rewrite insert_entry_unfold.
      unfold relation_updates, exec_bind at 1, exec_get.
      rewrite Hil.
      change (link_index_switch (index (stored_pack CLinks link Q))) with true.
      cbn [andb exec_when]. unfold exec_bind at 1, on_index.
      rewrite update_link_index_missing.
      * rewrite with_index_id. reflexivity.
      * reflexivity.
      * change (_link_index (index (stored_pack CLinks link Q)))
          with (_link_index (index P)).
        rewrite HL. apply lookup_empty.
    + unfold get_entry_by_id.
      change (entry_index (index (stored_pack CLinks link Q)))
        with (<[tid (minted P link) := minted P link]> (entry_index (index P))).
      rewrite lookup_insert_eq. reflexivity.
    + unfold stored_pack, meta_of. simpl. rewrite lookup_insert_eq. reflexivity.
Qed.

Lemma link_switch_turned_by_hand_witness :
  (forall t as_parent,
      link_index t as_parent
        (link_switch_turned true
           (run_calls same_content [CallInsert (AddEntry dependency_0_1)]
              (DataPack_init None)))
      = (link_switch_turned true
           (run_calls same_content [CallInsert (AddEntry dependency_0_1)]
              (DataPack_init None)),
         Raise KeyError))
  /\ (forall link,
         target_of link = OK CLinks ->
         exists q',
           add_entry link
             (link_switch_turned true
                (run_calls same_content [CallInsert (AddEntry dependency_0_1)]
                   (DataPack_init None)))
           = (q', Raise KeyError)
           /\ links q'
              = (links (run_calls same_content [CallInsert (AddEntry dependency_0_1)]
                          (DataPack_init None))
                 ++ [minted (run_calls same_content
                               [CallInsert (AddEntry dependency_0_1)]
                               (DataPack_init None)) link])%list
           /\ get_entry_by_id q'
                (tid (minted (run_calls same_content
                                [CallInsert (AddEntry dependency_0_1)]
                                (DataPack_init None)) link))
              = OK (minted (run_calls same_content
                              [CallInsert (AddEntry dependency_0_1)]
                              (DataPack_init None)) link)
           /\ id_counter (meta_of q' (type_of link))
              = S (id_counter
                     (meta_of (run_calls same_content
                                 [CallInsert (AddEntry dependency_0_1)]
                                 (DataPack_init None)) (type_of link)))).
Proof.
  apply (link_switch_turned_by_hand same_content
           [CallInsert (AddEntry dependency_0_1)] None).
  vm_compute. reflexivity.
Defined.

(** X20 (group switch turned on by hand): on a pack reached by any calls
    whose group index is not built, [index.turn_group_index_switch(True)]
    makes the lookups skip the build: [group_index] then returns the empty
    set for every tid, whatever groups the pack holds, and leaves the pack
    as it is. *)
Theorem group_switch_turned_by_hand :
  forall entry_eq calls doc t,
    _group_index_switch (index (run_calls entry_eq calls (DataPack_init doc))) = false ->
    group_index t
      (group_switch_turned true (run_calls entry_eq calls (DataPack_init doc)))
    = (group_switch_turned true (run_calls entry_eq calls (DataPack_init doc)), OK ∅).
Proof.
  intros entry_eq calls doc t Hoff.
  assert (Hu : relation_indexes_unbuilt (run_calls entry_eq calls (DataPack_init doc))).
  { apply relation_indexes_unbuilt_run; [apply pack_invariant_init |].
    split; reflexivity. }
  set (P := run_calls entry_eq calls (DataPack_init doc)) in *.
  destruct Hu as [_ HG]. specialize (HG Hoff).
  unfold group_index, exec_bind, exec_get, exec_ret, group_switch_turned. simpl.
  rewrite HG, dd_get_empty. reflexivity.
Qed.

Lemma group_switch_turned_by_hand_witness :
  group_index "0"
    (group_switch_turned true
       (run_calls same_content group_0_1_in_pack (DataPack_init None)))
  = (group_switch_turned true
       (run_calls same_content group_0_1_in_pack (DataPack_init None)), OK ∅)
  /\ (group_index "0"
        (run_calls same_content group_0_1_in_pack (DataPack_init None))).2
     = OK {["0"]}.
Proof.
  split.
  - apply (group_switch_turned_by_hand same_content group_0_1_in_pack None "0").
    vm_compute. reflexivity.
  - vm_compute. reflexivity.
Defined.

(** ** Links and groups through [get_entries] *)

Lemma gen_filter_cons_some {A B : Type} (keep : A -> result (option B)) x y l :
  keep x = OK (Some y) ->
  gen_filter keep (x :: l) = (y :: (gen_filter keep l).1, (gen_filter keep l).2).
Proof. simpl. intros ->. destruct (gen_filter keep l); reflexivity. Qed.

Lemma gen_filter_indexed p l :
  (forall t, In t l -> is_Some (entry_index (index p) !! t)) ->
  exists ys,
    gen_filter (fun entry_id : string =>
                  entry ← get_entry_by_id p entry_id;
                  b ← in_range p None entry;
                  OK (keep_if b entry)) l = (ys, None)
    /\ Forall2 (fun t y => get_entry_by_id p t = OK y) l ys.
Proof.
  induction l as [| t l IH]; intros Hall.
  - exists []. split; [reflexivity | constructor].
  - destruct (Hall t (or_introl eq_refl)) as [e He].
    assert (Hg : get_entry_by_id p t = OK e).
    { unfold get_entry_by_id. rewrite He. reflexivity. }
    destruct IH as (ys & Hys & HF); [intros t' Ht'; apply Hall; right; exact Ht' |].
    rewrite (gen_filter_cons_some _ t e) by (rewrite Hg; reflexivity).
    rewrite Hys. exists (e :: ys). split; [reflexivity | constructor; assumption].
Qed.

Lemma elem_of_valid_ids p tp comps t :
  t ∈ valid_ids p tp comps -> t ∈ get_ids_by_type p tp.
Proof.
  unfold valid_ids. destruct comps as [[c | cs] |]; [| | auto];
    rewrite elem_of_intersection; tauto.
Qed.

(** X21 (links and groups through get_entries): after any sequence of
    calls that leaves at least one annotation in the pack, [get_entries] for
    a class of links or groups and without a range ends normally and yields
    one entry for every id of the class (and components), namely the entry
    that [get_entry_by_id] returns for that id. *)
Theorem get_entries_relations :
  forall entry_eq calls doc tp comps,
    annotations (run_calls entry_eq calls (DataPack_init doc)) <> [] ->
    issubclass tp Annotation_class = false ->
    issubclass tp Link_class || issubclass tp Group_class = true ->
    exists ys,
      get_entries (run_calls entry_eq calls (DataPack_init doc)) tp None comps
      = (ys, None)
      /\ Forall2
           (fun t y =>
              get_entry_by_id (run_calls entry_eq calls (DataPack_init doc)) t = OK y)
           (elements (valid_ids (run_calls entry_eq calls (DataPack_init doc)) tp comps))
           ys.
Proof.
  intros entry_eq calls doc tp comps Hne Hna Hrel.
  pose proof (pack_invariant_run entry_eq calls _ (pack_invariant_init doc)) as HP.
  set (P := run_calls entry_eq calls (DataPack_init doc)) in *.
  destruct HP as ((Ht & _ & Ha & _) & He & _ & _).
  destruct (gen_filter_indexed P (elements (valid_ids P tp comps))) as (ys & Hys & HF).
  { intros t Hin. apply list_elem_of_In, elem_of_elements, elem_of_valid_ids in Hin.
    apply elem_of_get_ids_by_type in Hin as (k & _ & Hin).
    apply Ht in Hin as (e & Hin & <- & _). apply stored_tid_indexed; assumption. }
  exists ys. split; [| exact HF].
  unfold get_entries, list_last.
  destruct (last (annotations P)) as [z |] eqn:Hlast.
  - assert (Hz : is_annotation z).
    { rewrite Forall_forall in Ha. apply Ha.
      apply last_Some in Hlast as (l' & ->). apply elem_of_app. right.
      apply list_elem_of_here. }
    unfold is_annotation, variant_of in Hz.
    destruct (body z) eqn:Hb; try discriminate.
    simpl. unfold span_of. rewrite Hb. simpl.
    rewrite Hna, Hrel. destruct comps as [[c | cs] |]; exact Hys.
  - apply last_None in Hlast. contradiction.
Qed.

Lemma get_entries_relations_witness :
  exists ys,
    get_entries (run_calls same_content tokens_and_link (DataPack_init None))
      (VLink, ["Dependency"]) None None = (ys, None)
    /\ Forall2
         (fun t y =>
            get_entry_by_id (run_calls same_content tokens_and_link (DataPack_init None)) t
            = OK y)
         (elements (valid_ids (run_calls same_content tokens_and_link (DataPack_init None))
                      (VLink, ["Dependency"]) None))
         ys.
Proof.
  apply (get_entries_relations same_content tokens_and_link None
           (VLink, ["Dependency"]) None).
  - vm_compute. discriminate.
  - reflexivity.
  - reflexivity.
Defined.

(** ** The context kind and the errors of a request *)

Lemma ascii_lower_idem c : ascii_lower (ascii_lower c) = ascii_lower c.
Proof. destruct c as [[] [] [] [] [] [] [] []]; reflexivity. Qed.

Lemma str_lower_idem s : str_lower (str_lower s) = str_lower s.
Proof.
  induction s as [| c s IH]; simpl; [reflexivity |].
  rewrite ascii_lower_idem, IH. reflexivity.
Qed.

(** X22 (context kind): [get_data] reads the context kind without regard
    to case; for a kind that is neither ["document"] nor ["sentence"] it
    yields nothing and raises nothing; for ["document"] it yields at most
    one record and does not look at [offset]. *)
Theorem get_data_context_kind :
  forall np_arrays p context_type requests offset,
    get_data np_arrays p (str_lower context_type) requests offset
    = get_data np_arrays p context_type requests offset
    /\ (str_lower context_type <> "document" ->
        str_lower context_type <> "sentence" ->
        get_data np_arrays p context_type requests offset = ([], None))
    /\ (str_lower context_type = "document" ->
        (length (get_data np_arrays p context_type requests offset).1 <= 1)%nat
        /\ forall offset',
            get_data np_arrays p context_type requests offset'
            = get_data np_arrays p context_type requests offset).
Proof.
  intros np_arrays p context_type requests offset.
  split; [| split].
  - unfold get_data. rewrite str_lower_idem. reflexivity.
  - intros Hd Hs. unfold get_data.
    rewrite !bool_decide_eq_false_2 by assumption. reflexivity.
  - intros Hd. rewrite !(get_data_document np_arrays p context_type requests _ Hd).
    split.
    + destruct (document_record np_arrays p requests); simpl; lia.
    + intros offset'. rewrite (get_data_document np_arrays p context_type requests _ Hd).
      reflexivity.
Qed.

Lemma pick_sentence_twice l (has : bool) t a :
  ((if has then 1 else 2)
   <= length (List.filter (fun kv : class * request_args => issubclass kv.1 Sentence) l))%nat ->
  rfold pick_sentence_step l (has, t, a) = Raise KeyError.
Proof.
  revert has t a. induction l as [| [k args] l IH]; intros has t a Hn.
  - simpl in Hn. destruct has; lia.
  - simpl in Hn |- *. destruct (issubclass k Sentence) eqn:Hk; simpl in Hn |- *.
    + destruct has; [reflexivity |]. simpl. apply IH. simpl. lia.
    + apply IH, Hn.
Qed.

(** X23 (two kinds of sentences): in the ["sentence"] context a request
    that names two classes of sentences ([Sentence] or classes derived from
    it) is refused: [get_data] yields nothing and raises [KeyError],
    whatever the pack holds. *)
Theorem get_data_two_sentence_kinds :
  forall np_arrays p context_type requests offset,
    str_lower context_type = "sentence" ->
    (2 <= length (List.filter (fun kv : class * request_args => issubclass kv.1 Sentence)
                    (annotation_types requests)))%nat ->
    get_data np_arrays p context_type requests offset = ([], Some KeyError).
Proof.
  intros np_arrays p context_type requests offset Hs Hn.
  unfold get_data. rewrite Hs.
  rewrite bool_decide_eq_false_2 by discriminate.
  rewrite bool_decide_eq_true_2 by reflexivity.
  rewrite (pick_sentence_twice _ false Sentence ArgNone Hn). reflexivity.
Qed.

Lemma get_data_two_sentence_kinds_witness :
  get_data arrays_as_lists pack_two_sentences "Sentence" two_sentence_kinds 0
  = ([], Some KeyError).
Proof.
  apply (get_data_two_sentence_kinds arrays_as_lists pack_two_sentences "Sentence"
           two_sentence_kinds 0).
  - reflexivity.
  - vm_compute. lia.
Defined.

(** X24 (units): when a request names a unit, [_generate_link_entry_data]
    raises [ValueError]; [_generate_annotation_entry_data] raises [KeyError]
    unless the record already has an item for the unit; so in the
    ["document"] context a unit in the first annotation request makes
    [get_data] yield nothing and raise [KeyError], as the record then holds
    only the context and the offset. *)
Theorem request_unit_errors :
  forall np_arrays p a_type a_args data sent comps u fields,
    _parse_request_args p a_type a_args = OK (comps, Some u, fields) ->
    _generate_link_entry_data np_arrays p a_type a_args data sent = Raise ValueError
    /\ (u ∉ dom data ->
        _generate_annotation_entry_data np_arrays p a_type a_args data sent = Raise KeyError)
    /\ (forall context_type requests rest offset,
           str_lower context_type = "document" ->
           annotation_types requests = (a_type, a_args) :: rest ->
           u <> "context" -> u <> "offset" ->
           get_data np_arrays p context_type requests offset = ([], Some KeyError)).
Proof.
  intros np_arrays p a_type a_args data sent comps u fields Hparse.
  assert (Hann : forall data' sent', u ∉ dom data' ->
            _generate_annotation_entry_data np_arrays p a_type a_args data' sent' = Raise KeyError).
  { intros data' sent' Hu. unfold _generate_annotation_entry_data, annotation_columns.
    rewrite Hparse. simpl. rewrite bool_decide_eq_false_2 by exact Hu. reflexivity. }
  split; [| split].
  - unfold _generate_link_entry_data, link_columns. rewrite Hparse. reflexivity.
  - apply Hann.
  - intros context_type requests rest offset Hd Hreq Hc Ho.
    rewrite (get_data_document np_arrays p context_type requests offset Hd).
    unfold document_record. rewrite Hreq.
    erewrite rfold_first_raises; [reflexivity |].
    unfold add_annotation_data. case_bool_decide as Hk; [reflexivity |].
    rewrite Hann; [reflexivity |].
    rewrite !dom_insert, dom_empty, !elem_of_union, !elem_of_singleton, elem_of_empty.
    intros [? | [? | []]]; contradiction.
Qed.

Lemma request_unit_errors_witness :
  _generate_link_entry_data arrays_as_lists pack_two_sentences Token token_by_sentence
    ∅ None
  = Raise ValueError
  /\ ("Sentence" ∉ dom (∅ : gmap string datum) ->
      _generate_annotation_entry_data arrays_as_lists pack_two_sentences Token
        token_by_sentence ∅ None
      = Raise KeyError)
  /\ (forall context_type requests rest offset,
         str_lower context_type = "document" ->
         annotation_types requests = (Token, token_by_sentence) :: rest ->
         "Sentence" <> "context" -> "Sentence" <> "offset" ->
         get_data arrays_as_lists pack_two_sentences context_type requests offset
         = ([], Some KeyError)).
Proof.
  apply (request_unit_errors arrays_as_lists pack_two_sentences Token token_by_sentence
           ∅ None
           None "Sentence" {["tid"]}).
  vm_compute. reflexivity.
Defined.

(** ** The columns of an annotation record *)

Lemma empty_arrays_fold (l : list string) (d : gmap string (list value)) k :
  fold_left (fun d field => <[field := []]> d) l d !! k
  = if bool_decide (k ∈ l) then Some [] else d !! k.
Proof.
  revert d. induction l as [| f l IH]; intros d; cbn [fold_left].
  - rewrite bool_decide_eq_false_2 by apply not_elem_of_nil. reflexivity.
  - rewrite IH. destruct (decide (k ∈ l)) as [Hin | Hnin].
    + rewrite !bool_decide_eq_true_2; [reflexivity | | exact Hin].
      apply elem_of_cons. auto.
    + rewrite (bool_decide_eq_false_2 (k ∈ l)) by exact Hnin.
      destruct (decide (f = k)) as [-> | Hne].
      * rewrite lookup_insert_eq, bool_decide_eq_true_2; [reflexivity |].
        apply elem_of_cons. auto.
      * rewrite lookup_insert_ne by exact Hne.
        rewrite bool_decide_eq_false_2; [reflexivity |].
        rewrite elem_of_cons. intros [-> | H]; [congruence | contradiction].
Qed.

Lemma empty_arrays_lookup fields d k :
  empty_arrays fields d !! k = if bool_decide (k ∈ fields) then Some [] else d !! k.
Proof.
  unfold empty_arrays. rewrite empty_arrays_fold.
  destruct (decide (k ∈ fields)) as [Hin | Hnin].
  - rewrite !bool_decide_eq_true_2; [reflexivity | exact Hin |].
    apply elem_of_elements, Hin.
  - rewrite !bool_decide_eq_false_2; [reflexivity | exact Hnin |].
    intros Hin. apply Hnin, elem_of_elements, Hin.
Qed.

Lemma arr_append_some d key col v :
  d !! key = Some col -> arr_append d key v = OK (<[key := (col ++ [v])%list]> d).
Proof. intros H. unfold arr_append, dict_get. rewrite H. reflexivity. Qed.

(** A turn of the loop over the fields, for a field with an array of its
    own. *)
Lemma annotation_field_step_plain p sb y s d f col v :
  span_of y = OK s ->
  f <> "span" -> f <> "text" ->
  d !! f = Some col ->
  column_value p sb y f = OK v ->
  annotation_field_step (text p) y s sb d f = OK (<[f := (col ++ [v])%list]> d).
Proof.
  intros Hs Hsp Htx Hd Hv. unfold annotation_field_step, column_value in *.
  rewrite Hs in Hv. simpl in Hv.
  rewrite !(bool_decide_eq_false_2 (f = "span")) in * by exact Hsp.
  rewrite !(bool_decide_eq_false_2 (f = "text")) in * by exact Htx.
  simpl. destruct (bool_decide (f = "context_span")).
  - inversion Hv; subst v. apply arr_append_some, Hd.
  - rewrite Hv. simpl. apply arr_append_some, Hd.
Qed.

Lemma field_loop_columns p sb y s fs d :
  span_of y = OK s ->
  NoDup fs ->
  (forall f, In f fs -> f <> "span" -> f <> "text" ->
             is_Some (d !! f) /\ exists v, column_value p sb y f = OK v) ->
  exists d',
    rfold (annotation_field_step (text p) y s sb) fs d = OK d'
    /\ (forall k, ~ (In k fs /\ k <> "span" /\ k <> "text") -> d' !! k = d !! k)
    /\ (forall k col v, In k fs -> k <> "span" -> k <> "text" ->
                        d !! k = Some col -> column_value p sb y k = OK v ->
                        d' !! k = Some (col ++ [v])%list).
Proof.
  intros Hs Hnd. revert d. induction Hnd as [| f fs Hf Hnd IH]; intros d Hall.
  - exists d. split; [reflexivity |]. split; [reflexivity |]. intros k col v [].
  - rewrite list_elem_of_In in Hf. simpl.
    destruct (decide (f = "span" \/ f = "text")) as [Hsk | Hpl].
    + assert (Hstep : annotation_field_step (text p) y s sb d f = OK d).
      { unfold annotation_field_step.
        destruct Hsk as [-> | ->]; reflexivity. }
      rewrite Hstep. simpl.
      destruct (IH d) as (d' & Hd' & Hsame & Hadd).
      { intros f' Hin. apply Hall. right. exact Hin. }
      exists d'. split; [exact Hd' |]. split.
      * intros k Hk. apply Hsame. intros (Hin & H1 & H2). apply Hk. auto.
      * intros k col v [<- | Hin] H1 H2; [tauto | apply Hadd; assumption].
    + assert (Hsp : f <> "span") by tauto. assert (Htx : f <> "text") by tauto.
      destruct (Hall f (or_introl eq_refl) Hsp Htx) as [[col Hcol] [v Hv]].
      rewrite (annotation_field_step_plain p sb y s d f col v Hs Hsp Htx Hcol Hv).
      simpl.
      destruct (IH (<[f := (col ++ [v])%list]> d)) as (d' & Hd' & Hsame & Hadd).
      { intros f' Hin H1 H2. destruct (Hall f' (or_intror Hin) H1 H2) as [Hsome Hval].
        split; [| exact Hval].
        rewrite lookup_insert_ne by (intros ->; contradiction). exact Hsome. }
      exists d'. split; [exact Hd' |]. split.
      * intros k Hk. rewrite Hsame by (intros (Hin & H1 & H2); apply Hk; auto).
        apply lookup_insert_ne. intros <-. apply Hk. auto.
      * intros k col' v' [<- | Hin] H1 H2 Hk Hv'.
        -- rewrite Hsame by (intros (Hin & _); contradiction).
           rewrite lookup_insert_eq. congruence.
        -- apply Hadd; try assumption.
           rewrite lookup_insert_ne by (intros ->; contradiction). exact Hk.
Qed.

(** One turn of the loop over the annotations, without a unit: every
    array of the record gets the value of its key for the annotation. *)
Lemma annotation_step_columns p data fields sb d n y :
  (forall k, column_key fields k -> is_Some (d !! k)) ->
  (forall k, column_key fields k -> exists v, column_value p sb y k = OK v) ->
  exists d',
    annotation_step p data None fields sb (d, n) y = OK (d', n)
    /\ (forall k col v, column_key fields k -> d !! k = Some col ->
                        column_value p sb y k = OK v ->
                        d' !! k = Some (col ++ [v])%list).
Proof.
  intros Hkeys Hvals.
  destruct (Hvals "span" (or_introl eq_refl)) as [v0 Hv0].
  unfold column_value in Hv0.
  destruct (span_of y) as [s |] eqn:Hs; [| discriminate]. clear v0 Hv0.
  destruct (Hkeys "span" (or_introl eq_refl)) as [cs Hcs].
  destruct (Hkeys "text" (or_intror (or_introl eq_refl))) as [ct Hct].
  set (d1 := <["span" := (cs ++ [VPair (span_begin s) (span_end s)])%list]> d).
  set (d2 := <["text" := (ct ++ [VStr (annotation_text p s)])%list]> d1).
  destruct (field_loop_columns p sb y s (elements fields) d2 Hs (NoDup_elements fields))
    as (d' & Hd' & Hsame & Hadd).
  { intros f Hin Hsp Htx.
    apply list_elem_of_In, elem_of_elements in Hin.
    split; [| apply Hvals; right; right; exact Hin].
    unfold d2, d1. rewrite !lookup_insert_ne by congruence.
    apply Hkeys. right. right. exact Hin. }
  exists d'. split.
  - unfold annotation_step. rewrite Hs. simpl.
    rewrite (arr_append_some d "span" cs _ Hcs). simpl. fold d1.
    rewrite (arr_append_some d1 "text" ct _); [| unfold d1;
      rewrite lookup_insert_ne by discriminate; exact Hct].
    simpl. fold d2. rewrite Hd'. reflexivity.
  - intros k col v Hk Hcol Hv.
    destruct (decide (k = "span")) as [-> | Hsp].
    { rewrite Hsame by tauto. unfold d2, d1.
      rewrite lookup_insert_ne by discriminate. rewrite lookup_insert_eq.
      unfold column_value in Hv. rewrite Hs in Hv. simpl in Hv. congruence. }
    destruct (decide (k = "text")) as [-> | Htx].
    { rewrite Hsame by tauto. unfold d2. rewrite lookup_insert_eq.
      unfold column_value in Hv. rewrite Hs in Hv. simpl in Hv. congruence. }
    destruct Hk as [? | [? | Hin]]; try contradiction.
    apply Hadd; try assumption.
    + apply list_elem_of_In, elem_of_elements, Hin.
    + unfold d2, d1. rewrite !lookup_insert_ne by congruence. exact Hcol.
Qed.

Lemma annotation_loop_columns p data fields sb ys d n :
  (forall k, column_key fields k -> is_Some (d !! k)) ->
  (forall y k, In y ys -> column_key fields k ->
               exists v, column_value p sb y k = OK v) ->
  exists d',
    rfold (annotation_step p data None fields sb) ys (d, n) = OK (d', n)
    /\ (forall k col, column_key fields k -> d !! k = Some col ->
                      exists col',
                        d' !! k = Some (col ++ col')%list
                        /\ Forall2 (fun y v => column_value p sb y k = OK v) ys col').
Proof.
  revert d. induction ys as [| y ys IH]; intros d Hkeys Hvals.
  - exists d. split; [reflexivity |]. intros k col _ Hcol.
    exists []. rewrite app_nil_r. split; [exact Hcol | constructor].
  - destruct (annotation_step_columns p data fields sb d n y Hkeys) as (d1 & Hstep & Hadd).
    { intros k Hk. apply (Hvals y k); [left; reflexivity | exact Hk]. }
    assert (Hkeys1 : forall k, column_key fields k -> is_Some (d1 !! k)).
    { intros k Hk. destruct (Hkeys k Hk) as [col Hcol].
      destruct (Hvals y k (or_introl eq_refl) Hk) as [v Hv].
      rewrite (Hadd k col v Hk Hcol Hv). eauto. }
    destruct (IH d1 Hkeys1) as (d' & Hloop & Hcols).
    { intros y' k Hin. apply Hvals. right. exact Hin. }
    exists d'. split.
    + cbn [rfold]. rewrite Hstep. exact Hloop.
    + intros k col Hk Hcol.
      destruct (Hvals y k (or_introl eq_refl) Hk) as [v Hv].
      destruct (Hcols k (col ++ [v])%list Hk (Hadd k col v Hk Hcol Hv))
        as (col' & Hd' & HF).
      exists (v :: col'). split.
      * rewrite Hd', <- app_assoc. reflexivity.
      * constructor; assumption.
Qed.

(** X25 (columns of an annotation record): for a request without a unit,
    when the walk of [get_entries] ends normally and the requested fields
    can be read on every annotation it yields, the loop of
    [_generate_annotation_entry_data] ends normally, and the lists that it
    has built have, under ["span"], under ["text"] and under every requested
    field (["tid"] among them), one value per annotation yielded, in the
    order of the walk: the span, the text, the span relative to the sentence
    for ["context_span"], the attribute for any other field.  The method
    returns what the conversion to arrays makes of these lists. *)
Theorem annotation_record_columns :
  forall p a_type a_args data sent comps fields sb,
    _parse_request_args p a_type a_args = OK (comps, None, fields) ->
    sent_begin_of sent = OK sb ->
    (get_entries p a_type sent (CompList <$> comps)).2 = None ->
    (forall y k, In y (get_entries p a_type sent (CompList <$> comps)).1 ->
                 column_key fields k -> exists v, column_value p sb y k = OK v) ->
    exists a_dict,
      annotation_columns p a_type a_args data sent = OK a_dict
      /\ (forall np_arrays,
             _generate_annotation_entry_data np_arrays p a_type a_args data sent
             = np_arrays a_dict)
      /\ (forall k, column_key fields k ->
            exists col,
              a_dict !! k = Some col
              /\ Forall2 (fun y v => column_value p sb y k = OK v)
                   (get_entries p a_type sent (CompList <$> comps)).1 col).
Proof.
  intros p a_type a_args data sent comps fields sb Hparse Hsb Hend Hvals.
  set (d0 := empty_arrays fields (<["text" := []]> (<["span" := []]> ∅))).
  assert (Hd0 : forall k, column_key fields k -> d0 !! k = Some []).
  { intros k Hk. unfold d0. rewrite empty_arrays_lookup.
    case_bool_decide as Hin; [reflexivity |].
    destruct Hk as [-> | [-> | Hk]]; [| | contradiction].
    - rewrite lookup_insert_ne by discriminate. apply lookup_insert_eq.
    - apply lookup_insert_eq. }
  destruct (annotation_loop_columns p data fields sb
              (get_entries p a_type sent (CompList <$> comps)).1 d0 O)
    as (d' & Hloop & Hcols).
  { intros k Hk. rewrite (Hd0 k Hk). eauto. }
  { exact Hvals. }
  assert (Hcolumns : annotation_columns p a_type a_args data sent = OK d').
  { unfold annotation_columns. rewrite Hparse. simpl.
    unfold sent_begin_of in Hsb. rewrite Hsb. simpl.
    unfold rfold_gen. fold d0. rewrite Hloop. simpl. rewrite Hend. reflexivity. }
  exists d'. split; [exact Hcolumns |]. split.
  - intros np_arrays. unfold _generate_annotation_entry_data. rewrite Hcolumns.
    reflexivity.
  - intros k Hk. destruct (Hcols k [] Hk (Hd0 k Hk)) as (col & Hcol & HF).
    exists col. split; [exact Hcol | exact HF].
Qed.

Lemma annotation_record_columns_witness :
  exists a_dict,
    annotation_columns pack_two_sentences Sentence ArgNone ∅ None = OK a_dict
    /\ (forall np_arrays,
           _generate_annotation_entry_data np_arrays pack_two_sentences Sentence
             ArgNone ∅ None
           = np_arrays a_dict)
    /\ (forall k, column_key {["tid"]} k ->
          exists col,
            a_dict !! k = Some col
            /\ Forall2 (fun y v => column_value pack_two_sentences 0 y k = OK v)
                 (get_entries pack_two_sentences Sentence None (CompList <$> None)).1
                 col).
Proof.
  apply (annotation_record_columns pack_two_sentences Sentence ArgNone ∅ None None
           {["tid"]} 0).
  - vm_compute. reflexivity.
  - reflexivity.
  - vm_compute. reflexivity.
  - intros y k Hin Hk. vm_compute in Hin.
    destruct Hin as [<- | [<- | [<- | []]]];
      (destruct Hk as [-> | [-> | Hk]];
       [| | apply elem_of_singleton in Hk; subst k]);
      vm_compute; eauto.
Defined.

(** X26 (link records need both ends): for a request without a unit whose
    walk yields a link first, [_generate_link_entry_data] raises [KeyError]
    when the record has no item for the class of the parent of that link, or
    none for the class of its child: both classes must have been requested
    before the links. *)
Theorem link_record_needs_ends :
  forall np_arrays p a_type a_args data sent comps fields link rest r pt ct,
    _parse_request_args p a_type a_args = OK (comps, None, fields) ->
    get p a_type sent (CompList <$> comps) = (link :: rest, r) ->
    link_parent_type link = OK pt ->
    link_child_type link = OK ct ->
    class_name pt ∉ dom data \/ class_name ct ∉ dom data ->
    _generate_link_entry_data np_arrays p a_type a_args data sent = Raise KeyError.
Proof.
  intros np_arrays p a_type a_args data sent comps fields link rest r pt ct
    Hparse Hget Hpt Hct Hmiss.
  unfold _generate_link_entry_data, link_columns. rewrite Hparse. simpl. rewrite Hget.
  unfold rfold_gen. cbn [fst rfold].
  assert (Hstep : forall a_dict,
             link_step (text p) data fields a_dict link = Raise KeyError).
  { intros a_dict. unfold link_step. rewrite Hpt, Hct. simpl.
    destruct (bool_decide (class_name pt ∈ dom data)) eqn:Hp; [| reflexivity].
    destruct (bool_decide (class_name ct ∈ dom data)) eqn:Hc; [| reflexivity].
    apply bool_decide_eq_true in Hp, Hc. destruct Hmiss; contradiction. }
  rewrite Hstep. reflexivity.
Qed.

Lemma link_record_needs_ends_witness :
  _generate_link_entry_data arrays_as_lists
    (run_calls same_content tokens_and_link (DataPack_init None))
    (VLink, ["Dependency"]) ArgNone ∅ None
  = Raise KeyError.
Proof.
  apply (link_record_needs_ends arrays_as_lists
           (run_calls same_content tokens_and_link (DataPack_init None))
           (VLink, ["Dependency"]) ArgNone ∅ None None {["tid"]}
           (set_tid dependency_0_1 "0") [] None Token Token).
  - vm_compute. reflexivity.
  - vm_compute. reflexivity.
  - reflexivity.
  - reflexivity.
  - left. rewrite dom_empty. apply not_elem_of_empty.
Defined.
